(** * Florence singing-synthesis engine: segmenter, pitch coder, wave
    connecter and orchestrator

    A shallow embedding of the Python sources under [FlorenceEngine/] and the
    properties of its specification.

    Modelling conventions.
    - Python [float] values (times in seconds, frequencies, samples) are
      exact rationals [Q]; [int(x)] is truncation toward zero.  NaN and
      infinities have no counterpart.  In the offset of a word and the length of
      the canvas of [_connect_section], where one unit in the last place
      decides the sample that [int] gives, every operation is rounded to
      double precision ([binary64]).
    - [Word] objects are mutable and shared by reference: a [heap] maps a
      reference to the current state of the object, and lists hold
      references.  [word.time.end = ...] is a heap update.
    - A raised exception is the [Raise] outcome of a [result].
    - numpy arrays of one dimension are lists. *)

From Stdlib Require Import String QArith Qminmax Qround ZArith Lia Lqa.
From stdpp Require Import base tactics option list functions.
Import stdpp.list_basics.list stdpp.list_relations.list.

(** ** Exceptions and results *)

Inductive stage : Type :=
  | StageDecode | StageSpeech | StagePitch | StageConnect | StageOutput.

Inductive exn : Type :=
  | ValueError_overlap (i : nat) (end_time start_time : Q)
  | ValueError_shape
  | IndexError
  | AttributeError (attribute : string)
  | FileNotFoundError (path : string)
  | ExternalError (message : string)
  | StageException (s : stage) (cause : exn).

Inductive result (A : Type) : Type :=
  | OK (a : A)
  | Raise (e : exn).
Arguments OK {A} a.
Arguments Raise {A} e.

Definition rbind {A B : Type} (m : result A) (k : A -> result B) : result B :=
  match m with
  | OK a => k a
  | Raise e => Raise e
  end.

Declare Scope result_scope.
Delimit Scope result_scope with result.
Notation "'do' x <- m ; k" := (rbind m (fun x => k))
  (at level 10, x pattern, m at level 100, k at level 200) : result_scope.

Definition raises {A : Type} (m : result A) : Prop :=
  match m with OK _ => False | Raise _ => True end.

(** ** Data model *)

(** Modelled from the spec: [Objects/data_models.py] and
    [Objects/context.py] are imported by every module but are not among the
    sources.  The records carry the fields that the code reads and writes
    ([word.time.start], [word.oriWave], [section.wordList],
    [context.sample_rate], ...).  A [Word] owns its [Time]
    ([_create_word_from_event] builds one per word), so the time is part of
    the state of the word; [end_] and [Section_] stand for [end] and
    [Section]. *)
Record Time : Type := mkTime { start : Q; end_ : Q }.

Record Word : Type := mkWord {
  pitch : option Q;
  time : Time;
  lrc : string;
  oriWave : option (list Q);
  pitchedWave : option (list Q)
}.

Definition ref : Type := nat.
Abbreviation heap := (ref -> Word).

Record Section_ : Type := mkSection {
  wordList : list ref;
  sectionStart : Q;
  sectionSrc : option (list Q)
}.

Record Context : Type := mkContext { sample_rate : Z; isDebug : bool }.

(** [word.time.end = v] *)
Definition set_time_end (w : Word) (v : Q) : Word :=
  mkWord (pitch w) (mkTime (start (time w)) v) (lrc w) (oriWave w) (pitchedWave w).

(** [int(x)] on a float: truncation toward zero. *)
Definition int_of (x : Q) : Z := Z.quot (Qnum x) (Z.pos (Qden x)).

(** ** Double precision *)

From Stdlib Require Qabs Qpower.

(** The integer nearest to [x], a tie going to the even one. *)
Definition rint (x : Q) : Z :=
  let f := Qfloor x in
  match Qcompare (x - inject_Z f) (1 # 2) with
  | Lt => f
  | Gt => (f + 1)%Z
  | Eq => if Z.even f then f else (f + 1)%Z
  end.

(** The exponent [e] of a positive [x]: [2^e <= x < 2^(e+1)]. *)
Definition ilogb (x : Q) : Z :=
  let e := (Z.log2 (Qnum x) - Z.log2 (Z.pos (Qden x)))%Z in
  if Qle_bool (2 ^ e) x then e else (e - 1)%Z.

(** The result of an operation on Python [float]s whose exact value is
    [x]: the double nearest to [x], a tie going to the even significand;
    53 bits of precision, numbers below [2^-1022] on the grid of the
    subnormals.  An overflow to infinity has no counterpart.  Also
    [float(n)] of an integer [n]. *)
Definition binary64 (x : Q) : Q :=
  if Qeq_bool x 0 then 0
  else
    let e := Z.max (ilogb (Qabs.Qabs x)) (-1022) in
    let ulp := (2 ^ (e - 52))%Q in
    inject_Z (rint (x / ulp)) * ulp.

(** ** FlorenceScoreDecoder: grouping words into sections *)

Module FlorenceScoreDecoder.

Definition TIME_TOLERANCE : Q := 1 # 1000000000000.

(** [_check_overlap]: the loop [for i in range(len(words) - 1)], here from
    index [i] on with [words[i:]] at hand. *)
Fixpoint check_overlap_from (h : heap) (i : nat) (words : list ref) : result unit :=
  match words with
  | current_word :: ((next_word :: _) as tl) =>
      let overlap := (end_ (time (h current_word)) - start (time (h next_word)))%Q in
      if Qlt_le_dec TIME_TOLERANCE overlap
      then Raise (ValueError_overlap i (end_ (time (h current_word)))
                                       (start (time (h next_word))))
      else check_overlap_from h (S i) tl
  | _ => OK tt
  end.

Definition _check_overlap (h : heap) (words : list ref) : result unit :=
  if (length words <? 2)%nat then OK tt else check_overlap_from h 0 words.

(** [_normalnize_time]: [zip(wordList, wordList[1:])] walks the adjacent
    pairs in order; each step writes the end time of the first of the pair. *)
Fixpoint _normalnize_time (h : heap) (wordList : list ref) : heap :=
  match wordList with
  | current_word :: ((next_word :: _) as tl) =>
      _normalnize_time
        (<[current_word := set_time_end (h current_word) (start (time (h next_word)))]> h)
        tl
  | _ => h
  end.

(** [_create_validated_section]: the section keeps the very list it was
    given; [word_list[0]] raises on an empty list. *)
Definition _create_validated_section (h : heap) (word_list : list ref)
  : result (Section_ * heap) :=
  (do _ <- _check_overlap h word_list;
   let h' := _normalnize_time h word_list in
   match word_list with
   | [] => Raise IndexError
   | w0 :: _ => OK (mkSection word_list (start (time (h' w0))) None, h')
   end)%result.

(** The [for current_word in words[1:]] loop of [_group_words_to_sections]
    and the code after it, over the loop state [(sections, current_batch)]
    and the heap. *)
Fixpoint group_loop (h : heap) (sections : list Section_) (current_batch : list ref)
    (rest : list ref) : result (list Section_ * heap) :=
  match rest with
  | [] =>
      match current_batch with
      | [] => OK (sections, h)
      | _ => (do (s, h') <- _create_validated_section h current_batch;
              OK (sections ++ [s], h'))%result
      end
  | current_word :: rest' =>
      match last current_batch with
      | None => Raise IndexError
      | Some previous_word =>
          let time_gap :=
            (start (time (h current_word)) - end_ (time (h previous_word)))%Q in
          if Qlt_le_dec TIME_TOLERANCE time_gap
          then (do (s, h') <- _create_validated_section h current_batch;
                group_loop h' (sections ++ [s]) [current_word] rest')%result
          else group_loop h sections (current_batch ++ [current_word]) rest'
      end
  end.

Definition _group_words_to_sections (h : heap) (words : list ref)
  : result (list Section_ * heap) :=
  match words with
  | [] => OK ([], h)
  | w0 :: rest => group_loop h [] [w0] rest
  end.

End FlorenceScoreDecoder.

(** ** FlorenceCoder: pitch retargeting through the WORLD vocoder *)

Module FlorenceCoder.

Inductive dtype : Type := float32 | float64.

Definition Qpositive (v : Q) : bool := if Qlt_le_dec 0 v then true else false.

(** [np.mean] of a non-empty array. *)
Definition np_mean (a : list Q) : Q :=
  (foldr Qplus 0 a / inject_Z (Z.of_nat (length a)))%Q.

(** [np.clip(v, lo, hi)] *)
Definition np_clip (v lo hi : Q) : Q := Qmin (Qmax v lo) hi.

(** Step 7 of [_shift_pitch]: scale the contour by the ratio, then
    [np.where(modified_f0 > 0, np.clip(modified_f0, 50, 1600), 0)]. *)
Definition modify_f0 (f0 : list Q) (pitch_ratio : Q) : list Q :=
  let modified_f0 := map (fun v => (v * pitch_ratio)%Q) f0 in
  map (fun m => if Qpositive m then np_clip m 50 1600 else 0%Q) modified_f0.

(** Step 9 of [_shift_pitch]: cut [y] down to, or pad it with zeros up to,
    the length of [audio]. *)
Definition align_length (y audio : list Q) : list Q :=
  if (length y =? length audio)%nat then y
  else if (length audio <? length y)%nat then take (length audio) y
  else y ++ replicate (length audio - length y)%nat 0%Q.

Section Coder.

(** The spectral envelope and the aperiodicity are opaque to the coder. *)
Variables (Envelope Aperiodicity : Type).

(** [pyworld], an external library; every call may raise. *)
Record World : Type := mkWorld {
  dio : list Q -> Z -> Q -> result (list Q * list Q);
  stonemask : list Q -> list Q -> list Q -> Z -> result (list Q);
  cheaptrick : list Q -> list Q -> list Q -> Z -> result Envelope;
  d4c : list Q -> list Q -> list Q -> Z -> result Aperiodicity;
  synthesize : list Q -> Envelope -> Aperiodicity -> Z -> Q -> result (list Q)
}.

Variable pw : World.
(** [ndarray.astype]: the rounding of one sample to the given precision. *)
Variable astype : dtype -> Q -> Q.
Variable context : Context.
Variable frame_period : Q.

Definition _shift_pitch (audio : list Q) (target_freq : Q) : result (list Q) :=
  let sample_rate := sample_rate context in
  let x := map (astype float64) audio in
  (do (f0, t) <- dio pw x sample_rate frame_period;
   do f0 <- stonemask pw x f0 t sample_rate;
   do sp <- cheaptrick pw x f0 t sample_rate;
   do ap <- d4c pw x f0 t sample_rate;
   let valid_f0 := List.filter Qpositive f0 in
   if (length valid_f0 =? 0)%nat then OK audio
   else
     let current_avg_f0 := np_mean valid_f0 in
     let pitch_ratio := (target_freq / current_avg_f0)%Q in
     let modified_f0 := modify_f0 f0 pitch_ratio in
     do y <- synthesize pw modified_f0 sp ap sample_rate frame_period;
     OK (map (astype float32) (align_length y audio)))%result.

Definition set_pitchedWave (w : Word) (v : list Q) : Word :=
  mkWord (pitch w) (time w) (lrc w) (oriWave w) (Some v).

(** [_process_word]: the state of the word after the call. *)
Definition _process_word (word : Word) : Word :=
  match oriWave word with
  | None => word
  | Some audio =>
      if (length audio =? 0)%nat then word
      else match pitch word with
           | None => word
           | Some p =>
               if Qle_bool p 0 then word
               else match _shift_pitch audio p with
                    | OK y => set_pitchedWave word y
                    | Raise _ => set_pitchedWave word audio
                    end
           end
  end.

End Coder.

Arguments mkWorld {Envelope Aperiodicity}.
Arguments dio {Envelope Aperiodicity}.
Arguments stonemask {Envelope Aperiodicity}.
Arguments cheaptrick {Envelope Aperiodicity}.
Arguments d4c {Envelope Aperiodicity}.
Arguments synthesize {Envelope Aperiodicity}.
Arguments _shift_pitch {Envelope Aperiodicity}.
Arguments _process_word {Envelope Aperiodicity}.

End FlorenceCoder.

(** ** FlorenceWaveConnecter: overlap-add assembly of a section *)

Module FlorenceWaveConnecter.

(** [np.zeros(n)]; a negative size raises. *)
Definition np_zeros (n : Z) : result (list Q) :=
  if (n <? 0)%Z then Raise ValueError_shape else OK (replicate (Z.to_nat n) 0%Q).

(** [np.linspace(a, b, num)] with the end point, as numpy computes it:
    [div = num - 1], [delta = b - a]; the samples are [i * (delta / div) + a]
    when [div > 0] and [i * delta + a] otherwise (a single sample, [a]);
    with more than one sample the last one is set to [b]; a negative [num]
    raises. *)
Definition np_linspace (a b : Q) (num : Z) : result (list Q) :=
  if (num <? 0)%Z then Raise ValueError_shape
  else
    let div := (num - 1)%Z in
    let delta := (b - a)%Q in
    let y :=
      if (0 <? div)%Z
      then map (fun i : nat => (inject_Z (Z.of_nat i) * (delta / inject_Z div) + a)%Q)
               (seq 0 (Z.to_nat num))
      else map (fun i : nat => (inject_Z (Z.of_nat i) * delta + a)%Q)
               (seq 0 (Z.to_nat num)) in
    OK (if (1 <? num)%Z then <[Z.to_nat (num - 1) := b]> y else y).

(** A bound of the slice [a[i:j]] on an array of length [len]: a negative
    bound counts from the end, and the bound is clipped to [0, len]. *)
Definition slice_bound (len i : Z) : nat :=
  Z.to_nat (if (i <? 0)%Z then Z.max (i + len) 0 else Z.min i len).

(** [a[i:j] op= w] for an elementwise [op]: the right-hand side must have
    the shape of the slice, or one element that is broadcast. *)
Definition slice_iop (op : Q -> Q -> Q) (a : list Q) (i j : Z) (w : list Q)
  : result (list Q) :=
  let len := Z.of_nat (length a) in
  let lo := slice_bound len i in
  let n := (slice_bound len j - lo)%nat in
  let target := take n (drop lo a) in
  if (length w =? n)%nat
  then OK (take lo a ++ zip_with op target w ++ drop (lo + n) a)
  else match w with
       | [v] => OK (take lo a ++ map (fun c => op c v) target ++ drop (lo + n) a)
       | _ => Raise ValueError_shape
       end.

Section Connecter.

Variable context : Context.

(** The fade length that [_apply_declick_envelope] settles on: 5 ms of
    samples, or half the wave when the wave is shorter than two fades. *)
Definition fade_samples (wave : list Q) : Z :=
  let fade_samples := int_of ((5 # 1000) * inject_Z (sample_rate context)) in
  if (Z.of_nat (length wave) <? fade_samples * 2)%Z
  then (Z.of_nat (length wave) / 2)%Z
  else fade_samples.

(** [processed[:fade_samples] *= fade_in] and
    [processed[-fade_samples:] *= fade_out]; an omitted bound of a slice is
    the start or the end of the array. *)
Definition _apply_declick_envelope (wave : list Q) : result (list Q) :=
  let fade_samples := fade_samples wave in
  if (fade_samples =? 0)%Z then OK wave
  else
    let processed := wave in
    (do fade_in <- np_linspace 0 1 fade_samples;
     do fade_out <- np_linspace 1 0 fade_samples;
     do processed <- slice_iop Qmult processed 0 fade_samples fade_in;
     do processed <- slice_iop Qmult processed (- fade_samples)
                       (Z.of_nat (length processed)) fade_out;
     OK processed)%result.

(** [word.pitchedWave if word.pitchedWave is not None else word.oriWave] *)
Definition source_wave (word : Word) : option (list Q) :=
  match pitchedWave word with
  | Some p => Some p
  | None => oriWave word
  end.

(** [relative_start_time = word.time.start - base_time] and
    [start_idx = int(relative_start_time * self.context.sample_rate)], the
    difference and the product in double precision. *)
Definition start_idx (base_time : Q) (word : Word) : Z :=
  let relative_start_time := binary64 (start (time word) - base_time) in
  int_of (binary64 (relative_start_time * binary64 (inject_Z (sample_rate context)))).

(** Step 4 of the loop body: the canvas grown to hold [end_idx] samples. *)
Definition grow_canvas (canvas : list Q) (end_idx : Z) : list Q :=
  if (Z.of_nat (length canvas) <? end_idx)%Z
  then canvas ++ replicate (Z.to_nat (end_idx - Z.of_nat (length canvas))) 0%Q
  else canvas.

(** One iteration of [for word in section.wordList]. *)
Definition mix_word (base_time : Q) (canvas : list Q) (word : Word)
  : result (list Q) :=
  match source_wave word with
  | None => OK canvas
  | Some source =>
      if (length source =? 0)%nat then OK canvas
      else
        let start_idx := start_idx base_time word in
        let end_idx := (start_idx + Z.of_nat (length source))%Z in
        let canvas := grow_canvas canvas end_idx in
        (do processed_wave <- _apply_declick_envelope source;
         slice_iop Qplus canvas start_idx end_idx processed_wave)%result
  end.

Fixpoint mix_words (h : heap) (base_time : Q) (canvas : list Q) (words : list ref)
  : result (list Q) :=
  match words with
  | [] => OK canvas
  | word :: rest =>
      (do canvas <- mix_word base_time canvas (h word);
       mix_words h base_time canvas rest)%result
  end.

Definition set_sectionSrc (s : Section_) (canvas : list Q) : Section_ :=
  mkSection (wordList s) (sectionStart s) (Some canvas).

(** [_connect_section]: the state of the section after the call.
    [duration = end_time - base_time + 0.5] and
    [total_samples = int(duration * self.context.sample_rate)] are computed
    in double precision. *)
Definition _connect_section (h : heap) (section : Section_) : result Section_ :=
  match wordList section, last (wordList section) with
  | w0 :: _, Some wlast =>
      let base_time := start (time (h w0)) in
      let end_time := end_ (time (h wlast)) in
      let duration := binary64 (binary64 (end_time - base_time) + (1 # 2)) in
      let total_samples :=
        int_of (binary64 (duration * binary64 (inject_Z (sample_rate context)))) in
      (do canvas <- np_zeros total_samples;
       do canvas <- mix_words h base_time canvas (wordList section);
       OK (set_sectionSrc section canvas))%result
  | _, _ => OK section
  end.

End Connecter.

End FlorenceWaveConnecter.

(** ** FlorenceEngine: the orchestrator *)

Module FlorenceEngine.

Section Engine.

(** The song travels through the stages as an opaque value. *)
Variable Song : Type.
Variable track_count : Song -> nat.

(** What an execution does besides returning: the lines it prints and the
    calls it makes to the stage modules, in order. *)
Inductive event : Type :=
  | PrintStart (score_path : string)
  | PrintStep (s : stage)
  | PrintDone (s : stage)
  | PrintTracks (n : nat)
  | PrintOutput (output_path : string)
  | CallDecode (score_path : string)
  | CallSpeech (song : Song)
  | CallPitch (song : Song)
  | CallConnect (song : Song)
  | CallOutput (song : Song).

Definition run (A : Type) : Type := (list event * result A)%type.

Definition ret {A : Type} (a : A) : run A := ([], OK a).
Definition throw {A : Type} (e : exn) : run A := ([], Raise e).
Definition emit (e : event) : run unit := ([e], OK tt).
Definition bind {A B : Type} (m : run A) (k : A -> run B) : run B :=
  match m with
  | (t1, OK a) => let (t2, r) := k a in (t1 ++ t2, r)
  | (t1, Raise e) => (t1, Raise e)
  end.
(** [try: m  except Exception as e: handler e] *)
Definition try_except {A : Type} (m : run A) (handler : exn -> run A) : run A :=
  match m with
  | (t1, OK a) => (t1, OK a)
  | (t1, Raise e) => let (t2, r) := handler e in (t1 ++ t2, r)
  end.

Declare Scope run_scope.
Delimit Scope run_scope with run.
Notation "'do' x <- m ; k" := (bind m (fun x => k))
  (at level 10, x pattern, m at level 100, k at level 200) : run_scope.

(** The engine object.  An attribute that was never assigned is [None];
    reading it raises [AttributeError]. *)
Record Engine : Type := mkEngine {
  output_dir : string;
  input_dir : string;
  sample_rate : Z;
  isDebug : bool;
  decoder : option (string -> result Song);
  speech_generator : option (Song -> result Song);
  coder : option (Song -> result Song);
  wave_connector : option (Song -> result Song);
  output_generator : option (Song -> result string)
}.

(** [__init__] assigns [self.decoder] and [self.speech_generator]; the
    assignments of [self.coder], [self.wave_connector] and
    [self.output_generator] are commented out in the source. *)
Definition __init__ (output_dir input_dir : string) (sample_rate : Z) (is_debug : bool)
    (decode_score : string -> result Song) (generate_song_speech : Song -> result Song)
  : Engine :=
  mkEngine output_dir input_dir sample_rate is_debug
    (Some decode_score) (Some generate_song_speech) None None None.

Variable path_exists : string -> bool.
Variable self : Engine.

(** [self.<attribute>.<method>(arg)], announced by the event [call]. *)
Definition call_module {A B : Type} (attribute : string) (module : option (A -> result B))
    (call : event) (arg : A) : run B :=
  match module with
  | None => throw (AttributeError attribute)
  | Some method => (do _ <- emit call; ([], method arg))%run
  end.

Definition _decode_score (score_path : string) : run Song :=
  call_module "decoder" (decoder self) (CallDecode score_path) score_path.

Definition _generate_speech (song : Song) : run Song :=
  call_module "speech_generator" (speech_generator self) (CallSpeech song) song.

Definition _adjust_pitch (song : Song) : run Song :=
  try_except (call_module "coder" (coder self) (CallPitch song) song)
    (fun e => throw (StageException StagePitch e)).

Definition _smooth_connect (song : Song) : run Song :=
  try_except (call_module "wave_connector" (wave_connector self) (CallConnect song) song)
    (fun e => throw (StageException StageConnect e)).

Definition _generate_output (song : Song) : run string :=
  try_except (call_module "output_generator" (output_generator self) (CallOutput song) song)
    (fun e => throw (StageException StageOutput e)).

Definition process_score (score_path : string) : run string :=
  (do _ <- emit (PrintStart score_path);
   do _ <- (if path_exists score_path then ret tt
            else throw (FileNotFoundError score_path));
   do _ <- emit (PrintStep StageDecode);
   do song <- _decode_score score_path;
   do _ <- emit (PrintTracks (track_count song));
   do _ <- emit (PrintStep StageSpeech);
   do song <- _generate_speech song;
   do _ <- emit (PrintDone StageSpeech);
   do _ <- emit (PrintStep StagePitch);
   do song <- _adjust_pitch song;
   do _ <- emit (PrintDone StagePitch);
   do _ <- emit (PrintStep StageConnect);
   do song <- _smooth_connect song;
   do _ <- emit (PrintDone StageConnect);
   do _ <- emit (PrintStep StageOutput);
   do output_path <- _generate_output song;
   do _ <- emit (PrintDone StageOutput);
   do _ <- emit (PrintOutput output_path);
   ret output_path)%run.

(** The calls to the stage modules among the events of a trace. *)
Definition is_call (e : event) : bool :=
  match e with
  | CallDecode _ | CallSpeech _ | CallPitch _ | CallConnect _ | CallOutput _ => true
  | _ => false
  end.

Definition calls (t : list event) : list event := List.filter is_call t.

End Engine.

Arguments PrintStart {Song}.
Arguments PrintStep {Song}.
Arguments PrintDone {Song}.
Arguments PrintTracks {Song}.
Arguments PrintOutput {Song}.
Arguments CallDecode {Song}.
Arguments CallSpeech {Song}.
Arguments CallPitch {Song}.
Arguments CallConnect {Song}.
Arguments CallOutput {Song}.
Arguments mkEngine {Song}.
Arguments decoder {Song}.
Arguments speech_generator {Song}.
Arguments coder {Song}.
Arguments wave_connector {Song}.
Arguments output_generator {Song}.
Arguments __init__ {Song}.
Arguments process_score {Song}.
Arguments calls {Song}.

End FlorenceEngine.

(** * The rest of the engine *)

From Stdlib Require Import Ascii.

(** ** More exceptions *)

(** The exceptions raised outside the functions above; [Raised] carries one
    of theirs. *)
Inductive error : Type :=
  | Raised (e : exn)
  | ValueError_lyric (offset frequency : Q)
  | ValueError_no_words
  | RuntimeError_part (part_id : string) (cause : error)
  | Exception_no_engine
  | ValueError_engine (engine_name : string) (available : list string)
  | ValueError_sample_width (sample_width : Z)
  | ValueError_buffer_size
  | ValueError_interp_empty
  | ZeroDivisionError
  | EngineError (message : string).

Inductive res (A : Type) : Type :=
  | Ok (a : A)
  | Err (e : error).
Arguments Ok {A} a.
Arguments Err {A} e.

Definition res_bind {A B : Type} (m : res A) (k : A -> res B) : res B :=
  match m with
  | Ok a => k a
  | Err e => Err e
  end.

Definition lift {A : Type} (m : result A) : res A :=
  match m with
  | OK a => Ok a
  | Raise e => Err (Raised e)
  end.

Declare Scope res_scope.
Delimit Scope res_scope with res.
Notation "'do' x <- m ; k" := (res_bind m (fun x => k))
  (at level 10, x pattern, m at level 100, k at level 200) : res_scope.

(** ** Python strings *)

(** A [string] holds the UTF-8 bytes of a Python [str]: the text is ASCII
    when every byte is below 128, a substring of the text is a substring of
    the bytes, and on ASCII text [str.lower] and the pattern [\d] act byte by
    byte.  What they do on other text is left to parameters. *)
Module PyStr.

Fixpoint string_map (f : ascii -> ascii) (s : string) : string :=
  match s with
  | EmptyString => EmptyString
  | String c s' => String (f c) (string_map f s')
  end.

Fixpoint string_filter (p : ascii -> bool) (s : string) : string :=
  match s with
  | EmptyString => EmptyString
  | String c s' => if p c then String c (string_filter p s') else string_filter p s'
  end.

Fixpoint string_forall (p : ascii -> bool) (s : string) : bool :=
  match s with
  | EmptyString => true
  | String c s' => p c && string_forall p s'
  end.

Definition is_ascii_char (c : ascii) : bool := (nat_of_ascii c <? 128)%nat.
Definition is_upper (c : ascii) : bool :=
  (65 <=? nat_of_ascii c)%nat && (nat_of_ascii c <=? 90)%nat.
Definition is_digit (c : ascii) : bool :=
  (48 <=? nat_of_ascii c)%nat && (nat_of_ascii c <=? 57)%nat.
Definition lower_char (c : ascii) : ascii :=
  if is_upper c then ascii_of_nat (nat_of_ascii c + 32) else c.

(** [text.isascii()] *)
Definition isascii (text : string) : bool := string_forall is_ascii_char text.

(** [needle in hay] *)
Fixpoint contains (needle hay : string) : bool :=
  String.prefix needle hay ||
  match hay with
  | EmptyString => false
  | String _ hay' => contains needle hay'
  end.

Section Unicode.

Variable unicode_lower : string -> string.
Variable unicode_sub_digits : string -> string.

(** [text.lower()] *)
Definition lower (text : string) : string :=
  if isascii text then string_map lower_char text else unicode_lower text.

(** [re.sub(r'\d', '', text)] *)
Definition sub_digits (text : string) : string :=
  if isascii text then string_filter (fun c => negb (is_digit c)) text
  else unicode_sub_digits text.

End Unicode.

End PyStr.

(** ** FlorenceScoreDecoder: from the events of a part to a track *)

(** Modelled from the spec: [Track] and [Song] of
    [Objects/data_models.py], which is not among the sources; the fields are
    those the code reads and writes. *)
Record Track : Type := mkTrack { sectionList : list Section_ }.
Record Song : Type := mkSong { trackList : list Track; name : string }.

Module ScoreDecoding.
Import FlorenceScoreDecoder.

(** What the decoder reads of [music21]: an entry of
    [part.flatten().secondsMap] with its element, which is a [Note] with
    [lyric], [pitch.frequency] and [offset], or something else.  The pitch
    of a note, which the error of a missing lyric names, is represented by
    its frequency. *)
Record Note_ : Type := mkNote { lyric : option string; frequency : Q; offset : Q }.

Inductive Element : Type :=
  | ENote (n : Note_)
  | EOther.

Record Event : Type := mkEvent {
  element : Element;
  offsetSeconds : Q;
  durationSeconds : Q
}.

(** A part as the loop of [decode_score] finds it, that is after
    [_set_part_tempo]: its [id] and the entries of
    [part.flatten().secondsMap]. *)
Record Part : Type := mkPart { part_id : string; secondsMap : list Event }.

Section Decoder.

(** [Pinyin.get_pinyin(text, tone_marks='numbers')] and the part of
    [str.lower] and [re.sub] outside ASCII. *)
Variable get_pinyin : string -> string.
Variable unicode_lower : string -> string.
Variable unicode_sub_digits : string -> string.

Definition _convert_to_pinyin (text : string) : string :=
  match text with
  | EmptyString => EmptyString
  | _ =>
      if PyStr.isascii text then PyStr.lower unicode_lower text
      else
        let pinyin := get_pinyin text in
        let pinyin_no_tone := PyStr.sub_digits unicode_sub_digits pinyin in
        PyStr.lower unicode_lower pinyin_no_tone
  end.

(** [_create_word_from_event]: the state of the new [Word]. *)
Definition _create_word_from_event (event : Event) (el : Note_) (text : string) : Word :=
  let start_seconds := offsetSeconds event in
  let duration_seconds := durationSeconds event in
  mkWord (Some (frequency el))
         (mkTime start_seconds (start_seconds + duration_seconds)%Q)
         (_convert_to_pinyin text) None None.

(** The loop of [_extract_words].  A new object takes the next free
    reference [next]. *)
Fixpoint extract_loop (h : heap) (next : ref) (words : list ref) (events : list Event)
  : res (list ref * heap * ref) :=
  match events with
  | [] => Ok (words, h, next)
  | event :: rest =>
      match element event with
      | EOther => extract_loop h next words rest
      | ENote el =>
          match lyric el with
          | None | Some EmptyString => Err (ValueError_lyric (offset el) (frequency el))
          | Some text =>
              let word := _create_word_from_event event el text in
              extract_loop (<[next := word]> h) (S next) (words ++ [next]) rest
          end
      end
  end.

Definition _extract_words (h : heap) (next : ref) (events : list Event)
  : res (list ref * heap * ref) :=
  extract_loop h next [] events.

Definition _process_part (h : heap) (next : ref) (part : Part) : res (Track * heap * ref) :=
  (do (words, h1, next1) <- _extract_words h next (secondsMap part);
   match words with
   | [] => Err ValueError_no_words
   | _ =>
       do (sections, h2) <- lift (_group_words_to_sections h1 words);
       Ok (mkTrack sections, h2, next1)
   end)%res.

(** The loop of [decode_score] over [score.parts]: an exception of a part is
    raised again as a [RuntimeError] that names the part. *)
Fixpoint decode_parts (h : heap) (next : ref) (trackList : list Track) (parts : list Part)
  : res (list Track * heap * ref) :=
  match parts with
  | [] => Ok (trackList, h, next)
  | part :: rest =>
      match _process_part h next part with
      | Ok (track, h', next') => decode_parts h' next' (trackList ++ [track]) rest
      | Err e => Err (RuntimeError_part (part_id part) e)
      end
  end.

End Decoder.

End ScoreDecoding.

(** ** FlorenceCoder and FlorenceWaveConnecter over a song *)

Module SongStages.
Import FlorenceCoder FlorenceWaveConnecter.

Section Coder.

Context {Envelope Aperiodicity : Type}.
Variable pw : World Envelope Aperiodicity.
Variable astype : dtype -> Q -> Q.
Variable context : Context.
Variable frame_period : Q.

(** [for word in section.wordList: self._process_word(word)] *)
Definition process_words (h : heap) (words : list ref) : heap :=
  foldl (fun h word => <[word := _process_word pw astype context frame_period (h word)]> h)
        h words.

Definition process_sections (h : heap) (sections : list Section_) : heap :=
  foldl (fun h section => process_words h (wordList section)) h sections.

(** [process_song]: the heap after the three nested loops. *)
Definition process_song (h : heap) (song : Song) : heap :=
  foldl (fun h track => process_sections h (sectionList track)) h (trackList song).

End Coder.

Section Connecter.

Variable context : Context.

(** [for section in track.sectionList: self._connect_section(section)] *)
Fixpoint connect_sections (h : heap) (sections : list Section_)
  : result (list Section_) :=
  match sections with
  | [] => OK []
  | section :: rest =>
      (do section' <- _connect_section context h section;
       do rest' <- connect_sections h rest;
       OK (section' :: rest'))%result
  end.

Fixpoint connect_tracks (h : heap) (tracks : list Track) : result (list Track) :=
  match tracks with
  | [] => OK []
  | track :: rest =>
      (do sections <- connect_sections h (sectionList track);
       do rest' <- connect_tracks h rest;
       OK (mkTrack sections :: rest'))%result
  end.

(** [connect_song]: the song with the sections as the calls left them. *)
Definition connect_song (h : heap) (song : Song) : result Song :=
  (do tracks <- connect_tracks h (trackList song);
   OK (mkSong tracks (name song)))%result.

End Connecter.

End SongStages.

(** ** FlorenceSpeakGenerateor and TTSFactory *)

Module SpeakGenerateor.

(** [BaseSpeakGenerator]: an engine is its [generate_single_word_speech]. *)
Record TTSEngine : Type := mkTTSEngine {
  generate_single_word_speech : string -> res (list Q)
}.

(** A class of [usable_list]: its [__name__] and its constructor, which may
    raise. *)
Record EngineClass : Type := mkEngineClass {
  __name__ : string;
  instantiate : Context -> res TTSEngine
}.

Section Factory.

Variable usable_list : list EngineClass.
Variable unicode_lower : string -> string.

Definition get_available_engines : list string := map __name__ usable_list.

Definition auto_select_engine : res string :=
  match usable_list with
  | [] => Err Exception_no_engine
  | cls :: _ => Ok (__name__ cls)
  end.

(** The test of the loop of [create_engine]:
    [engine_name.lower() in cls.__name__.lower()]. *)
Definition matches (engine_name : string) (cls : EngineClass) : bool :=
  PyStr.contains (PyStr.lower unicode_lower engine_name)
                 (PyStr.lower unicode_lower (__name__ cls)).

Definition create_engine (engine_name : string) (context : Context) : res TTSEngine :=
  let target_class := List.find (matches engine_name) usable_list in
  match target_class with
  | None => Err (ValueError_engine engine_name get_available_engines)
  | Some cls => instantiate cls context
  end.

(** [FlorenceSpeakGenerateor.__init__], the factory module having been
    imported: the engine it keeps in [self.tts_engine]. *)
Definition __init__ (context : Context) (engine_type : string) : res TTSEngine :=
  match engine_type with
  | EmptyString =>
      (do best_engine_name <- auto_select_engine;
       create_engine best_engine_name context)%res
  | _ => create_engine engine_type context
  end.

End Factory.

Definition set_oriWave (w : Word) (v : list Q) : Word :=
  mkWord (pitch w) (time w) (lrc w) (Some v) (pitchedWave w).

Section Generator.

Variable tts_engine : TTSEngine.

(** [_process_section]:
    [word.oriWave = self._generate_single_word_speech(word.lrc)] for every
    word, up to the first one on which the engine raises. *)
Fixpoint _process_section (h : heap) (words : list ref) : res heap :=
  match words with
  | [] => Ok h
  | word :: rest =>
      (do wave <- generate_single_word_speech tts_engine (lrc (h word));
       _process_section (<[word := set_oriWave (h word) wave]> h) rest)%res
  end.

Fixpoint process_sections (h : heap) (sections : list Section_) : res heap :=
  match sections with
  | [] => Ok h
  | section :: rest =>
      (do h' <- _process_section h (wordList section);
       process_sections h' rest)%res
  end.

Fixpoint process_tracks (h : heap) (tracks : list Track) : res heap :=
  match tracks with
  | [] => Ok h
  | track :: rest =>
      (do h' <- process_sections h (sectionList track);
       process_tracks h' rest)%res
  end.

Definition generate_song_speech (h : heap) (song : Song) : res heap :=
  process_tracks h (trackList song).

End Generator.

End SpeakGenerateor.

(** ** WindowsHuiHuiSpeakGenerateor: from WAV data to samples *)

Module HuiHui.
Import FlorenceCoder FlorenceWaveConnecter.

(** What the [wave] module reports of a file, and the bytes of its frames. *)
Record WavFile : Type := mkWavFile {
  getnchannels : Z;
  getsampwidth : Z;
  getframerate : Z;
  readframes : list Byte.byte
}.

Definition byte_value (b : Byte.byte) : Z := Z.of_N (Byte.to_N b).

(** [np.frombuffer(frames, dtype=np.int16)] on a little-endian host; a
    buffer of odd size raises. *)
Fixpoint frombuffer_int16 (frames : list Byte.byte) : res (list Z) :=
  match frames with
  | [] => Ok []
  | [_] => Err ValueError_buffer_size
  | lo :: hi :: rest =>
      let u := (byte_value lo + 256 * byte_value hi)%Z in
      let v := if (u <? 32768)%Z then u else (u - 65536)%Z in
      (do tl <- frombuffer_int16 rest; Ok (v :: tl))%res
  end.

(** [np.frombuffer(frames, dtype=np.uint8)] *)
Definition frombuffer_uint8 (frames : list Byte.byte) : list Z := map byte_value frames.

(** [audio_data.reshape(-1, 2).mean(axis=1)]; an odd number of samples
    raises. *)
Fixpoint stereo_to_mono (audio_data : list Q) : res (list Q) :=
  match audio_data with
  | [] => Ok []
  | [_] => Err ValueError_buffer_size
  | l :: r :: rest =>
      (do tl <- stereo_to_mono rest; Ok (((l + r) / 2)%Q :: tl))%res
  end.

(** [np.arange(n)] *)
Definition np_arange (n : nat) : list Q := map (fun i : nat => inject_Z (Z.of_nat i)) (seq 0 n).

(** [np.interp] at one point [x] not left of the first sample point: the
    segment that holds [x], or the last value. *)
Fixpoint interp_from (x : Q) (xp fp : list Q) : Q :=
  match xp, fp with
  | x0 :: ((x1 :: _) as xp'), f0 :: ((f1 :: _) as fp') =>
      if Qlt_le_dec x x1
      then ((f1 - f0) / (x1 - x0) * (x - x0) + f0)%Q
      else interp_from x xp' fp'
  | _, f0 :: _ => f0
  | _, [] => 0%Q
  end.

(** [np.interp(x, xp, fp)] for increasing [xp] of the length of [fp]; no
    sample point raises. *)
Definition np_interp (x xp fp : list Q) : res (list Q) :=
  match xp, fp with
  | x0 :: _, f0 :: _ =>
      Ok (map (fun v => if Qlt_le_dec v x0 then f0 else interp_from v xp fp) x)
  | _, _ => Err ValueError_interp_empty
  end.

Section Engine.

Variable astype : dtype -> Q -> Q.
Variable context : Context.

Definition _resample_audio (audio_data : list Q) (original_rate target_rate : Z)
  : res (list Q) :=
  if (original_rate =? target_rate)%Z then Ok audio_data
  else if (original_rate =? 0)%Z then Err ZeroDivisionError
  else
    let len := Z.of_nat (length audio_data) in
    let new_length := int_of (inject_Z (len * target_rate) / inject_Z original_rate) in
    let old_indices := np_arange (length audio_data) in
    (do new_indices <- lift (np_linspace 0 (inject_Z (len - 1)) new_length);
     do resampled_audio <- np_interp new_indices old_indices audio_data;
     Ok (map (astype float32) resampled_audio))%res.

(** [_wav_bytes_to_numpy] from the opened file on.  The conversion of the
    integers to [float32] and the divisions by a power of two are exact. *)
Definition _wav_bytes_to_numpy (wav_file : WavFile) : res (list Q) :=
  let n_channels := getnchannels wav_file in
  let sample_width := getsampwidth wav_file in
  let sample_rate_ := getframerate wav_file in
  let frames := readframes wav_file in
  (do audio_data <-
     (if (sample_width =? 2)%Z
      then do ints <- frombuffer_int16 frames;
           Ok (map (fun v => (inject_Z v / 32768)%Q) ints)
      else if (sample_width =? 1)%Z
      then Ok (map (fun v => ((inject_Z v - 128) / 128)%Q) (frombuffer_uint8 frames))
      else Err (ValueError_sample_width sample_width));
   do audio_data <-
     (if (n_channels =? 2)%Z then stereo_to_mono audio_data else Ok audio_data);
   if (sample_rate_ =? sample_rate context)%Z then Ok audio_data
   else _resample_audio audio_data sample_rate_ (sample_rate context))%res.

End Engine.

End HuiHui.

(** ** FlorenceEngine: choosing the score *)

Module EngineSelect.
Import FlorenceEngine.

(** The score that [select_and_process] takes in debug mode. *)
Definition debug_score_file : string := ".//input//雪绒花.musicxml".

Section Select.

Context {Song : Type}.
Variable track_count : Song -> nat.
Variable path_exists : string -> bool.
(** [selectScoreFile] of [Objects/Selector.py], which is not among the
    sources: the chosen path, or nothing when the user cancels. *)
Variable selectScoreFile : string -> option string.
Variable self : Engine Song.

(** The events of [process_score], the call of the selector and the two
    lines that [select_and_process] prints. *)
Inductive select_event : Type :=
  | OfRun (e : event Song)
  | CallSelector (directory : string)
  | PrintCancelled
  | PrintSelected (score_file : string).

Definition select_and_process : list select_event * result (option string) :=
  let chosen :=
    if isDebug Song self then ([], Some debug_score_file)
    else ([CallSelector (input_dir Song self)], selectScoreFile (input_dir Song self)) in
  match chosen with
  | (t, None) | (t, Some EmptyString) => (t ++ [PrintCancelled], OK None)
  | (t, Some score_file) =>
      let (t', r) := process_score track_count path_exists self score_file in
      (t ++ PrintSelected score_file :: map OfRun t',
       match r with
       | OK output_path => OK (Some output_path)
       | Raise e => Raise e
       end)
  end.

End Select.

End EngineSelect.

(** ** Vocabulary and sample inputs for the rest of the engine *)

Module Vocabulary2.
Import ScoreDecoding.

(** The [Note] events of a part, in order, the others dropped. *)
Fixpoint notes_of (events : list Event) : list (Event * Note_) :=
  match events with
  | [] => []
  | event :: rest =>
      match element event with
      | ENote el => (event, el) :: notes_of rest
      | EOther => notes_of rest
      end
  end.

(** [not element.lyric] *)
Definition lyric_missing (el : Note_) : Prop :=
  lyric el = None ∨ lyric el = Some EmptyString.

(** The word that the decoder makes of a note event, [convert] being the
    conversion of the lyric. *)
Definition made_of (convert : string → string) (w : Word) (p : Event * Note_) : Prop :=
  ∃ text, lyric (snd p) = Some text ∧ text ≠ EmptyString ∧
          w = mkWord (Some (frequency (snd p)))
                     (mkTime (offsetSeconds (fst p))
                             (offsetSeconds (fst p) + durationSeconds (fst p))%Q)
                     (convert text) None None.

(** The word [w] is what the decoder made of the note event [p], whatever
    its end time has become. *)
Definition decoded_as (convert : string → string) (w : Word) (p : Event * Note_) : Prop :=
  ∃ text, lyric (snd p) = Some text ∧
          w = mkWord (Some (frequency (snd p)))
                     (mkTime (offsetSeconds (fst p)) (end_ (time w)))
                     (convert text) None None.

(** The [Note] events of the parts, part after part. *)
Definition notes_of_parts (parts : list Part) : list (Event * Note_) :=
  concat (map (fun part => notes_of (secondsMap part)) parts).

(** A part that the decoder takes: it has a note, every note has a lyric,
    and no note ends more than the tolerance after the next one begins. *)
Definition singable (part : Part) : Prop :=
  notes_of (secondsMap part) ≠ [] ∧
  Forall (fun p => ¬ lyric_missing (snd p)) (notes_of (secondsMap part)) ∧
  (∀ j ev1 el1 ev2 el2,
     notes_of (secondsMap part) !! j = Some (ev1, el1) →
     notes_of (secondsMap part) !! S j = Some (ev2, el2) →
     (offsetSeconds ev1 + durationSeconds ev1 - offsetSeconds ev2
      <= FlorenceScoreDecoder.TIME_TOLERANCE)%Q).

(** The words of a track and of a song, section after section. *)
Definition words_of_track (track : Track) : list ref :=
  concat (map wordList (sectionList track)).

Definition words_of_tracks (tracks : list Track) : list ref :=
  concat (map words_of_track tracks).

Definition words_of_song (song : Song) : list ref := words_of_tracks (trackList song).

(** The engine returned a wave for the lyric of [w], which is now the
    [oriWave] of [w']; nothing else differs. *)
Definition spoken (tts_engine : SpeakGenerateor.TTSEngine) (w w' : Word) : Prop :=
  ∃ wave, SpeakGenerateor.generate_single_word_speech tts_engine (lrc w) = Ok wave ∧
          w' = SpeakGenerateor.set_oriWave w wave.

(** A sample in [-1, 1). *)
Definition unit_range (x : Q) : Prop := (-1 <= x)%Q ∧ (x < 1)%Q.

(** The number of interleaved samples per frame that
    [_wav_bytes_to_numpy] folds into one: two for stereo, else one. *)
Definition samples_per_frame (n_channels : Z) : nat :=
  if (n_channels =? 2)%Z then 2 else 1.

(** A signed 16-bit sample as two bytes, the low byte first, in two's
    complement; and a list of them as the frames of a WAV file. *)
Definition byte_of (v : Z) : Byte.byte :=
  match Byte.of_N (Z.to_N v) with Some b => b | None => Byte.x00 end.

Definition int16_le (v : Z) : list Byte.byte :=
  [byte_of (v mod 256); byte_of ((v / 256) mod 256)].

Definition pcm16 (samples : list Z) : list Byte.byte := concat (map int16_le samples).

(** [v] lies between two samples of [audio]. *)
Definition between_samples (audio : list Q) (v : Q) : Prop :=
  ∃ lo hi, lo ∈ audio ∧ hi ∈ audio ∧ (lo <= v)%Q ∧ (v <= hi)%Q.

(** The sample of a wave at an index, 0 outside the wave. *)
Definition sample (l : list Q) (j : nat) : Q :=
  match l !! j with Some x => x | None => 0%Q end.

(** What a word adds to sample [j] of the canvas of its section: the
    sample of its enveloped source wave that falls on [j], the wave being
    placed at the offset of the word. *)
Definition placed (context : Context) (base_time : Q) (word : Word) (j : nat) : Q :=
  match FlorenceWaveConnecter.source_wave word with
  | None => 0%Q
  | Some source =>
      match FlorenceWaveConnecter._apply_declick_envelope context source with
      | OK processed =>
          let off := Z.to_nat (FlorenceWaveConnecter.start_idx context base_time word) in
          if decide (off ≤ j) then sample processed (j - off) else 0%Q
      | Raise _ => 0%Q
      end
  end.

(** The sum of what the words add to sample [j]. *)
Definition overlap_add (context : Context) (h : heap) (base_time : Q)
    (words : list ref) (j : nat) : Q :=
  foldr (fun r acc => (placed context base_time (h r) j + acc)%Q) 0%Q words.

(** A gain between 0 and 1 takes [x] to [y]. *)
Definition attenuated (x y : Q) : Prop :=
  ∃ f, (0 <= f)%Q ∧ (f <= 1)%Q ∧ (y == x * f)%Q.

(** Reading the attribute of the engine and calling the method on it. *)
Definition attempt {A B : Type} (attribute : string) (module : option (A → result B))
    (arg : A) : result B :=
  match module with
  | None => Raise (AttributeError attribute)
  | Some method => method arg
  end.

(** No byte of the text satisfies [p]. *)
Definition free_of (p : ascii → bool) (text : string) : Prop :=
  PyStr.string_forall (fun c => negb (p c)) text = true.

End Vocabulary2.

Module Samples2.
Import ScoreDecoding.

Definition note_event (text : option string) (freq off dur : Q) : Event :=
  mkEvent (ENote (mkNote text freq off)) off dur.

(** A rest, then the notes "La" on [0, 1/2] and "so" on [1/2, 1]. *)
Definition two_note_part : Part :=
  mkPart "P1" [mkEvent EOther 0 0; note_event (Some "La"%string) 440 0 (1 # 2);
               note_event (Some "so"%string) 392 (1 # 2) (1 # 2)].

Definition empty_heap : heap := fun _ => mkWord None (mkTime 0 0) EmptyString None None.

(** A part whose second note has no lyric. *)
Definition unsung_part : Part :=
  mkPart "P2" [note_event (Some "La"%string) 440 0 (1 # 2);
               note_event None 392 (1 # 2) (1 # 2)].

(** A song of one track with the sections [0; 1] and [2]. *)
Definition demo_song : Song :=
  mkSong [mkTrack [mkSection [0; 1] 0 None; mkSection [2] (3 # 2) None]] "demo".

(** An engine that has a wave for "la" only. *)
Definition la_engine : SpeakGenerateor.TTSEngine :=
  SpeakGenerateor.mkTTSEngine
    (fun text => if String.eqb text "la" then Ok [1 # 2; 1 # 4]%Q
                 else Err (EngineError "no voice")).

(** Two engine classes; the constructor of the first one fails. *)
Definition demo_classes : list SpeakGenerateor.EngineClass :=
  [SpeakGenerateor.mkEngineClass "WindowsHuiHuiSpeakGenerateor"
     (fun _ => Err (EngineError "no HuiHui voice"));
   SpeakGenerateor.mkEngineClass "EspeakGenerator" (fun _ => Ok la_engine)].

(** A mono 16-bit file at 22050 Hz with the samples -32768 and 32767. *)
Definition demo_wav : HuiHui.WavFile :=
  HuiHui.mkWavFile 1 2 22050 [Byte.x00; Byte.x80; Byte.xff; Byte.x7f].

(** An engine built as [__init__] builds it, not in debug mode. *)
Definition plain_engine : FlorenceEngine.Engine nat :=
  FlorenceEngine.__init__ "output" "input" 22050 false
    (fun _ => OK 1) (fun s => OK (S s)).

(** A section whose only word ends a second before it begins. *)
Definition backward_heap : heap := fun _ =>
  mkWord (Some 220%Q) (mkTime 2 1) "la" (Some [1; 1]%Q) None.

(** A part of rests. *)
Definition silent_part : Part := mkPart "P3" [mkEvent EOther 0 1; mkEvent EOther 1 1].

(** A part whose first note, on [0, 1], is still sounding when the second
    begins at 1/2. *)
Definition overlapping_part : Part :=
  mkPart "P4" [note_event (Some "La"%string) 440 0 1;
               note_event (Some "so"%string) 392 (1 # 2) (1 # 2)].

End Samples2.

(** * Vocabulary of the properties *)

Module Vocabulary.
Import FlorenceScoreDecoder FlorenceWaveConnecter.

Abbreviation st h r := (start (time (h r))).
Abbreviation en h r := (end_ (time (h r))).

(** [l] holds [a] and [b] at two consecutive positions. *)
Definition adjacent (l : list ref) (a b : ref) : Prop :=
  ∃ k, l !! k = Some a ∧ l !! S k = Some b.

(** The two heaps agree except on end times. *)
Definition only_ends_differ (h h' : heap) : Prop :=
  ∀ r, h' r = set_time_end (h r) (en h' r).

(** Every pair of neighbours of [l] is continuous: the gap between them is
    at most the tolerance. *)
Definition continuous (h : heap) (l : list ref) : Prop :=
  ∀ a b, adjacent l a b → (st h b - en h a <= TIME_TOLERANCE)%Q.

(** What the sections [new] and the final heap [h'] are to the words
    [words] and the heap [h] they were made from. *)
Record segmented (h h' : heap) (words : list ref) (new : list Section_) : Prop := {
  seg_concat : concat (map wordList new) = words;
  seg_nonempty : Forall (fun l => l ≠ []) (map wordList new);
  seg_frame : only_ends_differ h h';
  seg_outside : ∀ r, r ∉ words → h' r = h r;
  seg_normal : ∀ s a b, s ∈ new → adjacent (wordList s) a b → en h' a = st h b;
  seg_continuous : ∀ s, s ∈ new → continuous h (wordList s);
  seg_no_overlap : ∀ s a b, s ∈ new → adjacent (wordList s) a b →
                   (en h a - st h b <= TIME_TOLERANCE)%Q;
  seg_last : ∀ s l, s ∈ new → last (wordList s) = Some l → h' l = h l;
  seg_boundary : ∀ j p q a b, new !! j = Some p → new !! S j = Some q →
                 last (wordList p) = Some a → head (wordList q) = Some b →
                 (TIME_TOLERANCE < st h b - en h a)%Q
}.

(** Two words are in the same phrase when one produced section lists both. *)
Definition same_phrase (secs : list Section_) (a b : ref) : Prop :=
  ∃ s, s ∈ secs ∧ a ∈ wordList s ∧ b ∈ wordList s.

(** The canvas [grown] after [w] was added into it from sample [off] on. *)
Definition mixed (grown : list Q) (off : nat) (w : list Q) : list Q :=
  take off grown ++ zip_with Qplus (take (length w) (drop off grown)) w
  ++ drop (off + length w) grown.

(** [round] as the specification writes it: the nearest integer, a tie
    going to the even one as Python's [round] has it. *)
Definition py_round (x : Q) : Z :=
  let f := Qfloor x in
  match ((x - inject_Z f) ?= (1 # 2))%Q with
  | Lt => f
  | Gt => (f + 1)%Z
  | Eq => if Z.even f then f else (f + 1)%Z
  end.

(** The error names the position in the input of a pair that overlaps,
    with the two times of that pair. *)
Definition names_input_pair (h : heap) (words : list ref) (e : exn) : Prop :=
  ∃ i a b, words !! i = Some a ∧ words !! S i = Some b ∧
           (TIME_TOLERANCE < en h a - st h b)%Q ∧
           e = ValueError_overlap i (en h a) (st h b).

(** The product [(word.time.start - base_time) * sample_rate] as the code
    computes it, in double precision. *)
Definition offset_product (context : Context) (base_time : Q) (word : Word) : Q :=
  binary64 (binary64 (start (time word) - base_time)
            * binary64 (inject_Z (sample_rate context))).

(** The product [(end_time - base_time + 0.5) * sample_rate] as the code
    computes it, in double precision. *)
Definition canvas_product (context : Context) (base_time end_time : Q) : Q :=
  binary64 (binary64 (binary64 (end_time - base_time) + (1 # 2))
            * binary64 (inject_Z (sample_rate context))).

(** The offset of a word as the specification states it. *)
Definition offset_is_rounded (context : Context) (base_time : Q) (word : Word) : Prop :=
  start_idx context base_time word =
  py_round ((start (time word) - base_time) * inject_Z (sample_rate context)).

(** A run of [process_score] that went through the five stages in order,
    each fed the result of the one before, and returned the output path. *)
Definition five_stage_run {Song : Type} (track_count : Song → nat)
    (path_exists : string → bool) (self : FlorenceEngine.Engine Song)
    (score_path : string) : Prop :=
  ∃ t s1 s2 s3 s4 output_path,
    FlorenceEngine.process_score track_count path_exists self score_path
      = (t, OK output_path) ∧
    FlorenceEngine.calls t =
      [FlorenceEngine.CallDecode score_path; FlorenceEngine.CallSpeech s1;
       FlorenceEngine.CallPitch s2; FlorenceEngine.CallConnect s3;
       FlorenceEngine.CallOutput s4].

End Vocabulary.

(** * Sample inputs *)

Module Samples.
Import FlorenceCoder FlorenceEngine.

(** Three notes [0, 1/2], [1/2 + 1/10^13, 1] and [3/2, 2]: the first two
    are continuous up to a gap below the tolerance, the third starts a new
    phrase. *)
Definition demo_word (s e : Q) : Word := mkWord (Some 220%Q) (mkTime s e) "la" None None.

Definition demo_heap : heap := fun r =>
  match r with
  | 0 => demo_word 0 (1 # 2)
  | 1 => demo_word ((1 # 2) + (1 # 10000000000000)) 1
  | _ => demo_word (3 # 2) 2
  end.

(** Two notes [0, 1/2] and [2/5, 9/10] that overlap by a tenth of a second,
    after a first phrase [-1, -3/4]. *)
Definition overlap_heap : heap := fun r =>
  match r with
  | 0 => demo_word (-1) (-3 # 4)
  | 1 => demo_word 0 (1 # 2)
  | _ => demo_word (2 # 5) (9 # 10)
  end.

(** A vocoder that reports the contour [100; 0; 120], resynthesizes a wave of
    two samples, and never fails. *)
Definition demo_world : World unit unit :=
  mkWorld
    (fun _ _ _ => OK ([100; 0; 120], [0; 5 # 1000; 10 # 1000])%Q)
    (fun _ f0 _ _ => OK f0)
    (fun _ _ _ _ => OK tt)
    (fun _ _ _ _ => OK tt)
    (fun _ _ _ _ _ => OK [7 # 10; 8 # 10]%Q).

Definition demo_context : Context := mkContext 22050 true.

Definition demo_note : Word :=
  mkWord (Some 220%Q) (mkTime 0 (1 # 2)) "la"
         (Some [1 # 10; 2 # 10; 3 # 10; 4 # 10]%Q) None.

Definition context_1000 : Context := mkContext 1000 true.

(** A note that starts 27/64 s into its phrase and carries a wave of one
    sample. *)
Definition late_note : Word :=
  mkWord None (mkTime (27 # 64) 1) "b" (Some [1%Q]) None.

(** A phrase of a silent note [0, 27/64] and [late_note]. *)
Definition late_heap : heap := fun r =>
  match r with
  | 0 => mkWord None (mkTime 0 (27 # 64)) "a" None None
  | _ => late_note
  end.

Definition late_section : Section_ := mkSection [0; 1] 0 None.

(** A phrase of two notes [0, 1/2] and [1/2, 1] with short waves. *)
Definition phrase_heap : heap := fun r =>
  match r with
  | 0 => mkWord (Some 220%Q) (mkTime 0 (1 # 2)) "la" (Some [1; 1; 1]%Q) None
  | _ => mkWord (Some 220%Q) (mkTime (1 # 2) 1) "la" (Some [1; 1]%Q) (Some [2; 2; 2; 2]%Q)
  end.

Definition phrase_section : Section_ := mkSection [0; 1] 0 None.

(** Stand-ins for the stage modules: a song is a number that each stage
    increments; the speech engine of [mute_engine] fails. *)
Definition full_engine : Engine nat :=
  mkEngine "output" "input" 22050 true
    (Some (fun _ => OK 1)) (Some (fun s => OK (S s))) (Some (fun s => OK (S s)))
    (Some (fun s => OK (S s))) (Some (fun _ => OK "output/song.wav"%string)).

Definition mute_engine : Engine nat :=
  __init__ "output" "input" 22050 true
    (fun _ => OK 1) (fun _ => Raise (ExternalError "speech file was not written")).

(** Two notes [0, 1/2] and [a, b]. *)
Definition two_notes (a b : Q) : heap := fun r =>
  match r with
  | 0 => mkWord (Some 220%Q) (mkTime 0 (1 # 2)) "la" (Some [1; 1; 1]%Q) None
  | _ => mkWord (Some 220%Q) (mkTime a b) "la" (Some [1; 1]%Q) None
  end.

End Samples.

(** * Properties *)

(** ** Generic facts about lists of lists *)

Module ListFacts.

Section Adjacent.
Context {A : Type}.
Implicit Types (l p q : list A) (ls : list (list A)).

Lemma elem_of_concat ls x : x ∈ concat ls ↔ ∃ l, l ∈ ls ∧ x ∈ l.
Proof.
  induction ls as [|l ls IH]; simpl.
  - split; [by intros ?%elem_of_nil|by intros (? & ?%elem_of_nil & _)].
  - rewrite elem_of_app, IH. split.
    + intros [Hx|(l' & Hl' & Hx)]; [exists l | exists l']; split; try done.
      * by left.
      * by right.
    + intros (l' & Hl' & Hx). apply elem_of_cons in Hl' as [->|Hl']; eauto.
Qed.

(** Two neighbours of a concatenation are neighbours inside one of the
    pieces, or the last element of a piece and the first of the next. *)
Lemma adjacent_concat ls i a b :
  Forall (fun l => l ≠ []) ls →
  concat ls !! i = Some a → concat ls !! S i = Some b →
  (∃ l k, l ∈ ls ∧ l !! k = Some a ∧ l !! S k = Some b) ∨
  (∃ j p q, ls !! j = Some p ∧ ls !! S j = Some q ∧
            last p = Some a ∧ head q = Some b).
Proof.
  intros Hne. revert i. induction Hne as [|l ls Hl Hne IH]; intros i Ha Hb.
  - simpl in Ha. by rewrite lookup_nil in Ha.
  - simpl in Ha, Hb.
    destruct (decide (S i < length l)) as [Hlt|Hge].
    + left. exists l, i. split; [by left|].
      rewrite lookup_app_l in Ha by lia. by rewrite lookup_app_l in Hb by lia.
    + destruct (decide (length l ≤ i)) as [Hle|Hnle].
      * rewrite lookup_app_r in Ha by lia. rewrite lookup_app_r in Hb by lia.
        replace (S i - length l) with (S (i - length l)) in Hb by lia.
        destruct (IH _ Ha Hb) as [(l' & k & Hin & Hk1 & Hk2)|(j & p & q & Hp & Hq & Hlast & Hhd)].
        -- left. exists l', k. split; [by right|done].
        -- right. exists (S j), p, q. done.
      * right. assert (S i = length l) as Hi by lia.
        rewrite lookup_app_l in Ha by lia.
        rewrite lookup_app_r in Hb by lia.
        replace (S i - length l) with 0 in Hb by lia.
        destruct ls as [|q ls]; [done|].
        exists 0, l, q. split; [done|]. split; [done|]. split.
        -- rewrite last_lookup. by replace (pred (length l)) with i by lia.
        -- inversion Hne as [|? ? Hq _]; subst. destruct q as [|x q]; [done|].
           simpl in Hb. by inversion Hb.
Qed.

(** In a concatenation without duplicates an element lies in one piece. *)
Lemma NoDup_concat_piece ls j1 j2 l1 l2 x :
  NoDup (concat ls) →
  ls !! j1 = Some l1 → ls !! j2 = Some l2 → x ∈ l1 → x ∈ l2 → j1 = j2.
Proof.
  revert j1 j2. induction ls as [|l ls IH]; intros j1 j2 Hnd H1 H2 Hx1 Hx2.
  - by rewrite lookup_nil in H1.
  - simpl in Hnd. apply NoDup_app in Hnd as (Hl & Hdisj & Hrest).
    assert (∀ j l', ls !! j = Some l' → x ∈ l' → x ∈ concat ls) as Hin.
    { intros j l' Hj Hx. apply elem_of_concat. exists l'. split; [|done].
      by eapply list_elem_of_lookup_2. }
    destruct j1 as [|j1], j2 as [|j2]; simpl in *; simplify_eq; try done.
    + exfalso. eapply Hdisj; eauto.
    + exfalso. eapply Hdisj; eauto.
    + f_equal. eauto.
Qed.

End Adjacent.

End ListFacts.

(** ** The segmenter *)

Module SegmenterProps.
Import FlorenceScoreDecoder ListFacts Vocabulary Samples.

#[local] Arguments _normalnize_time : simpl never.
#[local] Arguments check_overlap_from : simpl never.

Lemma set_time_end_id w : set_time_end w (end_ (time w)) = w.
Proof. by destruct w as [? [] ? ? ?]. Qed.

Lemma only_ends_differ_refl h : only_ends_differ h h.
Proof. intros r. by rewrite set_time_end_id. Qed.

Lemma only_ends_differ_trans h1 h2 h3 :
  only_ends_differ h1 h2 → only_ends_differ h2 h3 → only_ends_differ h1 h3.
Proof.
  intros H12 H23 r. rewrite (H23 r) at 1. rewrite (H12 r) at 1. done.
Qed.

Lemma only_ends_differ_start h h' r : only_ends_differ h h' → st h' r = st h r.
Proof. intros H. by rewrite (H r). Qed.

Lemma adjacent_cons_cons x y l a b :
  adjacent (x :: y :: l) a b ↔ (a = x ∧ b = y) ∨ adjacent (y :: l) a b.
Proof.
  split.
  - intros [[|k] [Ha Hb]]; simpl in *; simplify_eq; [by left|right; by exists k].
  - intros [[-> ->]|[k [Ha Hb]]]; [by exists 0|by exists (S k)].
Qed.

Lemma adjacent_single x a b : ¬ adjacent [x] a b.
Proof. by intros [[|k] [Ha Hb]]. Qed.

Lemma adjacent_nil a b : ¬ adjacent [] a b.
Proof. by intros [k [Ha Hb]]. Qed.

Lemma adjacent_elem_of l a b : adjacent l a b → a ∈ l ∧ b ∈ l.
Proof. intros [k [Ha Hb]]. split; by eapply list_elem_of_lookup_2. Qed.

Lemma adjacent_snoc l x a b :
  adjacent (l ++ [x]) a b ↔ adjacent l a b ∨ (last l = Some a ∧ b = x).
Proof.
  split.
  - intros [k [Ha Hb]].
    destruct (decide (S k < length l)).
    + left. exists k. rewrite lookup_app_l in Ha by lia.
      by rewrite lookup_app_l in Hb by lia.
    + right. apply lookup_lt_Some in Hb as Hlen. rewrite length_app in Hlen.
      simpl in Hlen. assert (S k = length l) as Hk by lia.
      rewrite lookup_app_l in Ha by lia. rewrite lookup_app_r in Hb by lia.
      replace (S k - length l) with 0 in Hb by lia. simpl in Hb.
      split; [|congruence]. rewrite last_lookup.
      by replace (pred (length l)) with k by lia.
  - intros [[k [Ha Hb]]|[Hl ->]].
    + exists k. split; by apply lookup_app_l_Some.
    + rewrite last_lookup in Hl. apply lookup_lt_Some in Hl as Hlen.
      exists (pred (length l)). split; [by apply lookup_app_l_Some|].
      rewrite lookup_app_r by lia.
      by replace (S (pred (length l)) - length l) with 0 by lia.
Qed.

(** *** [_check_overlap] *)

Lemma check_overlap_unfold h words :
  _check_overlap h words = check_overlap_from h 0 words.
Proof. by destruct words as [|? [|? ?]]. Qed.

Lemma check_overlap_from_cons h i x y l :
  check_overlap_from h i (x :: y :: l) =
  if Qlt_le_dec TIME_TOLERANCE (en h x - st h y)
  then Raise (ValueError_overlap i (en h x) (st h y))
  else check_overlap_from h (S i) (y :: l).
Proof. reflexivity. Qed.

Lemma check_overlap_from_OK h i words :
  check_overlap_from h i words = OK tt ↔
  ∀ a b, adjacent words a b → (en h a - st h b <= TIME_TOLERANCE)%Q.
Proof.
  revert i. induction words as [|x [|y l] IH]; intros i.
  - split; [|done]. intros _ a b []%adjacent_nil.
  - split; [|done]. intros _ a b []%adjacent_single.
  - rewrite check_overlap_from_cons. destruct (Qlt_le_dec _ _) as [Hlt|Hle].
    + split; [done|]. intros H. exfalso.
      specialize (H x y (ex_intro _ 0 (conj eq_refl eq_refl))). lra.
    + rewrite IH. split.
      * intros H a b [[-> ->]|Hab]%adjacent_cons_cons; auto.
      * intros H a b Hab. apply H, adjacent_cons_cons. auto.
Qed.

Lemma check_overlap_from_Raise h i words e :
  check_overlap_from h i words = Raise e →
  ∃ k a b, words !! k = Some a ∧ words !! S k = Some b ∧
           (TIME_TOLERANCE < en h a - st h b)%Q ∧
           e = ValueError_overlap (i + k) (en h a) (st h b) ∧
           ∀ j a' b', j < k → words !! j = Some a' → words !! S j = Some b' →
                      (en h a' - st h b' <= TIME_TOLERANCE)%Q.
Proof.
  revert i. induction words as [|x [|y l] IH]; intros i; try done.
  rewrite check_overlap_from_cons. destruct (Qlt_le_dec _ _) as [Hlt|Hle].
  - intros [= <-]. exists 0, x, y. rewrite Nat.add_0_r.
    repeat split; try done. intros j a' b' Hj. lia.
  - intros (k & a & b & Ha & Hb & Hlt & -> & Hfirst)%IH.
    exists (S k), a, b. repeat split; try done; [f_equal; lia|].
    intros [|j] a' b' Hj Ha' Hb'.
    + simpl in Ha', Hb'. by simplify_eq.
    + apply (Hfirst j a' b'); [lia|done|done].
Qed.

(** *** [_normalnize_time] *)

Lemma normalnize_time_cons h x y l :
  _normalnize_time h (x :: y :: l) =
  _normalnize_time (<[x := set_time_end (h x) (st h y)]> h) (y :: l).
Proof. reflexivity. Qed.

Lemma normalnize_time_frame h words : only_ends_differ h (_normalnize_time h words).
Proof.
  revert h. induction words as [|x [|y l] IH]; intros h;
    try apply only_ends_differ_refl.
  rewrite normalnize_time_cons. eapply only_ends_differ_trans; [|apply IH].
  intros r. destruct (decide (x = r)) as [->|Hne].
  - by rewrite fn_lookup_insert.
  - rewrite fn_lookup_insert_ne by done. by rewrite set_time_end_id.
Qed.

(** Only the words that have a successor in the list are written. *)
Lemma normalnize_time_other h words r :
  (∀ b, ¬ adjacent words r b) → _normalnize_time h words r = h r.
Proof.
  revert h. induction words as [|x [|y l] IH]; intros h Hr; try done.
  rewrite normalnize_time_cons. rewrite IH.
  - apply fn_lookup_insert_ne. intros ->. apply (Hr y). by exists 0.
  - intros b Hb. apply (Hr b), adjacent_cons_cons. auto.
Qed.

Lemma normalnize_time_not_elem h words r :
  r ∉ words → _normalnize_time h words r = h r.
Proof.
  intros Hr. apply normalnize_time_other. intros b [Hin _]%adjacent_elem_of. done.
Qed.

Lemma NoDup_adjacent_head x l b : NoDup (x :: l) → ¬ adjacent l x b.
Proof. intros [Hx _]%NoDup_cons [Hin _]%adjacent_elem_of. done. Qed.

Lemma normalnize_time_adjacent h words a b :
  NoDup words → adjacent words a b →
  en (_normalnize_time h words) a = st h b.
Proof.
  revert h. induction words as [|x [|y l] IH]; intros h Hnd Hab.
  - by apply adjacent_nil in Hab.
  - by apply adjacent_single in Hab.
  - rewrite normalnize_time_cons. apply NoDup_cons in Hnd as Hnd'. destruct Hnd' as [Hx Hnd'].
    apply adjacent_cons_cons in Hab as [[-> ->]|Hab].
    + rewrite normalnize_time_not_elem by done. by rewrite fn_lookup_insert.
    + rewrite IH by done.
      destruct (decide (x = b)) as [->|Hne].
      * by rewrite fn_lookup_insert.
      * by rewrite fn_lookup_insert_ne.
Qed.

Lemma NoDup_last_no_successor (l : list ref) x b :
  NoDup l → last l = Some x → ¬ adjacent l x b.
Proof.
  intros Hnd Hlast [k [Ha Hb]]. rewrite last_lookup in Hlast.
  apply lookup_lt_Some in Hb.
  assert (k = pred (length l)) by (eapply NoDup_lookup; eauto). lia.
Qed.

Lemma normalnize_time_last h words l :
  NoDup words → last words = Some l → _normalnize_time h words l = h l.
Proof.
  intros Hnd Hl. apply normalnize_time_other. intros b.
  by apply NoDup_last_no_successor.
Qed.

(** *** [_create_validated_section] *)

Lemma create_validated_section_OK h word_list s h' :
  _create_validated_section h word_list = OK (s, h') →
  word_list ≠ [] ∧ wordList s = word_list ∧ sectionSrc s = None ∧
  h' = _normalnize_time h word_list ∧
  ∀ a b, adjacent word_list a b → (en h a - st h b <= TIME_TOLERANCE)%Q.
Proof.
  unfold _create_validated_section. rewrite check_overlap_unfold.
  destruct (check_overlap_from h 0 word_list) as [[]|e] eqn:Hchk; [|done].
  simpl. destruct word_list as [|w0 l]; [done|]. intros [= <- <-].
  repeat split; try done. by apply (check_overlap_from_OK h 0).
Qed.

Lemma create_validated_section_Raise h word_list e :
  word_list ≠ [] →
  _create_validated_section h word_list = Raise e →
  ∃ i a b, word_list !! i = Some a ∧ word_list !! S i = Some b ∧
           (TIME_TOLERANCE < en h a - st h b)%Q ∧
           e = ValueError_overlap i (en h a) (st h b) ∧
           ∀ j a' b', j < i → word_list !! j = Some a' → word_list !! S j = Some b' →
                      (en h a' - st h b' <= TIME_TOLERANCE)%Q.
Proof.
  intros Hne. unfold _create_validated_section. rewrite check_overlap_unfold.
  destruct (check_overlap_from h 0 word_list) as [[]|e'] eqn:Hchk; simpl.
  - by destruct word_list.
  - intros [= <-]. by apply check_overlap_from_Raise in Hchk.
Qed.

(** *** The grouping loop *)

Lemma segmented_elem_of h h' words new s x :
  segmented h h' words new → s ∈ new → x ∈ wordList s → x ∈ words.
Proof.
  intros Hseg Hs Hx. rewrite <- (seg_concat _ _ _ _ Hseg).
  apply elem_of_concat. exists (wordList s). split; [|done].
  apply list_elem_of_fmap. by exists s.
Qed.

Lemma segmented_head h h' words new q b :
  segmented h h' words new → new !! 0 = Some q → head (wordList q) = Some b →
  head words = Some b.
Proof.
  intros Hseg Hq Hb. rewrite <- (seg_concat _ _ _ _ Hseg).
  destruct new as [|q' new]; simplify_eq/=.
  destruct (wordList q); by simplify_eq/=.
Qed.

Lemma segmented_single h word_list s :
  NoDup word_list → continuous h word_list →
  _create_validated_section h word_list = OK (s, _normalnize_time h word_list) →
  segmented h (_normalnize_time h word_list) word_list [s].
Proof.
  intros Hnd Hcont (Hne & Hs & _ & _ & Hov)%create_validated_section_OK.
  split.
  - simpl. by rewrite Hs, app_nil_r.
  - repeat constructor. by rewrite Hs.
  - apply normalnize_time_frame.
  - intros r Hr. by apply normalnize_time_not_elem.
  - intros s' a b ->%list_elem_of_singleton Hab. rewrite Hs in Hab.
    by apply normalnize_time_adjacent.
  - intros s' ->%list_elem_of_singleton. by rewrite Hs.
  - intros s' a b ->%list_elem_of_singleton Hab. rewrite Hs in Hab. auto.
  - intros s' l ->%list_elem_of_singleton Hl. rewrite Hs in Hl.
    by apply normalnize_time_last.
  - intros [|j] p q a b Hp Hq; simplify_eq/=.
Qed.

Lemma segmented_cons h h' batch words s new :
  NoDup (batch ++ words) → continuous h batch →
  _create_validated_section h batch = OK (s, _normalnize_time h batch) →
  segmented (_normalnize_time h batch) h' words new →
  (∀ a b, last batch = Some a → head words = Some b →
          (TIME_TOLERANCE < st h b - en h a)%Q) →
  segmented h h' (batch ++ words) (s :: new).
Proof.
  intros (Hndb & Hdisj & Hndw)%NoDup_app Hcont
    (Hne & Hs & _ & _ & Hov)%create_validated_section_OK Hseg Hgap.
  set (h1 := _normalnize_time h batch) in *.
  assert (∀ r, r ∈ words → h1 r = h r) as Hsame.
  { intros r Hr. apply normalnize_time_not_elem. intros Hb. by eapply Hdisj. }
  assert (∀ r, r ∈ batch → h' r = h1 r) as Hkeep.
  { intros r Hr. apply (seg_outside _ _ _ _ Hseg). by apply Hdisj. }
  assert (∀ s' x, s' ∈ new → x ∈ wordList s' → h1 x = h x) as Hin.
  { intros s' x Hs' Hx. eapply Hsame, segmented_elem_of; eauto. }
  split.
  - simpl. by rewrite Hs, (seg_concat _ _ _ _ Hseg).
  - simpl. constructor; [by rewrite Hs|]. apply (seg_nonempty _ _ _ _ Hseg).
  - eapply only_ends_differ_trans; [apply normalnize_time_frame|].
    apply (seg_frame _ _ _ _ Hseg).
  - intros r [Hrb Hrw]%not_elem_of_app.
    rewrite (seg_outside _ _ _ _ Hseg) by done. by apply normalnize_time_not_elem.
  - intros s' a b [->|Hs']%elem_of_cons Hab.
    + rewrite Hs in Hab. rewrite Hkeep by (by apply adjacent_elem_of in Hab as []).
      by apply normalnize_time_adjacent.
    + rewrite (seg_normal _ _ _ _ Hseg s' a b) by done.
      apply only_ends_differ_start, normalnize_time_frame.
  - intros s' [->|Hs']%elem_of_cons; [by rewrite Hs|]. intros a b Hab.
    apply adjacent_elem_of in Hab as Hel. destruct Hel as [Ha Hb].
    rewrite <- (Hin s' a), <- (Hin s' b) by done.
    by apply (seg_continuous _ _ _ _ Hseg s').
  - intros s' a b [->|Hs']%elem_of_cons Hab; [rewrite Hs in Hab; auto|].
    apply adjacent_elem_of in Hab as Hel. destruct Hel as [Ha Hb].
    rewrite <- (Hin s' a), <- (Hin s' b) by done.
    by apply (seg_no_overlap _ _ _ _ Hseg s').
  - intros s' l [->|Hs']%elem_of_cons Hl.
    + rewrite Hs in Hl. rewrite Hkeep by (by apply last_Some_elem_of).
      by apply normalnize_time_last.
    + rewrite (seg_last _ _ _ _ Hseg s' l) by done.
      eapply Hin; [done|]. by apply last_Some_elem_of.
  - intros [|j] p q a b Hp Hq Ha Hb; simpl in Hp, Hq.
    + injection Hp as <-. rewrite Hs in Ha. apply Hgap; [done|].
      by eapply segmented_head.
    + assert (p ∈ new) by (by eapply list_elem_of_lookup_2).
      assert (q ∈ new) by (by eapply list_elem_of_lookup_2).
      rewrite <- (Hin p a), <- (Hin q b); try done.
      * exact (seg_boundary _ _ _ _ Hseg j p q a b Hp Hq Ha Hb).
      * by apply head_Some_elem_of.
      * by apply last_Some_elem_of.
Qed.

Lemma group_loop_cons h sections current_batch current_word rest :
  group_loop h sections current_batch (current_word :: rest) =
  match last current_batch with
  | None => Raise IndexError
  | Some previous_word =>
      if Qlt_le_dec TIME_TOLERANCE (st h current_word - en h previous_word)
      then (do (s, h') <- _create_validated_section h current_batch;
            group_loop h' (sections ++ [s]) [current_word] rest)%result
      else group_loop h sections (current_batch ++ [current_word]) rest
  end.
Proof. reflexivity. Qed.

Lemma continuous_snoc h batch previous_word current_word :
  continuous h batch → last batch = Some previous_word →
  (st h current_word - en h previous_word <= TIME_TOLERANCE)%Q →
  continuous h (batch ++ [current_word]).
Proof.
  intros Hcont Hlast Hle a b [Hab|[Ha ->]]%adjacent_snoc; [by apply Hcont|].
  by simplify_eq.
Qed.

Lemma group_loop_OK rest : ∀ h sections batch res h',
  batch ≠ [] → NoDup (batch ++ rest) → continuous h batch →
  group_loop h sections batch rest = OK (res, h') →
  ∃ new, res = sections ++ new ∧ segmented h h' (batch ++ rest) new.
Proof.
  induction rest as [|cur rest IH]; intros h sections batch res h' Hne Hnd Hcont Hrun.
  - rewrite app_nil_r in *. destruct batch as [|w0 batch]; [done|].
    cbn [group_loop] in Hrun.
    destruct (_create_validated_section h (w0 :: batch)) as [[s h1]|e] eqn:Hc; [|done].
    simpl in Hrun. injection Hrun as <- <-.
    apply create_validated_section_OK in Hc as Hc'. destruct Hc' as (_ & _ & _ & -> & _).
    exists [s]. split; [done|]. by apply segmented_single.
  - rewrite group_loop_cons in Hrun.
    destruct (last batch) as [prev|] eqn:Hlast; [|done].
    destruct (Qlt_le_dec _ _) as [Hgap|Hle].
    + destruct (_create_validated_section h batch) as [[s h1]|e] eqn:Hc; [|done].
      simpl in Hrun.
      apply create_validated_section_OK in Hc as Hc'. destruct Hc' as (_ & _ & _ & -> & _).
      apply NoDup_app in Hnd as Hnd'. destruct Hnd' as (_ & _ & Hndr).
      apply (IH _ _ [cur]) in Hrun as (new & -> & Hseg); [|done|done|].
      * exists (s :: new). split; [by rewrite <- app_assoc|].
        apply segmented_cons; try done.
        intros a b Ha Hb. by simplify_eq/=.
      * intros a b []%adjacent_single.
    + apply IH in Hrun as (new & -> & Hseg).
      * exists new. split; [done|]. by rewrite <- app_assoc in Hseg.
      * by destruct batch.
      * by rewrite <- app_assoc.
      * by eapply continuous_snoc.
Qed.

(** When the loop raises, the offending pair sits at position [i] of the
    phrase that starts at input position [k]: [k] is the start of the input
    or follows a gap, and the pairs of the phrase before [i] are continuous
    and free of overlap. *)
Lemma group_loop_Raise rest : ∀ h sections batch e,
  batch ≠ [] → NoDup (batch ++ rest) → continuous h batch →
  group_loop h sections batch rest = Raise e →
  ∃ k i a b, (batch ++ rest) !! (k + i) = Some a ∧
             (batch ++ rest) !! S (k + i) = Some b ∧
             (TIME_TOLERANCE < en h a - st h b)%Q ∧
             e = ValueError_overlap i (en h a) (st h b) ∧
             (k = 0 ∨
              length batch ≤ k ∧
              ∃ p q, (batch ++ rest) !! (k - 1) = Some p ∧
                     (batch ++ rest) !! k = Some q ∧
                     (TIME_TOLERANCE < st h q - en h p)%Q) ∧
             (∀ j a' b', k ≤ j < k + i →
                (batch ++ rest) !! j = Some a' → (batch ++ rest) !! S j = Some b' →
                (st h b' - en h a' <= TIME_TOLERANCE)%Q ∧
                (en h a' - st h b' <= TIME_TOLERANCE)%Q).
Proof.
  assert (∀ h batch rest e, batch ≠ [] → continuous h batch →
            _create_validated_section h batch = Raise e →
            ∃ k i a b, (batch ++ rest) !! (k + i) = Some a ∧
              (batch ++ rest) !! S (k + i) = Some b ∧
              (TIME_TOLERANCE < en h a - st h b)%Q ∧
              e = ValueError_overlap i (en h a) (st h b) ∧
              (k = 0 ∨
               length batch ≤ k ∧
               ∃ p q, (batch ++ rest) !! (k - 1) = Some p ∧
                      (batch ++ rest) !! k = Some q ∧
                      (TIME_TOLERANCE < st h q - en h p)%Q) ∧
              (∀ j a' b', k ≤ j < k + i →
                 (batch ++ rest) !! j = Some a' → (batch ++ rest) !! S j = Some b' →
                 (st h b' - en h a' <= TIME_TOLERANCE)%Q ∧
                 (en h a' - st h b' <= TIME_TOLERANCE)%Q)) as Hclose.
  { clear rest. intros h batch rest e Hne Hcont Hc.
    apply create_validated_section_Raise in Hc
      as (i & a & b & Ha & Hb & Hlt & -> & Hfirst); [|done].
    apply lookup_lt_Some in Hb as Hlen.
    exists 0, i, a, b. simpl.
    split; [by apply lookup_app_l_Some|]. split; [by apply lookup_app_l_Some|].
    split; [done|]. split; [done|]. split; [by left|].
    intros j a' b' Hj Ha' Hb'.
    rewrite lookup_app_l in Ha' by lia. rewrite lookup_app_l in Hb' by lia.
    split; [apply Hcont; by exists j|]. apply (Hfirst j); [lia|done|done]. }
  induction rest as [|cur rest IH]; intros h sections batch e Hne Hnd Hcont Hrun.
  - destruct batch as [|w0 batch]; [done|]. cbn [group_loop] in Hrun.
    destruct (_create_validated_section h (w0 :: batch)) as [[s h1]|e'] eqn:Hc; [done|].
    simpl in Hrun. injection Hrun as ->. by apply Hclose.
  - rewrite group_loop_cons in Hrun.
    destruct (last batch) as [prev|] eqn:Hlast; [|by apply last_None in Hlast].
    destruct (Qlt_le_dec _ _) as [Hgap|Hle].
    + destruct (_create_validated_section h batch) as [[s h1]|e'] eqn:Hc; simpl in Hrun.
      * apply create_validated_section_OK in Hc as (_ & _ & _ & -> & _).
        apply NoDup_app in Hnd as (_ & Hdisj & Hndr).
        apply (IH _ _ [cur]) in Hrun
          as (k & i & a & b & Ha & Hb & Hlt & -> & Hstart & Hrun_ok);
          [|done|done|by intros ? ? []%adjacent_single].
        assert (∀ x r, (cur :: rest) !! x = Some r →
                       _normalnize_time h batch r = h r) as Hsame.
        { intros x r Hr. apply normalnize_time_not_elem. intros Hin.
          eapply Hdisj; [done|]. by eapply list_elem_of_lookup_2. }
        assert (∀ x, (batch ++ cur :: rest) !! (length batch + x)
                     = (cur :: rest) !! x) as Hshift.
        { intros x. rewrite lookup_app_r by lia. f_equal. lia. }
        rewrite (Hsame _ _ Ha), (Hsame _ _ Hb) in *.
        exists (length batch + k), i, a, b.
        split; [by rewrite <- Nat.add_assoc, Hshift|].
        split; [by rewrite <- Nat.add_assoc, plus_n_Sm, Hshift|].
        split; [done|]. split; [done|]. split.
        -- right. split; [lia|].
           destruct Hstart as [->|(Hk & p & q & Hp & Hq & Hpq)].
           ++ exists prev, cur. rewrite Nat.add_0_r.
              split; [|split; [|done]].
              ** apply lookup_app_l_Some. rewrite last_lookup in Hlast.
                 by replace (length batch - 1) with (pred (length batch)) by lia.
              ** by rewrite list_lookup_middle.
           ++ simpl in Hk. exists p, q.
              rewrite (Hsame _ _ Hp), (Hsame _ _ Hq) in Hpq.
              replace (length batch + k - 1) with (length batch + (k - 1)) by lia.
              by rewrite !Hshift.
        -- intros j a' b' Hj Ha' Hb'.
           replace j with (length batch + (j - length batch)) in Ha', Hb' by lia.
           rewrite plus_n_Sm in Hb'. rewrite Hshift in Ha', Hb'.
           rewrite <- (Hsame _ _ Ha'), <- (Hsame _ _ Hb').
           apply (Hrun_ok (j - length batch)); [lia|done|done].
      * injection Hrun as ->. by apply Hclose.
    + apply IH in Hrun
        as (k & i & a & b & Ha & Hb & Hlt & -> & Hstart & Hrun_ok).
      * rewrite <- app_assoc in Ha, Hb, Hstart, Hrun_ok.
        exists k, i, a, b.
        split; [done|]. split; [done|]. split; [done|]. split; [done|].
        split; [|exact Hrun_ok].
        destruct Hstart as [->|(Hk & Hpq)]; [by left|right].
        rewrite length_app in Hk. simpl in Hk. split; [lia|done].
      * by destruct batch.
      * by rewrite <- app_assoc.
      * by eapply continuous_snoc.
Qed.

(** The loop neither drops nor repeats a word, whatever the heap holds. *)
Lemma group_loop_concat rest : ∀ h sections batch res h',
  group_loop h sections batch rest = OK (res, h') →
  concat (map wordList res) = concat (map wordList sections) ++ batch ++ rest ∧
  only_ends_differ h h'.
Proof.
  induction rest as [|cur rest IH]; intros h sections batch res h' Hrun.
  - cbn [group_loop] in Hrun. destruct batch as [|w0 batch].
    + injection Hrun as <- <-. rewrite !app_nil_r.
      split; [done|apply only_ends_differ_refl].
    + destruct (_create_validated_section h (w0 :: batch)) as [[s h1]|e] eqn:Hc; [|done].
      simpl in Hrun. injection Hrun as <- <-.
      apply create_validated_section_OK in Hc as (_ & Hs & _ & -> & _).
      rewrite map_app, concat_app. simpl. rewrite Hs, !app_nil_r.
      split; [done|apply normalnize_time_frame].
  - rewrite group_loop_cons in Hrun.
    destruct (last batch) as [prev|] eqn:Hlast; [|done].
    destruct (Qlt_le_dec _ _) as [Hgap|Hle].
    + destruct (_create_validated_section h batch) as [[s h1]|e] eqn:Hc; [|done].
      simpl in Hrun.
      apply create_validated_section_OK in Hc as (_ & Hs & _ & -> & _).
      apply IH in Hrun as [-> Hfr]. split.
      * rewrite map_app, concat_app. simpl. rewrite Hs, !app_nil_r.
        by rewrite <- !app_assoc.
      * eapply only_ends_differ_trans; [apply normalnize_time_frame|done].
    + apply IH in Hrun as [-> Hfr]. split; [|done]. by rewrite <- !app_assoc.
Qed.

Lemma group_words_to_sections_OK h words secs h' :
  NoDup words → _group_words_to_sections h words = OK (secs, h') →
  segmented h h' words secs.
Proof.
  intros Hnd Hrun. destruct words as [|w0 rest].
  - injection Hrun as <- <-. split; try done.
    + apply only_ends_differ_refl.
    + intros s ? ? []%elem_of_nil.
    + intros s []%elem_of_nil.
    + intros s ? ? []%elem_of_nil.
  - apply (group_loop_OK rest h [] [w0]) in Hrun as (new & -> & Hseg); try done.
    intros a b []%adjacent_single.
Qed.

(** C1. For every accepted input (a list of distinct note objects on which
    the segmenter returns), in every produced phrase each note's end time
    equals the start time of the note after it, exactly, the last note of
    the phrase keeps its end time, and nothing but end times was written. *)
Theorem normalization_invariant h words secs h' :
  NoDup words →
  _group_words_to_sections h words = OK (secs, h') →
  (∀ s, s ∈ secs →
     (∀ i a b, wordList s !! i = Some a → wordList s !! S i = Some b →
               end_ (time (h' a)) = start (time (h' b))) ∧
     (∀ l, last (wordList s) = Some l →
           end_ (time (h' l)) = end_ (time (h l)))) ∧
  (∀ r, start (time (h' r)) = start (time (h r))).
Proof.
  intros Hnd Hrun. apply group_words_to_sections_OK in Hrun as Hseg; [|done].
  split.
  - intros s Hs. split.
    + intros i a b Ha Hb.
      rewrite (seg_normal _ _ _ _ Hseg s a b Hs (ex_intro _ i (conj Ha Hb))).
      symmetry. apply only_ends_differ_start, (seg_frame _ _ _ _ Hseg).
    + intros l Hl. by rewrite (seg_last _ _ _ _ Hseg s l Hs Hl).
  - intros r. apply only_ends_differ_start, (seg_frame _ _ _ _ Hseg).
Qed.

Lemma normalization_invariant_witness :
  ∃ secs h',
    NoDup [0; 1; 2] ∧
    _group_words_to_sections demo_heap [0; 1; 2] = OK (secs, h') ∧
    length secs = 2 ∧
    (∀ s, s ∈ secs →
       (∀ i a b, wordList s !! i = Some a → wordList s !! S i = Some b →
                 end_ (time (h' a)) = start (time (h' b))) ∧
       (∀ l, last (wordList s) = Some l →
             end_ (time (h' l)) = end_ (time (demo_heap l)))) ∧
    (∀ r, start (time (h' r)) = start (time (demo_heap r))).
Proof.
  assert (NoDup [0; 1; 2]) as Hnd by (apply (bool_decide_unpack _); vm_compute; exact I).
  eexists _, _. split; [exact Hnd|]. split; [vm_compute; reflexivity|].
  split; [reflexivity|].
  apply (normalization_invariant demo_heap [0; 1; 2]); [exact Hnd|].
  vm_compute; reflexivity.
Defined.

(** C2, as stated, fails in its second half: the index in the error is
    counted within the phrase being closed, not within the input.  On the
    sorted input [-1, -3/4], [0, 1/2], [2/5, 9/10] the notes that overlap are
    the input notes 1 and 2, and the error says 0: it names no overlapping
    pair of the input by its position.  The input made of the last two notes
    alone, whose offending pair is at position 0, raises the same error, so
    the error does not tell the two apart. *)
Lemma overlap_index_is_phrase_relative :
  (st overlap_heap 0%nat <= st overlap_heap 1%nat)%Q ∧
  (st overlap_heap 1%nat <= st overlap_heap 2%nat)%Q ∧
  _group_words_to_sections overlap_heap [0; 1; 2]
    = Raise (ValueError_overlap 0 (1 # 2) (2 # 5)) ∧
  (TIME_TOLERANCE < en overlap_heap 1%nat - st overlap_heap 2%nat)%Q ∧
  ¬ (TIME_TOLERANCE < en overlap_heap 0%nat - st overlap_heap 1%nat)%Q ∧
  ¬ names_input_pair overlap_heap [0; 1; 2] (ValueError_overlap 0 (1 # 2) (2 # 5)) ∧
  _group_words_to_sections overlap_heap [1; 2]
    = Raise (ValueError_overlap 0 (1 # 2) (2 # 5)).
Proof.
  split; [by vm_compute|]. split; [by vm_compute|]. split; [by vm_compute|].
  split; [by vm_compute|]. split; [by vm_compute|]. split; [|by vm_compute].
  intros (i & a & b & Ha & Hb & Hlt & He). injection He as <- _ _.
  simpl in Ha, Hb. injection Ha as <-. injection Hb as <-.
  vm_compute in Hlt. discriminate Hlt.
Qed.

(** C2, amended. On a list of distinct notes the segmenter raises exactly
    when two consecutive input notes overlap by more than the tolerance.
    The error it raises is the overlap error; it carries the two times of an
    offending pair, which the message prints to four decimals, and the index
    [i] of that pair counted within the phrase being closed: that
    phrase starts at input position [k] (the start of the input, or right
    after a gap above the tolerance), the pair is the input notes [k + i] and
    [k + i + 1], and the pairs of the phrase before it are continuous and do
    not overlap. *)
Theorem overlap_error_iff h words :
  NoDup words →
  (raises (_group_words_to_sections h words) ↔
   ∃ i a b, words !! i = Some a ∧ words !! S i = Some b ∧
            (TIME_TOLERANCE < end_ (time (h a)) - start (time (h b)))%Q) ∧
  (∀ e, _group_words_to_sections h words = Raise e →
        ∃ k i a b,
          words !! (k + i) = Some a ∧ words !! S (k + i) = Some b ∧
          (TIME_TOLERANCE < end_ (time (h a)) - start (time (h b)))%Q ∧
          e = ValueError_overlap i (end_ (time (h a))) (start (time (h b))) ∧
          (k = 0 ∨
           ∃ p q, words !! (k - 1) = Some p ∧ words !! k = Some q ∧
                  (TIME_TOLERANCE < start (time (h q)) - end_ (time (h p)))%Q) ∧
          (∀ j a' b', k ≤ j < k + i →
             words !! j = Some a' → words !! S j = Some b' →
             (start (time (h b')) - end_ (time (h a')) <= TIME_TOLERANCE)%Q ∧
             (end_ (time (h a')) - start (time (h b')) <= TIME_TOLERANCE)%Q)).
Proof.
  intros Hnd.
  assert (∀ e, _group_words_to_sections h words = Raise e →
             ∃ k i a b,
               words !! (k + i) = Some a ∧ words !! S (k + i) = Some b ∧
               (TIME_TOLERANCE < en h a - st h b)%Q ∧
               e = ValueError_overlap i (en h a) (st h b) ∧
               (k = 0 ∨
                ∃ p q, words !! (k - 1) = Some p ∧ words !! k = Some q ∧
                       (TIME_TOLERANCE < st h q - en h p)%Q) ∧
               (∀ j a' b', k ≤ j < k + i →
                  words !! j = Some a' → words !! S j = Some b' →
                  (st h b' - en h a' <= TIME_TOLERANCE)%Q ∧
                  (en h a' - st h b' <= TIME_TOLERANCE)%Q)) as Herr.
  { intros e Hrun. destruct words as [|w0 rest]; [done|].
    apply (group_loop_Raise rest h [] [w0]) in Hrun
      as (k & i & a & b & Ha & Hb & Hlt & He & Hstart & Hok);
      [|done|done|by intros ? ? []%adjacent_single].
    exists k, i, a, b. repeat split; try done; try (by apply (Hok j a' b')).
    destruct Hstart as [->|[_ Hpq]]; [by left|by right]. }
  split; [|done]. split.
  - destruct (_group_words_to_sections h words) as [[secs h']|e] eqn:Hrun; [done|].
    intros _. destruct (Herr e eq_refl) as (k & i & a & b & Ha & Hb & Hlt & _).
    by exists (k + i), a, b.
  - intros (i & a & b & Ha & Hb & Hlt).
    destruct (_group_words_to_sections h words) as [[secs h']|e] eqn:Hrun; [|done].
    exfalso. apply group_words_to_sections_OK in Hrun as Hseg; [|done].
    rewrite <- (seg_concat _ _ _ _ Hseg) in Ha, Hb.
    destruct (adjacent_concat _ _ _ _ (seg_nonempty _ _ _ _ Hseg) Ha Hb)
      as [(l & k & Hl & Hk1 & Hk2)|(j & p & q & Hp & Hq & Hlast & Hhd)].
    + apply list_elem_of_fmap in Hl as (s & -> & Hs).
      pose proof (seg_no_overlap _ _ _ _ Hseg s a b Hs (ex_intro _ k (conj Hk1 Hk2))).
      lra.
    + rewrite list_lookup_fmap in Hp, Hq.
      destruct (secs !! j) as [sp|] eqn:Hsp; [|done].
      destruct (secs !! S j) as [sq|] eqn:Hsq; [|done].
      simpl in Hp, Hq. injection Hp as <-. injection Hq as <-.
      pose proof (seg_boundary _ _ _ _ Hseg j sp sq a b Hsp Hsq Hlast Hhd) as Hgap.
      unfold TIME_TOLERANCE in *. lra.
Qed.

Lemma overlap_error_iff_witness :
  NoDup [0; 1; 2] ∧
  _group_words_to_sections overlap_heap [0; 1; 2]
    = Raise (ValueError_overlap 0 (1 # 2) (2 # 5)) ∧
  (raises (_group_words_to_sections overlap_heap [0; 1; 2]) ↔
   ∃ i a b, [0; 1; 2] !! i = Some a ∧ [0; 1; 2] !! S i = Some b ∧
            (TIME_TOLERANCE < end_ (time (overlap_heap a))
                              - start (time (overlap_heap b)))%Q).
Proof.
  assert (NoDup [0; 1; 2]) as Hnd by (apply (bool_decide_unpack _); vm_compute; exact I).
  split; [exact Hnd|]. split; [vm_compute; reflexivity|].
  exact (proj1 (overlap_error_iff overlap_heap [0; 1; 2] Hnd)).
Defined.

(** C3. On an accepted input of distinct notes, two consecutive input notes
    whose gap exceeds the tolerance lie in different phrases, and two whose
    gap is at most the tolerance lie in the same phrase; every phrase is a
    non-empty run of continuous notes, and the gap between the last note of
    a phrase and the first note of the next exceeds the tolerance. *)
Theorem phrases_are_maximal_runs h words secs h' :
  NoDup words →
  _group_words_to_sections h words = OK (secs, h') →
  (∀ i a b, words !! i = Some a → words !! S i = Some b →
     ((TIME_TOLERANCE < start (time (h b)) - end_ (time (h a)))%Q →
      ¬ same_phrase secs a b) ∧
     ((start (time (h b)) - end_ (time (h a)) <= TIME_TOLERANCE)%Q →
      same_phrase secs a b)) ∧
  (∀ s, s ∈ secs → wordList s ≠ [] ∧ continuous h (wordList s)) ∧
  (∀ j p q a b, secs !! j = Some p → secs !! S j = Some q →
     last (wordList p) = Some a → head (wordList q) = Some b →
     (TIME_TOLERANCE < start (time (h b)) - end_ (time (h a)))%Q).
Proof.
  intros Hnd Hrun. apply group_words_to_sections_OK in Hrun as Hseg; [|done].
  pose proof (seg_nonempty _ _ _ _ Hseg) as Hne.
  split; [|split].
  - intros i a b Ha Hb. rewrite <- (seg_concat _ _ _ _ Hseg) in Ha, Hb, Hnd.
    destruct (adjacent_concat _ _ _ _ Hne Ha Hb)
      as [(l & k & Hl & Hk1 & Hk2)|(j & p & q & Hp & Hq & Hlast & Hhd)].
    + apply list_elem_of_fmap in Hl as (s & -> & Hs).
      pose proof (seg_continuous _ _ _ _ Hseg s Hs a b (ex_intro _ k (conj Hk1 Hk2))).
      split; [intros ?; lra|]. intros _. exists s.
      split; [done|]. split; by eapply list_elem_of_lookup_2.
    + pose proof Hp as Hp'. pose proof Hq as Hq'.
      rewrite list_lookup_fmap in Hp', Hq'.
      destruct (secs !! j) as [sp|] eqn:Hsp; [|done].
      destruct (secs !! S j) as [sq|] eqn:Hsq; [|done].
      simpl in Hp', Hq'. injection Hp' as <-. injection Hq' as <-.
      pose proof (seg_boundary _ _ _ _ Hseg j sp sq a b Hsp Hsq Hlast Hhd) as Hgap.
      split; [|intros ?; lra]. intros _ (s & Hs & Has & Hbs).
      apply list_elem_of_lookup in Hs as [j0 Hj0].
      assert (map wordList secs !! j0 = Some (wordList s)) as Hj0'
        by (by rewrite list_lookup_fmap, Hj0).
      assert (j0 = j).
      { apply (NoDup_concat_piece _ j0 j _ _ a Hnd Hj0' Hp Has).
        by apply last_Some_elem_of. }
      assert (j0 = S j).
      { apply (NoDup_concat_piece _ j0 (S j) _ _ b Hnd Hj0' Hq Hbs).
        by apply head_Some_elem_of. }
      lia.
  - intros s Hs. split; [|by apply (seg_continuous _ _ _ _ Hseg)].
    rewrite Forall_forall in Hne. apply Hne, list_elem_of_fmap. by exists s.
  - apply (seg_boundary _ _ _ _ Hseg).
Qed.

Lemma phrases_are_maximal_runs_witness :
  ∃ secs h',
    NoDup [0; 1; 2] ∧
    _group_words_to_sections demo_heap [0; 1; 2] = OK (secs, h') ∧
    map wordList secs = [[0; 1]; [2]] ∧
    same_phrase secs 0 1 ∧ ¬ same_phrase secs 1 2.
Proof.
  assert (NoDup [0; 1; 2]) as Hnd by (apply (bool_decide_unpack _); vm_compute; exact I).
  eexists _, _. split; [exact Hnd|]. split; [vm_compute; reflexivity|].
  split; [reflexivity|].
  pose proof (phrases_are_maximal_runs demo_heap [0; 1; 2] _ _ Hnd eq_refl) as [H _].
  split.
  - apply (H 0 0 1 eq_refl eq_refl). vm_compute. discriminate.
  - apply (H 1 1 2 eq_refl eq_refl). vm_compute. reflexivity.
Defined.

(** C10. On every accepted input the note lists of the produced phrases,
    concatenated in order, are the input list: the same note objects in the
    same order, none dropped and none repeated; on each of them only the end
    time may have been written. *)
Theorem flatten_sections_is_input h words secs h' :
  _group_words_to_sections h words = OK (secs, h') →
  concat (map wordList secs) = words ∧
  (∀ r, h' r = set_time_end (h r) (end_ (time (h' r)))).
Proof.
  intros Hrun. destruct words as [|w0 rest].
  - injection Hrun as <- <-. split; [done|apply only_ends_differ_refl].
  - by apply group_loop_concat in Hrun.
Qed.

Lemma flatten_sections_is_input_witness :
  ∃ secs h',
    _group_words_to_sections demo_heap [0; 1; 2] = OK (secs, h') ∧
    concat (map wordList secs) = [0; 1; 2] ∧
    (∀ r, h' r = set_time_end (demo_heap r) (end_ (time (h' r)))).
Proof.
  eexists _, _. split; [vm_compute; reflexivity|].
  apply (flatten_sections_is_input demo_heap [0; 1; 2]).
  vm_compute; reflexivity.
Defined.

End SegmenterProps.

(** ** The pitch coder *)

Module CoderProps.
Import FlorenceCoder Vocabulary Samples.

Lemma Qpositive_true v : Qpositive v = true ↔ (0 < v)%Q.
Proof. unfold Qpositive. destruct (Qlt_le_dec 0 v); split; try done. lra. Qed.

Lemma np_clip_range v lo hi : (lo <= hi)%Q → (lo <= np_clip v lo hi <= hi)%Q.
Proof.
  intros Hle. unfold np_clip. split.
  - apply Q.min_glb; [apply Q.le_max_r|done].
  - apply Q.le_min_r.
Qed.

Lemma align_length_spec y audio :
  align_length y audio =
  take (length audio) y ++ replicate (length audio - length y) 0%Q.
Proof.
  unfold align_length.
  destruct (Nat.eqb_spec (length y) (length audio)) as [Heq|Hne].
  - rewrite Heq, Nat.sub_diag, app_nil_r. by rewrite <- Heq, firstn_all.
  - destruct (Nat.ltb_spec (length audio) (length y)) as [Hlt|Hge].
    + replace (length audio - length y) with 0 by lia. by rewrite app_nil_r.
    + by rewrite take_ge by lia.
Qed.

Lemma align_length_length y audio : length (align_length y audio) = length audio.
Proof.
  rewrite align_length_spec, length_app, length_take, length_replicate. lia.
Qed.

Lemma modify_f0_lookup f0 ratio i :
  modify_f0 f0 ratio !! i =
  (fun v => if Qpositive (v * ratio) then np_clip (v * ratio) 50 1600 else 0%Q)
    <$> f0 !! i.
Proof.
  unfold modify_f0. change (@map) with (@fmap list _).
  rewrite !list_lookup_fmap. by destruct (f0 !! i).
Qed.

Section Coder.

Context {Envelope Aperiodicity : Type}.
Variable pw : World Envelope Aperiodicity.
Variable astype : dtype → Q → Q.
Variable context : Context.
Variable frame_period : Q.

Abbreviation shift_pitch := (_shift_pitch pw astype context frame_period).
Abbreviation process_word := (_process_word pw astype context frame_period).

Lemma shift_pitch_length audio target_freq y :
  shift_pitch audio target_freq = OK y → length y = length audio.
Proof.
  unfold _shift_pitch.
  destruct (dio pw _ _ _) as [[f0' t]|?]; [simpl|done].
  destruct (stonemask pw _ _ _ _) as [f0|?]; [simpl|done].
  destruct (cheaptrick pw _ _ _ _) as [sp|?]; [simpl|done].
  destruct (d4c pw _ _ _ _) as [ap|?]; [simpl|done].
  destruct (length (List.filter Qpositive f0) =? 0); [by intros [= <-]|].
  destruct (synthesize pw _ _ _ _ _) as [y0|?]; [simpl|done].
  intros [= <-]. by rewrite length_map, align_length_length.
Qed.

Lemma process_word_shifts word audio p :
  oriWave word = Some audio → audio ≠ [] → pitch word = Some p → (0 < p)%Q →
  pitchedWave (process_word word) =
  Some (match shift_pitch audio p with OK y => y | Raise _ => audio end).
Proof.
  intros Hori Hne Hp Hpos. unfold _process_word. rewrite Hori, Hp.
  destruct audio as [|a audio]; [done|]. simpl length. simpl Nat.eqb. cbv iota.
  destruct (Qle_bool p 0) eqn:Hle; [apply Qle_bool_iff in Hle; lra|].
  by destruct (shift_pitch (a :: audio) p).
Qed.

(** With a successful analysis that found a voiced frame, the contour
    handed to [synthesize] is [modify_f0] of the refined contour. *)
Lemma shift_pitch_voiced audio target_freq f0' t f0 sp ap :
  dio pw (map (astype float64) audio) (sample_rate context) frame_period = OK (f0', t) →
  stonemask pw (map (astype float64) audio) f0' t (sample_rate context) = OK f0 →
  cheaptrick pw (map (astype float64) audio) f0 t (sample_rate context) = OK sp →
  d4c pw (map (astype float64) audio) f0 t (sample_rate context) = OK ap →
  (∃ v, v ∈ f0 ∧ (0 < v)%Q) →
  shift_pitch audio target_freq =
  (do y <- synthesize pw
             (modify_f0 f0 (target_freq / np_mean (List.filter Qpositive f0)))
             sp ap (sample_rate context) frame_period;
   OK (map (astype float32) (align_length y audio)))%result.
Proof.
  intros Hdio Hstone Hcheap Hd4c (v & Hv & Hpos). unfold _shift_pitch.
  rewrite Hdio. simpl. rewrite Hstone. simpl. rewrite Hcheap. simpl.
  rewrite Hd4c. simpl.
  destruct (List.filter Qpositive f0) as [|v' l] eqn:Hfilter; [|done].
  exfalso. apply list_elem_of_In in Hv.
  assert (In v (List.filter Qpositive f0)) as Hin
    by (apply filter_In; split; [done|by apply Qpositive_true]).
  by rewrite Hfilter in Hin.
Qed.

(** C5. For a note with a non-empty raw wave and a positive target pitch
    the coder stores a shifted wave of exactly as many samples as the raw
    wave: the raw wave itself when the vocoder raised or found no voiced
    frame, else the resynthesized wave cut to that length or padded with
    zeros at its end. *)
Theorem shifted_wave_length word audio p :
  oriWave word = Some audio → audio ≠ [] → pitch word = Some p → (0 < p)%Q →
  ∃ y, pitchedWave (process_word word) = Some y ∧
       length y = length audio ∧
       (∀ e, shift_pitch audio p = Raise e → y = audio) ∧
       (∀ f0' t f0,
          dio pw (map (astype float64) audio) (sample_rate context) frame_period
            = OK (f0', t) →
          stonemask pw (map (astype float64) audio) f0' t (sample_rate context)
            = OK f0 →
          ∀ sp ap,
          cheaptrick pw (map (astype float64) audio) f0 t (sample_rate context)
            = OK sp →
          d4c pw (map (astype float64) audio) f0 t (sample_rate context) = OK ap →
          (List.filter Qpositive f0 = [] → y = audio) ∧
          (∀ y0,
             List.filter Qpositive f0 ≠ [] →
             synthesize pw
               (modify_f0 f0 (p / np_mean (List.filter Qpositive f0)))
               sp ap (sample_rate context) frame_period = OK y0 →
             y = map (astype float32)
                   (take (length audio) y0
                    ++ replicate (length audio - length y0) 0%Q))).
Proof.
  intros Hori Hne Hp Hpos.
  rewrite (process_word_shifts word audio p Hori Hne Hp Hpos).
  eexists. split; [reflexivity|]. split; [|split].
  - destruct (shift_pitch audio p) as [y|e] eqn:Hshift; [|done].
    by apply shift_pitch_length in Hshift.
  - by intros e ->.
  - intros f0' t f0 Hdio Hstone sp ap Hcheap Hd4c. unfold _shift_pitch.
    rewrite Hdio. simpl. rewrite Hstone. simpl. rewrite Hcheap. simpl.
    rewrite Hd4c. simpl. split.
    + by intros ->.
    + intros y0 Hvoiced Hsyn.
      destruct (List.filter Qpositive f0) as [|v l] eqn:Hfilter; [done|].
      simpl length. simpl Nat.eqb. cbv iota.
      rewrite Hsyn. simpl. by rewrite align_length_spec.
Qed.

(** C9. When the analysis succeeds and finds a voiced frame, the contour
    that the coder passes to [synthesize] has one value per frame, every
    nonzero value of it lies in [50, 1600], and every frame that is 0 in the
    detected contour is 0 in it. *)
Theorem resynthesis_contour_in_range word audio p f0' t f0 sp ap :
  oriWave word = Some audio → audio ≠ [] → pitch word = Some p → (0 < p)%Q →
  dio pw (map (astype float64) audio) (sample_rate context) frame_period = OK (f0', t) →
  stonemask pw (map (astype float64) audio) f0' t (sample_rate context) = OK f0 →
  cheaptrick pw (map (astype float64) audio) f0 t (sample_rate context) = OK sp →
  d4c pw (map (astype float64) audio) f0 t (sample_rate context) = OK ap →
  (∃ v, v ∈ f0 ∧ (0 < v)%Q) →
  ∃ contour,
    contour = modify_f0 f0 (p / np_mean (List.filter Qpositive f0)) ∧
    pitchedWave (process_word word) =
      Some (match synthesize pw contour sp ap (sample_rate context) frame_period with
            | OK y => map (astype float32) (align_length y audio)
            | Raise _ => audio
            end) ∧
    length contour = length f0 ∧
    (∀ i v, contour !! i = Some v → ¬ (v == 0)%Q → (50 <= v)%Q ∧ (v <= 1600)%Q) ∧
    (∀ i v, f0 !! i = Some v → (v == 0)%Q → contour !! i = Some 0%Q).
Proof.
  intros Hori Hne Hp Hpos Hdio Hstone Hcheap Hd4c Hvoiced.
  eexists. split; [reflexivity|]. split; [|split; [|split]].
  - rewrite (process_word_shifts word audio p Hori Hne Hp Hpos).
    rewrite (shift_pitch_voiced audio p f0' t f0 sp ap Hdio Hstone Hcheap Hd4c Hvoiced).
    by destruct (synthesize pw _ _ _ _ _).
  - unfold modify_f0. by rewrite !length_map.
  - intros i v Hv Hnz. rewrite modify_f0_lookup in Hv.
    destruct (f0 !! i) as [v0|]; [|done]. simpl in Hv. injection Hv as <-.
    destruct (Qpositive _); [|by destruct Hnz].
    by apply np_clip_range.
  - intros i v Hv Hz. rewrite modify_f0_lookup, Hv. simpl.
    destruct (Qpositive _) eqn:Hpositive; [|done].
    apply Qpositive_true in Hpositive. rewrite Hz in Hpositive. lra.
Qed.

End Coder.

Lemma shifted_wave_length_witness :
  ∃ y, pitchedWave (_process_word demo_world (fun _ q => q) demo_context 5 demo_note)
         = Some y ∧
       length y = 4 ∧
       y = [7 # 10; 8 # 10; 0; 0]%Q.
Proof.
  destruct (shifted_wave_length demo_world (fun _ q => q) demo_context 5 demo_note
              [1 # 10; 2 # 10; 3 # 10; 4 # 10]%Q 220%Q)
    as (y & Hy & Hlen & _ & Hout); [reflexivity|discriminate|reflexivity|reflexivity|].
  exists y. split; [exact Hy|]. split; [exact Hlen|].
  destruct (Hout [100; 0; 120]%Q [0; 5 # 1000; 10 # 1000]%Q [100; 0; 120]%Q
              eq_refl eq_refl tt tt eq_refl eq_refl) as [_ Hsyn].
  apply (Hsyn [7 # 10; 8 # 10]%Q); [discriminate|reflexivity].
Defined.

Lemma resynthesis_contour_in_range_witness :
  ∃ contour,
    contour = [np_clip (100 * (220 / np_mean [100; 120])) 50 1600; 0;
               np_clip (120 * (220 / np_mean [100; 120])) 50 1600]%Q ∧
    (∀ i v, contour !! i = Some v → ¬ (v == 0)%Q → (50 <= v)%Q ∧ (v <= 1600)%Q) ∧
    contour !! 1 = Some 0%Q.
Proof.
  destruct (resynthesis_contour_in_range demo_world (fun _ q => q) demo_context 5
              demo_note [1 # 10; 2 # 10; 3 # 10; 4 # 10]%Q 220%Q
              [100; 0; 120]%Q [0; 5 # 1000; 10 # 1000]%Q [100; 0; 120]%Q tt tt)
    as (contour & Hc & _ & _ & Hrange & Hzero);
    try reflexivity; [discriminate| |].
  - exists 100%Q. split; [apply list_elem_of_here|reflexivity].
  - exists contour. split; [exact Hc|]. split; [exact Hrange|].
    apply (Hzero 1 0%Q); reflexivity.
Defined.

End CoderProps.

(** ** The wave connecter *)

Module ConnecterProps.
Import FlorenceWaveConnecter Vocabulary Samples.

#[local] Arguments mix_words : simpl never.

Lemma int_of_nonneg (x : Q) : (0 <= x)%Q → int_of x = Qfloor x ∧ (0 <= int_of x)%Z.
Proof.
  destruct x as [n d]. unfold Qle, int_of, Qfloor. simpl. intros Hn.
  rewrite Z.mul_1_r in Hn.
  rewrite Z.quot_div_nonneg by lia. split; [done|].
  apply Z.div_pos; lia.
Qed.

(** *** [np_linspace] *)

Lemma rint_nonneg x : (0 <= x)%Q → (0 <= rint x)%Z.
Proof.
  intros Hx. unfold rint.
  assert (0 <= Qfloor x)%Z by (rewrite <- (Qfloor_Z 0); by apply Qfloor_resp_le).
  destruct (Qcompare _ _); [destruct (Z.even _)|..]; lia.
Qed.

(** Rounding to double precision keeps the sign. *)
Lemma binary64_nonneg x : (0 <= x)%Q → (0 <= binary64 x)%Q.
Proof.
  intros Hx. unfold binary64. destruct (Qeq_bool x 0); [done|]. cbv zeta.
  set (ulp := (2 ^ _)%Q). assert (0 < ulp)%Q as Hulp by (by apply Qpower.Qpower_0_lt).
  apply Qmult_le_0_compat; [|lra].
  rewrite <- (Zle_Qle 0). apply rint_nonneg.
  apply Qle_shift_div_l; [done|lra].
Qed.

Lemma binary64_rate_nonneg (context : Context) :
  (0 <= sample_rate context)%Z → (0 <= binary64 (inject_Z (sample_rate context)))%Q.
Proof. intros Hsr. apply binary64_nonneg. by rewrite <- (Zle_Qle 0). Qed.

Lemma int_of_floor (x : Q) :
  (0 <= x)%Q → (inject_Z (int_of x) <= x)%Q ∧ (x < inject_Z (int_of x + 1))%Q.
Proof.
  intros Hx. destruct (int_of_nonneg x Hx) as [-> _].
  split; [apply Qfloor_le|apply Qlt_floor].
Qed.

Lemma np_linspace_OK a b num :
  (0 <= num)%Z →
  ∃ l, np_linspace a b num = OK l ∧ length l = Z.to_nat num ∧
       ((1 < num)%Z → ∃ x, head l = Some x ∧ (x == a)%Q) ∧
       ((1 < num)%Z → last l = Some b) ∧
       (num = 1%Z → l = [(inject_Z 0 * (b - a) + a)%Q]).
Proof.
  intros Hnum. unfold np_linspace.
  destruct (Z.ltb_spec num 0) as [|_]; [lia|].
  set (y := if (0 <? num - 1)%Z then _ else _).
  assert (length y = Z.to_nat num) as Hy.
  { unfold y. destruct (0 <? num - 1)%Z; by rewrite length_map, length_seq. }
  eexists. split; [reflexivity|].
  destruct (Z.ltb_spec 1 num) as [Hgt|Hle].
  - rewrite length_insert. split; [done|]. split; [|split; [|lia]].
    + intros _. unfold y. destruct (Z.ltb_spec 0 (num - 1)) as [_|]; [|lia].
      destruct (Z.to_nat num) as [|[|n]] eqn:Hn; [lia|lia|].
      replace (Z.to_nat (num - 1)) with (S n) by lia. simpl.
      eexists. split; [reflexivity|]. unfold inject_Z. simpl. ring.
    + intros _. rewrite last_lookup, length_insert, Hy.
      replace (pred (Z.to_nat num)) with (Z.to_nat (num - 1)) by lia.
      apply list_lookup_insert_eq. lia.
  - split; [done|]. split; [lia|]. split; [lia|].
    intros ->. reflexivity.
Qed.

(** *** Slices *)

(** A slice whose resolved bounds are [lo] and [lo + length w]. *)
Lemma slice_iop_exact op a i j w lo :
  slice_bound (Z.of_nat (length a)) i = lo →
  slice_bound (Z.of_nat (length a)) j = (lo + length w)%nat →
  slice_iop op a i j w =
  OK (take lo a ++ zip_with op (take (length w) (drop lo a)) w
      ++ drop (lo + length w) a).
Proof.
  intros Hi Hj. unfold slice_iop. rewrite Hi, Hj.
  replace (lo + length w - lo)%nat with (length w) by lia.
  by rewrite Nat.eqb_refl.
Qed.

Lemma slice_iop_inside op a (i : Z) w :
  (0 <= i)%Z → (i + Z.of_nat (length w) <= Z.of_nat (length a))%Z →
  slice_iop op a i (i + Z.of_nat (length w)) w =
  OK (take (Z.to_nat i) a
      ++ zip_with op (take (length w) (drop (Z.to_nat i) a)) w
      ++ drop (Z.to_nat i + length w) a).
Proof.
  intros Hi Hj. apply slice_iop_exact; unfold slice_bound.
  - destruct (Z.ltb_spec i 0); lia.
  - destruct (Z.ltb_spec (i + Z.of_nat (length w)) 0); lia.
Qed.

Lemma slice_iop_tail op a (k : Z) w :
  (0 < k)%Z → (k <= Z.of_nat (length a))%Z → length w = Z.to_nat k →
  slice_iop op a (- k) (Z.of_nat (length a)) w =
  OK (take (length a - length w) a ++ zip_with op (drop (length a - length w) a) w).
Proof.
  intros Hk Hle Hw.
  rewrite (slice_iop_exact op a _ _ w (length a - length w)).
  - f_equal. f_equal.
    replace (length a - length w + length w)%nat with (length a) by lia.
    rewrite drop_all, app_nil_r. f_equal. apply take_ge.
    rewrite length_drop. lia.
  - unfold slice_bound. destruct (Z.ltb_spec (- k) 0); lia.
  - unfold slice_bound. destruct (Z.ltb_spec (Z.of_nat (length a)) 0); lia.
Qed.

Lemma last_zip_with {A B C : Type} (f : A → B → C) (l : list A) (k : list B) :
  length l = length k →
  last (zip_with f l k) =
  match last l, last k with
  | Some x, Some y => Some (f x y)
  | _, _ => None
  end.
Proof.
  intros Hlen. rewrite !last_lookup, lookup_zip_with, length_zip_with, <- Hlen.
  rewrite Nat.min_id. destruct (l !! pred (length l)); [|done]. simpl.
  by destruct (k !! pred (length l)).
Qed.

Lemma last_drop {A : Type} (l : list A) n :
  (n < length l)%nat → last (drop n l) = last l.
Proof.
  intros Hn. rewrite !last_lookup, lookup_drop, length_drop. f_equal. lia.
Qed.

(** *** [_apply_declick_envelope] *)

Section Declick.

Variable context : Context.
Hypothesis sample_rate_nonneg : (0 <= sample_rate context)%Z.

Lemma fade_samples_bounds wave :
  (0 <= fade_samples context wave)%Z ∧
  (2 * fade_samples context wave <= Z.of_nat (length wave))%Z.
Proof.
  unfold fade_samples.
  assert (0 <= (5 # 1000) * inject_Z (sample_rate context))%Q as Hnn.
  { apply Qmult_le_0_compat; [done|]. unfold Qle. simpl. lia. }
  apply int_of_nonneg in Hnn as [_ Hnn].
  destruct (Z.ltb_spec (Z.of_nat (length wave))
              (int_of ((5 # 1000) * inject_Z (sample_rate context)) * 2)).
  - split; [apply Z.div_pos; lia|]. apply Z.mul_div_le. lia.
  - lia.
Qed.

(** With a fade of [n > 0] samples the result is the head of the wave under
    the fade-in, the untouched middle, and the tail under the fade-out. *)
Lemma declick_faded wave :
  fade_samples context wave ≠ 0%Z →
  ∃ fade_in fade_out,
    np_linspace 0 1 (fade_samples context wave) = OK fade_in ∧
    np_linspace 1 0 (fade_samples context wave) = OK fade_out ∧
    length fade_in = Z.to_nat (fade_samples context wave) ∧
    length fade_out = Z.to_nat (fade_samples context wave) ∧
    _apply_declick_envelope context wave =
    OK (zip_with Qmult (take (length fade_in) wave) fade_in
        ++ take (length wave - 2 * length fade_in) (drop (length fade_in) wave)
        ++ zip_with Qmult (drop (length wave - length fade_out) wave) fade_out).
Proof.
  intros Hne. destruct (fade_samples_bounds wave) as [Hnn Hle].
  destruct (np_linspace_OK 0 1 _ Hnn) as (fade_in & Hin & Hlin & _).
  destruct (np_linspace_OK 1 0 _ Hnn) as (fade_out & Hout & Hlout & _).
  exists fade_in, fade_out. repeat split; try done.
  unfold _apply_declick_envelope.
  destruct (Z.eqb_spec (fade_samples context wave) 0) as [|_]; [done|].
  rewrite Hin, Hout. simpl.
  replace (fade_samples context wave) with (0 + Z.of_nat (length fade_in))%Z at 1 by lia.
  rewrite slice_iop_inside by lia. change (Z.to_nat 0) with 0%nat.
  rewrite drop_0. simpl.
  set (p1 := zip_with Qmult (take (length fade_in) wave) fade_in
             ++ drop (length fade_in) wave).
  assert (length (zip_with Qmult (take (length fade_in) wave) fade_in)
          = length fade_in) as Hzip.
  { rewrite length_zip_with, length_take. lia. }
  assert (length p1 = length wave) as Hp1.
  { unfold p1. rewrite length_app, Hzip, length_drop. lia. }
  rewrite slice_iop_tail by lia. simpl. f_equal. rewrite Hp1. unfold p1.
  rewrite take_app_ge, drop_app_ge by lia. rewrite Hzip, drop_drop.
  rewrite <- app_assoc.
  replace (length wave - length fade_out - length fade_in)%nat
    with (length wave - (length fade_in + (length fade_in + 0)))%nat by lia.
  replace (length fade_in + (length wave - (length fade_in + (length fade_in + 0))))%nat
    with (length wave - length fade_out)%nat by lia.
  done.
Qed.

Lemma declick_skipped wave :
  fade_samples context wave = 0%Z → _apply_declick_envelope context wave = OK wave.
Proof. intros H. unfold _apply_declick_envelope. by rewrite H. Qed.

Lemma declick_length wave :
  ∃ processed, _apply_declick_envelope context wave = OK processed ∧
               length processed = length wave.
Proof.
  destruct (decide (fade_samples context wave = 0%Z)) as [Hz|Hnz].
  - exists wave. by rewrite declick_skipped.
  - destruct (declick_faded wave Hnz) as (fin & fout & _ & _ & Hlin & Hlout & ->).
    destruct (fade_samples_bounds wave) as [Hnn Hle].
    eexists. split; [reflexivity|].
    rewrite !length_app, !length_zip_with, !length_take, !length_drop. lia.
Qed.

(** Where the claim on the ends of the envelope holds and where it stops:
    the first sample of a faded wave is zero; its last sample is zero when
    the fade has two samples or more, and the last sample of the input when
    the fade has one sample. *)
Lemma declick_ends wave :
  (0 < fade_samples context wave)%Z →
  ∃ processed,
    _apply_declick_envelope context wave = OK processed ∧
    length processed = length wave ∧
    (∃ x, head processed = Some x ∧ (x == 0)%Q) ∧
    ((1 < fade_samples context wave)%Z → ∃ x, last processed = Some x ∧ (x == 0)%Q) ∧
    (fade_samples context wave = 1%Z →
     ∃ x w, last processed = Some x ∧ last wave = Some w ∧ (x == w)%Q).
Proof.
  intros Hpos. destruct (fade_samples_bounds wave) as [Hnn Hle].
  destruct (declick_length wave) as (processed & Hrun & Hlen).
  exists processed. split; [done|]. split; [done|].
  destruct (declick_faded wave ltac:(lia)) as (fin & fout & Hin & Hout & Hlin & Hlout & Heq).
  rewrite Hrun in Heq. injection Heq as ->.
  destruct (np_linspace_OK 0 1 _ Hnn) as (fin' & Hin' & _ & Hhd & _ & Hone).
  destruct (np_linspace_OK 1 0 _ Hnn) as (fout' & Hout' & _ & _ & Hlast & Hone').
  rewrite Hin in Hin'. injection Hin' as <-.
  rewrite Hout in Hout'. injection Hout' as <-.
  assert (last (drop (length wave - length fout) wave) = last wave) as Hlw
    by (apply last_drop; lia).
  assert (∃ w, last wave = Some w) as [w Hw].
  { apply last_is_Some. destruct wave; [simpl in Hle; lia|done]. }
  assert (last (zip_with Qmult (drop (length wave - length fout) wave) fout)
          = match last fout with Some y => Some (w * y)%Q | None => None end) as Hlz.
  { rewrite last_zip_with by (rewrite length_drop; lia). by rewrite Hlw, Hw. }
  split; [|split].
  - assert (∃ x, head fin = Some x ∧ (x == 0)%Q) as (f0 & Hf0 & Hz).
    { destruct (decide (fade_samples context wave = 1%Z)) as [H1|Hn1].
      - rewrite (Hone H1). eexists. split; [reflexivity|]. unfold inject_Z. ring.
      - apply Hhd. lia. }
    destruct wave as [|w0 wave]; [simpl in Hle; lia|].
    destruct fin as [|f0' fin]; [done|]. simpl in Hf0. injection Hf0 as ->.
    simpl. eexists. split; [reflexivity|]. rewrite Hz. ring.
  - intros Hgt. rewrite !last_app, Hlz, (Hlast Hgt).
    eexists. split; [reflexivity|]. ring.
  - intros H1. rewrite !last_app, Hlz, (Hone' H1). simpl.
    eexists _, w. split; [reflexivity|]. split; [done|].
    unfold inject_Z. ring.
Qed.

End Declick.

(** *** Mixing one word *)

Lemma mixed_length grown off w :
  off + length w ≤ length grown → length (mixed grown off w) = length grown.
Proof.
  intros Hle. unfold mixed.
  rewrite !length_app, length_zip_with, !length_take, !length_drop. lia.
Qed.

Lemma mixed_lookup_inside grown off w k p :
  off + length w ≤ length grown → w !! k = Some p →
  ∃ g, grown !! (off + k) = Some g ∧ mixed grown off w !! (off + k) = Some (g + p)%Q.
Proof.
  intros Hle Hp. apply lookup_lt_Some in Hp as Hk.
  destruct (lookup_lt_is_Some_2 grown (off + k)) as [g Hg]; [lia|].
  exists g. split; [done|]. unfold mixed.
  rewrite lookup_app_r by (rewrite length_take; lia).
  rewrite length_take. replace (off + k - off `min` length grown) with k by lia.
  rewrite lookup_app_l by (rewrite length_zip_with, length_take, length_drop; lia).
  rewrite lookup_zip_with, lookup_take, lookup_drop, Hg, Hp.
  by destruct (decide (k < length w)); [|lia].
Qed.

Lemma mixed_lookup_outside grown off w j :
  off + length w ≤ length grown → j < off ∨ off + length w ≤ j →
  mixed grown off w !! j = grown !! j.
Proof.
  intros Hle Hj. unfold mixed. destruct Hj as [Hj|Hj].
  - rewrite lookup_app_l by (rewrite length_take; lia).
    rewrite lookup_take. by destruct (decide (j < off)); [|lia].
  - rewrite lookup_app_r by (rewrite length_take; lia).
    rewrite lookup_app_r
      by (rewrite length_zip_with, !length_take, length_drop; lia).
    rewrite length_zip_with, !length_take, length_drop, lookup_drop.
    f_equal. lia.
Qed.

Lemma grow_canvas_spec canvas end_idx :
  (end_idx <= Z.of_nat (length (grow_canvas canvas end_idx)))%Z ∧
  length canvas ≤ length (grow_canvas canvas end_idx) ∧
  grow_canvas canvas end_idx =
  canvas ++ replicate (length (grow_canvas canvas end_idx) - length canvas) 0%Q.
Proof.
  unfold grow_canvas. destruct (Z.ltb_spec (Z.of_nat (length canvas)) end_idx).
  - rewrite length_app, length_replicate. split; [lia|]. split; [lia|].
    f_equal. f_equal. lia.
  - split; [done|]. split; [done|]. by rewrite Nat.sub_diag, app_nil_r.
Qed.

Lemma canvas_product_nonneg (context : Context) :
  (0 <= sample_rate context)%Z →
  ∀ base_time end_time, (base_time <= end_time)%Q →
    (0 <= canvas_product context base_time end_time)%Q.
Proof.
  intros Hsr base_time end_time Hle. unfold canvas_product. apply binary64_nonneg.
  apply Qmult_le_0_compat; [|by apply binary64_rate_nonneg].
  apply binary64_nonneg.
  pose proof (binary64_nonneg (end_time - base_time) ltac:(lra)). lra.
Qed.

Section Mixing.

Variable context : Context.
Hypothesis sample_rate_nonneg : (0 <= sample_rate context)%Z.

Lemma offset_product_nonneg base_time word :
  (base_time <= start (time word))%Q → (0 <= offset_product context base_time word)%Q.
Proof.
  intros Hle. unfold offset_product. apply binary64_nonneg.
  apply Qmult_le_0_compat; [apply binary64_nonneg; lra|].
  by apply binary64_rate_nonneg.
Qed.

Lemma start_idx_floor base_time word :
  (base_time <= start (time word))%Q →
  (0 <= start_idx context base_time word)%Z ∧
  start_idx context base_time word = Qfloor (offset_product context base_time word).
Proof.
  intros Hle.
  destruct (int_of_nonneg _ (offset_product_nonneg base_time word Hle)) as [Heq Hge].
  done.
Qed.

Lemma mix_word_placed base_time canvas word source :
  source_wave word = Some source → source ≠ [] →
  (base_time <= start (time word))%Q →
  ∃ processed,
    _apply_declick_envelope context source = OK processed ∧
    length processed = length source ∧
    mix_word context base_time canvas word =
    OK (mixed (grow_canvas canvas
                 (start_idx context base_time word + Z.of_nat (length source)))
              (Z.to_nat (start_idx context base_time word)) processed).
Proof.
  intros Hsrc Hne Hle.
  destruct (start_idx_floor base_time word Hle) as [Hoff _].
  destruct (declick_length context sample_rate_nonneg source) as (processed & Hrun & Hlen).
  exists processed. split; [done|]. split; [done|].
  unfold mix_word. rewrite Hsrc.
  destruct (Nat.eqb_spec (length source) 0) as [H0|_]; [by destruct source|].
  rewrite Hrun. simpl rbind. rewrite <- Hlen.
  destruct (grow_canvas_spec canvas
              (start_idx context base_time word + Z.of_nat (length processed)))
    as (Hend & _).
  by rewrite slice_iop_inside.
Qed.

Lemma mix_word_skipped base_time canvas word :
  (source_wave word = None ∨ source_wave word = Some []) →
  mix_word context base_time canvas word = OK canvas.
Proof. unfold mix_word. by intros [->| ->]. Qed.

Lemma mix_words_OK h base_time words : ∀ canvas,
  (∀ r, r ∈ words → (base_time <= start (time (h r)))%Q) →
  ∃ canvas',
    mix_words context h base_time canvas words = OK canvas' ∧
    length canvas ≤ length canvas' ∧
    ∀ r source, r ∈ words → source_wave (h r) = Some source → source ≠ [] →
      (start_idx context base_time (h r) + Z.of_nat (length source)
       <= Z.of_nat (length canvas'))%Z.
Proof.
  induction words as [|w words IH]; intros canvas Hsorted.
  - exists canvas. split; [done|]. split; [done|]. by intros r source ?%elem_of_nil.
  - change (mix_words context h base_time canvas (w :: words))
      with (do c <- mix_word context base_time canvas (h w);
            mix_words context h base_time c words)%result.
    assert (∃ c1, mix_word context base_time canvas (h w) = OK c1 ∧
                  length canvas ≤ length c1 ∧
                  ∀ source, source_wave (h w) = Some source → source ≠ [] →
                    (start_idx context base_time (h w) + Z.of_nat (length source)
                     <= Z.of_nat (length c1))%Z) as (c1 & Hc1 & Hlen1 & Hfit).
    { destruct (source_wave (h w)) as [[|x source]|] eqn:Hsrc.
      - exists canvas. rewrite mix_word_skipped by auto.
        split; [done|]. split; [done|]. by intros source [= <-] Hne.
      - destruct (mix_word_placed base_time canvas (h w) (x :: source) Hsrc)
          as (processed & _ & Hlen & ->); [done|apply Hsorted; by left|].
        destruct (start_idx_floor base_time (h w)) as [Hoff _]; [apply Hsorted; by left|].
        destruct (grow_canvas_spec canvas
                    (start_idx context base_time (h w) + Z.of_nat (length (x :: source))))
          as (Hend & Hge & _).
        eexists. split; [done|]. rewrite mixed_length by lia. split; [done|].
        by intros source' [= <-] _.
      - exists canvas. rewrite mix_word_skipped by auto.
        split; [done|]. split; [done|]. by intros source. }
    rewrite Hc1. simpl.
    destruct (IH c1) as (canvas' & Hrun & Hlen & Hall).
    { intros r Hr. apply Hsorted. by right. }
    exists canvas'. split; [done|]. split; [lia|].
    intros r source [->|Hr]%elem_of_cons Hsrc Hne; [|by eapply Hall].
    specialize (Hfit source Hsrc Hne). lia.
Qed.

Lemma connect_section_OK h section w0 wlast :
  head (wordList section) = Some w0 → last (wordList section) = Some wlast →
  (start (time (h w0)) <= end_ (time (h wlast)))%Q →
  Forall (fun r => (start (time (h w0)) <= start (time (h r)))%Q) (wordList section) →
  ∃ canvas,
    _connect_section context h section = OK (set_sectionSrc section canvas) ∧
    ∀ r source, r ∈ wordList section → source_wave (h r) = Some source →
      source ≠ [] →
      (start_idx context (start (time (h w0))) (h r) + Z.of_nat (length source)
       <= Z.of_nat (length canvas))%Z.
Proof.
  intros Hhd Hlast Hdur Hsorted. unfold _connect_section. rewrite Hlast.
  destruct (wordList section) as [|w0' words] eqn:Hwords; [done|].
  simpl in Hhd. injection Hhd as ->.
  fold (canvas_product context (start (time (h w0))) (end_ (time (h wlast)))).
  pose proof (canvas_product_nonneg context sample_rate_nonneg _ _ Hdur) as Hnn.
  apply int_of_nonneg in Hnn as [_ Hnn]. unfold np_zeros.
  destruct (Z.ltb_spec (int_of (canvas_product context (start (time (h w0)))
                                  (end_ (time (h wlast))))) 0); [lia|].
  simpl rbind.
  edestruct (mix_words_OK h (start (time (h w0))) (w0 :: words))
    as (canvas & -> & _ & Hall).
  { intros r Hr. rewrite Forall_forall in Hsorted. by apply Hsorted. }
  exists canvas. split; [done|]. apply Hall.
Qed.

End Mixing.

(** *** The claims on the connecter *)




(** C7 fails on the code when the fade has one sample: a wave of two
    samples gets the fade length 1, its first sample is zeroed and its last
    sample is left as it was.  ([np.linspace(1, 0, 1)] is [[1.]].) *)
Theorem declick_one_sample_fade_keeps_last_sample :
  fade_samples demo_context [1 # 2; 1 # 2]%Q = 1%Z ∧
  np_linspace 1 0 1 = OK [(inject_Z 0 * (0 - 1) + 1)%Q] ∧
  ∃ first last_sample,
    _apply_declick_envelope demo_context [1 # 2; 1 # 2]%Q
      = OK [first; last_sample] ∧
    (first == 0)%Q ∧ (last_sample == 1 # 2)%Q ∧ ¬ (last_sample == 0)%Q.
Proof.
  split; [reflexivity|]. split; [reflexivity|].
  eexists _, _. split; [vm_compute; reflexivity|]. by vm_compute.
Qed.

(** C8. In a phrase whose notes start no earlier than its first note and
    whose last note ends no earlier than the phrase starts: whenever a word
    with a non-empty source is mixed, into whatever canvas, the offset is not
    negative, the canvas is first grown with zeros to hold
    [offset + len(source)] samples, and the whole enveloped wave is added
    inside it; assembling the section succeeds, and the final canvas holds
    [offset + len(source)] samples for every such word. *)
Theorem canvas_holds_every_source context h section w0 wlast :
  (0 <= sample_rate context)%Z →
  head (wordList section) = Some w0 → last (wordList section) = Some wlast →
  (start (time (h w0)) <= end_ (time (h wlast)))%Q →
  Forall (fun r => (start (time (h w0)) <= start (time (h r)))%Q) (wordList section) →
  (∀ canvas r source,
     r ∈ wordList section → source_wave (h r) = Some source → source ≠ [] →
     ∃ offset grown processed,
       offset = start_idx context (start (time (h w0))) (h r) ∧
       grown = grow_canvas canvas (offset + Z.of_nat (length source)) ∧
       (0 <= offset)%Z ∧
       (offset + Z.of_nat (length source) <= Z.of_nat (length grown))%Z ∧
       grown = canvas ++ replicate (length grown - length canvas) 0%Q ∧
       _apply_declick_envelope context source = OK processed ∧
       length processed = length source ∧
       mix_word context (start (time (h w0))) canvas (h r) =
         OK (take (Z.to_nat offset) grown
             ++ zip_with Qplus (take (length processed) (drop (Z.to_nat offset) grown))
                         processed
             ++ drop (Z.to_nat offset + length processed) grown) ∧
       length (take (length processed) (drop (Z.to_nat offset) grown))
         = length processed) ∧
  ∃ canvas,
    _connect_section context h section = OK (set_sectionSrc section canvas) ∧
    ∀ r source, r ∈ wordList section → source_wave (h r) = Some source →
      source ≠ [] →
      (start_idx context (start (time (h w0))) (h r) + Z.of_nat (length source)
       <= Z.of_nat (length canvas))%Z.
Proof.
  intros Hsr Hhd Hlast Hdur Hsorted. split.
  - intros canvas r source Hr Hsrc Hne.
    assert (start (time (h w0)) <= start (time (h r)))%Q as Hle
      by (rewrite Forall_forall in Hsorted; by apply Hsorted).
    destruct (start_idx_floor context Hsr _ (h r) Hle) as [Hoff _].
    destruct (mix_word_placed context Hsr _ canvas (h r) source Hsrc Hne Hle)
      as (processed & Hrun & Hlen & Hmix).
    destruct (grow_canvas_spec canvas
                (start_idx context (start (time (h w0))) (h r)
                 + Z.of_nat (length source))) as (Hend & _ & Hgrown).
    eexists _, _, processed. split; [reflexivity|]. split; [reflexivity|].
    split; [exact Hoff|]. split; [exact Hend|]. split; [exact Hgrown|].
    split; [exact Hrun|]. split; [exact Hlen|]. split; [exact Hmix|].
    rewrite length_take, length_drop. lia.
  - by apply (connect_section_OK context Hsr h section w0 wlast).
Qed.

Lemma canvas_holds_every_source_witness :
  ∃ canvas,
    _connect_section context_1000 phrase_heap phrase_section
      = OK (set_sectionSrc phrase_section canvas) ∧
    length canvas = 1500 ∧
    (start_idx context_1000 0 (phrase_heap 1%nat) + 4
     <= Z.of_nat (length canvas))%Z.
Proof.
  destruct (canvas_holds_every_source context_1000 phrase_heap phrase_section 0 1)
    as [_ (canvas & Hrun & Hfit)];
    [by vm_compute|reflexivity|reflexivity|by vm_compute| |].
  - repeat constructor; by vm_compute.
  - exists canvas. split; [exact Hrun|]. split.
    + vm_compute in Hrun. injection Hrun as <-. reflexivity.
    + apply (Hfit 1 [2; 2; 2; 2]%Q); [|reflexivity|discriminate].
      apply list_elem_of_lookup. by exists 1.
Defined.

End ConnecterProps.

(** ** The orchestrator *)

Module EngineProps.
Import FlorenceEngine Vocabulary Samples.

(** C4, as stated, fails: decoding succeeds, the speech stage raises, and
    [process_score] raises with it; no later stage runs and no path is
    returned. *)
Lemma synthesis_failure_aborts_score :
  process_score (fun s : nat => s) (fun _ => true) mute_engine "input/score.musicxml"
  = ([PrintStart "input/score.musicxml"; PrintStep StageDecode;
      CallDecode "input/score.musicxml"; PrintTracks 1; PrintStep StageSpeech;
      CallSpeech 1],
     Raise (ExternalError "speech file was not written")) ∧
  ¬ five_stage_run (fun s : nat => s) (fun _ => true) mute_engine "input/score.musicxml".
Proof.
  split; [reflexivity|].
  intros (t & s1 & s2 & s3 & s4 & output_path & Hrun & _). discriminate Hrun.
Qed.

Section Engine.

Context {Song : Type}.
Variable track_count : Song → nat.
Variable path_exists : string → bool.

(** The engine that [__init__] builds stops at the pitch stage: reading
    [self.coder] raises, and [_adjust_pitch] wraps the error. *)
Lemma process_score_after_init output_dir input_dir sample_rate is_debug
    decode_score generate_song_speech score_path s1 s2 :
  path_exists score_path = true →
  decode_score score_path = OK s1 → generate_song_speech s1 = OK s2 →
  process_score track_count path_exists
    (__init__ output_dir input_dir sample_rate is_debug decode_score generate_song_speech)
    score_path
  = ([PrintStart score_path; PrintStep StageDecode; CallDecode score_path;
      PrintTracks (track_count s1); PrintStep StageSpeech; CallSpeech s1;
      PrintDone StageSpeech; PrintStep StagePitch],
     Raise (StageException StagePitch (AttributeError "coder"))).
Proof.
  intros Hex Hdec Hsg. unfold process_score, _decode_score, _generate_speech,
    _adjust_pitch, call_module. simpl. by rewrite Hex, Hdec, Hsg.
Qed.

(** C4, amended. On an engine whose five stage modules are set, for an
    existing score on which every stage succeeds, [process_score] calls
    decode, speech synthesis, pitch retargeting, assembly and export in this
    order, each with the result of the stage before, and returns the path
    that the export stage returned. *)
Theorem process_score_runs_five_stages self score_path
    decode_score generate_song_speech process_song connect_song generate_output
    s1 s2 s3 s4 output_path :
  decoder self = Some decode_score →
  speech_generator self = Some generate_song_speech →
  coder self = Some process_song →
  wave_connector self = Some connect_song →
  output_generator self = Some generate_output →
  path_exists score_path = true →
  decode_score score_path = OK s1 →
  generate_song_speech s1 = OK s2 →
  process_song s2 = OK s3 →
  connect_song s3 = OK s4 →
  generate_output s4 = OK output_path →
  process_score track_count path_exists self score_path
  = ([PrintStart score_path;
      PrintStep StageDecode; CallDecode score_path; PrintTracks (track_count s1);
      PrintStep StageSpeech; CallSpeech s1; PrintDone StageSpeech;
      PrintStep StagePitch; CallPitch s2; PrintDone StagePitch;
      PrintStep StageConnect; CallConnect s3; PrintDone StageConnect;
      PrintStep StageOutput; CallOutput s4; PrintDone StageOutput;
      PrintOutput output_path],
     OK output_path) ∧
  five_stage_run track_count path_exists self score_path.
Proof.
  intros Hd Hs Hc Hw Ho Hex H1 H2 H3 H4 H5.
  assert (process_score track_count path_exists self score_path
          = ([PrintStart score_path;
              PrintStep StageDecode; CallDecode score_path; PrintTracks (track_count s1);
              PrintStep StageSpeech; CallSpeech s1; PrintDone StageSpeech;
              PrintStep StagePitch; CallPitch s2; PrintDone StagePitch;
              PrintStep StageConnect; CallConnect s3; PrintDone StageConnect;
              PrintStep StageOutput; CallOutput s4; PrintDone StageOutput;
              PrintOutput output_path],
             OK output_path)) as Hrun.
  { unfold process_score, _decode_score, _generate_speech, _adjust_pitch,
      _smooth_connect, _generate_output, call_module.
    rewrite Hd, Hs, Hc, Hw, Ho, Hex. simpl. rewrite H1. simpl. rewrite H2. simpl.
    rewrite H3. simpl. rewrite H4. simpl. by rewrite H5. }
  split; [exact Hrun|].
  eexists _, s1, s2, s3, s4, output_path. split; [exact Hrun|]. reflexivity.
Qed.

(** A path is returned by no other way than the five stages. *)
Lemma process_score_returns_only_after_five_stages self score_path t output_path :
  process_score track_count path_exists self score_path = (t, OK output_path) →
  ∃ decode_score generate_song_speech process_song connect_song generate_output
    s1 s2 s3 s4,
    decoder self = Some decode_score ∧
    speech_generator self = Some generate_song_speech ∧
    coder self = Some process_song ∧
    wave_connector self = Some connect_song ∧
    output_generator self = Some generate_output ∧
    path_exists score_path = true ∧
    decode_score score_path = OK s1 ∧
    generate_song_speech s1 = OK s2 ∧
    process_song s2 = OK s3 ∧
    connect_song s3 = OK s4 ∧
    generate_output s4 = OK output_path ∧
    calls t = [CallDecode score_path; CallSpeech s1; CallPitch s2;
               CallConnect s3; CallOutput s4].
Proof.
  unfold process_score, _decode_score, _generate_speech, _adjust_pitch,
    _smooth_connect, _generate_output, call_module.
  destruct (path_exists score_path) eqn:Hex; [|done].
  destruct (decoder self) as [decode_score|] eqn:Hd; [|done]. simpl.
  destruct (decode_score score_path) as [s1|] eqn:H1; [|done]. simpl.
  destruct (speech_generator self) as [generate_song_speech|] eqn:Hs; [|done]. simpl.
  destruct (generate_song_speech s1) as [s2|] eqn:H2; [|done]. simpl.
  destruct (coder self) as [process_song|] eqn:Hc; [|done]. simpl.
  destruct (process_song s2) as [s3|] eqn:H3; [|done]. simpl.
  destruct (wave_connector self) as [connect_song|] eqn:Hw; [|done]. simpl.
  destruct (connect_song s3) as [s4|] eqn:H4; [|done]. simpl.
  destruct (output_generator self) as [generate_output|] eqn:Ho; [|done]. simpl.
  destruct (generate_output s4) as [out|] eqn:H5; [|done]. simpl.
  intros [= <- <-].
  by exists decode_score, generate_song_speech, process_song, connect_song,
    generate_output, s1, s2, s3, s4.
Qed.

End Engine.

Lemma process_score_runs_five_stages_witness :
  snd (process_score (fun s : nat => s) (fun _ => true) full_engine "input/score.musicxml")
  = OK "output/song.wav"%string ∧
  calls (fst (process_score (fun s : nat => s) (fun _ => true) full_engine
                "input/score.musicxml"))
  = [CallDecode "input/score.musicxml"; CallSpeech 1; CallPitch 2; CallConnect 3;
     CallOutput 4].
Proof.
  destruct (process_score_runs_five_stages (fun s : nat => s) (fun _ => true)
              full_engine "input/score.musicxml"
              (fun _ => OK 1) (fun s => OK (S s)) (fun s => OK (S s))
              (fun s => OK (S s)) (fun _ => OK "output/song.wav"%string)
              1 2 3 4 "output/song.wav"
              eq_refl eq_refl eq_refl eq_refl eq_refl eq_refl
              eq_refl eq_refl eq_refl eq_refl eq_refl) as [Hrun _].
  rewrite Hrun. split; reflexivity.
Defined.

End EngineProps.

(** ** The scenarios of the specification *)

Module Scenarios.
Import FlorenceScoreDecoder FlorenceCoder FlorenceWaveConnecter Samples.

(** Two notes [0, 1/2] and [1/2, 1] at 1000 Hz: one phrase of two notes and a
    canvas of 1500 samples. *)
Example scenario_one_phrase :
  ∃ s h' canvas,
    _group_words_to_sections (two_notes (1 # 2) 1) [0; 1] = OK ([s], h') ∧
    wordList s = [0; 1] ∧
    _connect_section context_1000 h' s = OK (set_sectionSrc s canvas) ∧
    length canvas = 1500.
Proof.
  eexists _, _, _. split; [vm_compute; reflexivity|]. split; [reflexivity|].
  split; [vm_compute; reflexivity|]. reflexivity.
Qed.

(** Two notes [0, 1/2] and [3/5, 1]: two phrases. *)
Example scenario_two_phrases :
  ∃ s1 s2 h',
    _group_words_to_sections (two_notes (3 # 5) 1) [0; 1] = OK ([s1; s2], h') ∧
    wordList s1 = [0] ∧ wordList s2 = [1].
Proof. eexists _, _, _. split; [vm_compute; reflexivity|]. by split. Qed.

(** Two notes [0, 1/2] and [2/5, 9/10]: the overlap error, at index 0. *)
Example scenario_overlap :
  _group_words_to_sections (two_notes (2 # 5) (9 # 10)) [0; 1]
  = Raise (ValueError_overlap 0 (1 # 2) (2 # 5)).
Proof. reflexivity. Qed.

(** A target of 220 Hz over a detected mean of 110 Hz doubles every voiced
    frame and leaves the unvoiced one at 0. *)
Example scenario_ratio :
  (220 / np_mean [100; 120] == 2)%Q ∧
  Forall2 Qeq (modify_f0 [100; 0; 120] (220 / np_mean [100; 120]))%Q
              [200; 0; 240]%Q.
Proof. split; [reflexivity|]. repeat constructor. Qed.

(** [binary64] on known values: the doubles 0.1 and -0.7, the sum
    0.1 + 0.2 = 0.30000000000000004, a number that is a double already, a
    tie that goes to the even significand, and a tie that underflows to 0. *)
Example scenario_binary64 :
  (binary64 (1 # 10) == 3602879701896397 # 36028797018963968)%Q ∧
  (binary64 (- (7 # 10)) == - (3152519739159347 # 4503599627370496))%Q ∧
  (binary64 (binary64 (1 # 10) + binary64 (2 # 10))
   == 1351079888211149 # 4503599627370496)%Q ∧
  (binary64 (27 # 64) == 27 # 64)%Q ∧
  (binary64 (inject_Z (2 ^ 53 + 1)) == inject_Z (2 ^ 53))%Q ∧
  (binary64 (1 # 2 ^ 1075) == 0)%Q.
Proof. repeat split; by vm_compute. Qed.

(** Where the double product and the exact product part.  At 22050 Hz a
    note that starts 0.6 s into its phrase is placed at sample 13230, the
    exact product of the double 0.6 by 22050 lying below 13230; a note that
    starts at 0.7 s is placed at sample 15434, and 7/10 * 22050 is 15435; a
    phrase of 1.2 s gets a canvas of 37485 samples. *)
Example scenario_double_precision :
  start_idx demo_context 0 (mkWord None (mkTime (6 # 10) 1) "a" None None) = 13230%Z ∧
  Qfloor (binary64 (6 # 10) * 22050) = 13229%Z ∧
  start_idx demo_context 0 (mkWord None (mkTime (7 # 10) 1) "a" None None) = 15434%Z ∧
  Qfloor ((7 # 10) * 22050) = 15435%Z ∧
  int_of (Vocabulary.canvas_product demo_context 0 (12 # 10)) = 37485%Z.
Proof. repeat split; by vm_compute. Qed.

End Scenarios.

(** ** Lyrics *)

Module PinyinProps.
Import PyStr ScoreDecoding Vocabulary2.

Lemma lower_char_ascii c : is_ascii_char c = true → is_ascii_char (lower_char c) = true.
Proof.
  unfold is_ascii_char, lower_char, is_upper. intros Hc.
  destruct (65 <=? nat_of_ascii c)%nat eqn:H1; [|done].
  destruct (nat_of_ascii c <=? 90)%nat eqn:H2; [|done]. simpl.
  apply Nat.leb_le in H2. rewrite nat_ascii_embedding by lia.
  apply Nat.ltb_lt. lia.
Qed.

Lemma lower_char_not_upper c : is_upper (lower_char c) = false.
Proof.
  unfold lower_char. destruct (is_upper c) eqn:Hu; [|done].
  unfold is_upper in *. apply andb_true_iff in Hu as [H1 H2].
  apply Nat.leb_le in H1, H2. rewrite nat_ascii_embedding by lia.
  apply andb_false_iff. right. apply Nat.leb_gt. lia.
Qed.

Lemma lower_char_not_digit c : is_digit c = false → is_digit (lower_char c) = false.
Proof.
  unfold lower_char. destruct (is_upper c) eqn:Hu; [|done]. intros _.
  unfold is_upper, is_digit in *. apply andb_true_iff in Hu as [H1 H2].
  apply Nat.leb_le in H1, H2. rewrite nat_ascii_embedding by lia.
  apply andb_false_iff. right. apply Nat.leb_gt. lia.
Qed.

Lemma lower_char_idem c : lower_char (lower_char c) = lower_char c.
Proof. unfold lower_char at 1. by rewrite lower_char_not_upper. Qed.

Lemma string_forall_map p f s :
  string_forall p (string_map f s) = string_forall (fun c => p (f c)) s.
Proof. induction s as [|c s IH]; [done|]. simpl. by rewrite IH. Qed.

Lemma string_forall_impl (p q : ascii → bool) s :
  (∀ c, p c = true → q c = true) → string_forall p s = true → string_forall q s = true.
Proof.
  intros Hpq. induction s as [|c s IH]; [done|]. simpl.
  intros [Hc Hs]%andb_true_iff. rewrite (Hpq c Hc). by apply IH.
Qed.

Lemma string_forall_filter p q s :
  string_forall p s = true → string_forall p (string_filter q s) = true.
Proof.
  induction s as [|c s IH]; [done|]. simpl. intros [Hc Hs]%andb_true_iff.
  destruct (q c); simpl; [rewrite Hc|]; by apply IH.
Qed.

Lemma string_filter_holds q s : string_forall q (string_filter q s) = true.
Proof.
  induction s as [|c s IH]; [done|]. simpl.
  destruct (q c) eqn:Hq; [simpl; by rewrite Hq|done].
Qed.

Lemma string_map_length f s : String.length (string_map f s) = String.length s.
Proof. induction s as [|c s IH]; [done|]. simpl. by rewrite IH. Qed.

Lemma string_map_idem f s :
  (∀ c, f (f c) = f c) → string_map f (string_map f s) = string_map f s.
Proof. intros Hf. induction s as [|c s IH]; [done|]. simpl. by rewrite Hf, IH. Qed.

Lemma string_map_ascii s :
  isascii s = true → isascii (string_map lower_char s) = true.
Proof.
  unfold isascii. rewrite string_forall_map.
  apply string_forall_impl, lower_char_ascii.
Qed.

Section Pinyin.

Variable get_pinyin : string → string.
Variable unicode_lower : string → string.
Variable unicode_sub_digits : string → string.

Abbreviation convert := (_convert_to_pinyin get_pinyin unicode_lower unicode_sub_digits).

Lemma convert_ascii text :
  isascii text = true → convert text = string_map lower_char text.
Proof.
  intros Ha. unfold _convert_to_pinyin, lower. rewrite Ha. by destruct text.
Qed.

(** X1. A lyric in ASCII comes out as itself in lower case: byte for byte of
    the same length, still ASCII, without capitals, with the converter not
    asked; converting the result again changes nothing. *)
Theorem ascii_lyric_is_lowered text :
  isascii text = true →
  convert text = string_map lower_char text ∧
  String.length (convert text) = String.length text ∧
  isascii (convert text) = true ∧
  free_of is_upper (convert text) ∧
  convert (convert text) = convert text.
Proof.
  intros Ha. rewrite (convert_ascii text Ha).
  split; [done|]. split; [apply string_map_length|].
  split; [by apply string_map_ascii|]. split.
  - unfold free_of. rewrite string_forall_map.
    apply (string_forall_impl (fun _ => true)).
    + intros c _. by rewrite lower_char_not_upper.
    + clear Ha. induction text; [done|]. done.
  - rewrite convert_ascii by (by apply string_map_ascii).
    apply string_map_idem, lower_char_idem.
Qed.

(** X2. A lyric that is not ASCII, when the pinyin of it is ASCII (letters and
    tone numbers): the result is ASCII and has neither a digit nor a
    capital. *)
Theorem pinyin_lyric_has_no_tone_numbers text :
  isascii text = false → isascii (get_pinyin text) = true →
  convert text
    = string_map lower_char
        (string_filter (fun c => negb (is_digit c)) (get_pinyin text)) ∧
  isascii (convert text) = true ∧
  free_of is_digit (convert text) ∧
  free_of is_upper (convert text).
Proof.
  intros Hna Hpa.
  assert (isascii (string_filter (fun c => negb (is_digit c)) (get_pinyin text)) = true)
    as Hfa by (by apply string_forall_filter).
  assert (convert text
          = string_map lower_char
              (string_filter (fun c => negb (is_digit c)) (get_pinyin text))) as ->.
  { unfold _convert_to_pinyin, sub_digits. rewrite Hna, Hpa.
    unfold lower. rewrite Hfa. by destruct text. }
  split; [done|]. split; [by apply string_map_ascii|]. split.
  - unfold free_of. rewrite string_forall_map.
    eapply string_forall_impl; [|apply string_filter_holds].
    intros c Hc. simpl in Hc. apply negb_true_iff in Hc.
    by rewrite lower_char_not_digit.
  - unfold free_of. rewrite string_forall_map.
    generalize (string_filter (fun c => negb (is_digit c)) (get_pinyin text)).
    intros s. induction s as [|c s IH]; [done|]. simpl.
    by rewrite lower_char_not_upper.
Qed.

End Pinyin.

Lemma ascii_lyric_is_lowered_witness :
  _convert_to_pinyin (fun s => s) (fun s => s) (fun s => s) "Edelweiss 1"%string
  = "edelweiss 1"%string.
Proof.
  destruct (ascii_lyric_is_lowered (fun s => s) (fun s => s) (fun s => s)
              "Edelweiss 1"%string eq_refl) as [H _].
  rewrite H. reflexivity.
Defined.

Lemma pinyin_lyric_has_no_tone_numbers_witness :
  _convert_to_pinyin (fun _ => "Xue3-rong2-hua1"%string) (fun s => s) (fun s => s)
    "雪绒花"%string
  = "xue-rong-hua"%string.
Proof.
  destruct (pinyin_lyric_has_no_tone_numbers (fun _ => "Xue3-rong2-hua1"%string)
              (fun s => s) (fun s => s) "雪绒花"%string eq_refl eq_refl) as [H _].
  rewrite H. reflexivity.
Defined.

End PinyinProps.

(** ** From events to tracks *)

Module ExtractionProps.
Import FlorenceScoreDecoder ScoreDecoding Vocabulary Vocabulary2 Samples2 SegmenterProps.

Section Extraction.

Variable get_pinyin : string → string.
Variable unicode_lower : string → string.
Variable unicode_sub_digits : string → string.

Abbreviation convert := (_convert_to_pinyin get_pinyin unicode_lower unicode_sub_digits).
Abbreviation extract_loop_ := (extract_loop get_pinyin unicode_lower unicode_sub_digits).
Abbreviation extract_words := (_extract_words get_pinyin unicode_lower unicode_sub_digits).
Abbreviation process_part := (_process_part get_pinyin unicode_lower unicode_sub_digits).

Abbreviation made_of_ := (made_of convert).

Lemma extract_loop_Ok events : ∀ h next words res h' next',
  extract_loop_ h next words events = Ok (res, h', next') →
  res = words ++ seq next (length (notes_of events)) ∧
  next' = next + length (notes_of events) ∧
  (∀ r, r < next → h' r = h r) ∧
  Forall2 (fun r p => made_of_ (h' r) p) (seq next (length (notes_of events)))
          (notes_of events).
Proof.
  induction events as [|event events IH]; intros h next words res h' next' Hrun.
  - simpl in Hrun. injection Hrun as <- <- <-. simpl.
    rewrite app_nil_r, Nat.add_0_r. repeat split; try done.
  - simpl in Hrun. simpl notes_of. destruct (element event) as [el|]; [|by apply IH].
    destruct (lyric el) as [[|c text]|] eqn:Hly; try done.
    apply IH in Hrun as (-> & -> & Hold & Hall). simpl length. simpl seq.
    split; [by rewrite <- app_assoc|]. split; [lia|]. split.
    + intros r Hr. rewrite Hold by lia. apply fn_lookup_insert_ne. lia.
    + constructor; [|done]. rewrite Hold by lia. rewrite fn_lookup_insert.
      exists (String c text). simpl. by rewrite Hly.
Qed.

Lemma extract_loop_Err events : ∀ h next words e,
  extract_loop_ h next words events = Err e →
  ∃ pre ev el post,
    notes_of events = pre ++ (ev, el) :: post ∧
    Forall (fun p => ¬ lyric_missing (snd p)) pre ∧
    lyric_missing el ∧ e = ValueError_lyric (offset el) (frequency el).
Proof.
  induction events as [|event events IH]; intros h next words e Hrun; [done|].
  simpl in Hrun. simpl notes_of. destruct (element event) as [el|]; [|by eapply IH].
  destruct (lyric el) as [[|c text]|] eqn:Hly.
  - injection Hrun as <-. exists [], event, el, (notes_of events).
    repeat split; try done. by right.
  - apply IH in Hrun as (pre & ev & el' & post & -> & Hpre & Hmiss & ->).
    exists ((event, el) :: pre), ev, el', post. repeat split; try done.
    constructor; [|done]. simpl. intros [H|H]; by rewrite Hly in H.
  - injection Hrun as <-. exists [], event, el, (notes_of events).
    repeat split; try done. by left.
Qed.

Lemma made_of_not_missing w p : made_of_ w p → ¬ lyric_missing (snd p).
Proof.
  intros (text & Hly & Hne & _) [H|H]; rewrite Hly in H; [done|]. by injection H.
Qed.


(** X4. [_extract_words] raises exactly when some [Note] event has no lyric
    ([None] or the empty string); the error names the first such note.
    Events that are not notes never make it raise. *)
Theorem extract_words_raises_iff_lyric_missing h next events :
  ((∃ e, extract_words h next events = Err e) ↔
   Exists (fun p => lyric_missing (snd p)) (notes_of events)) ∧
  (∀ e, extract_words h next events = Err e →
     ∃ pre ev el post,
       notes_of events = pre ++ (ev, el) :: post ∧
       Forall (fun p => ¬ lyric_missing (snd p)) pre ∧
       lyric_missing el ∧ e = ValueError_lyric (offset el) (frequency el)).
Proof.
  split; [|intros e; apply extract_loop_Err]. split.
  - intros [e (pre & ev & el & post & -> & _ & Hmiss & _)%extract_loop_Err].
    apply Exists_app. right. by constructor.
  - intros Hex. destruct (extract_words h next events) as [[[words h'] next']|e] eqn:Hrun;
      [|by exists e].
    exfalso. apply extract_loop_Ok in Hrun as (_ & _ & _ & Hall).
    apply Exists_exists in Hex as (p & Hp & Hmiss).
    apply list_elem_of_lookup in Hp as [i Hi].
    destruct (Forall2_lookup_r _ _ _ _ _ Hall Hi) as (r & _ & Hmade).
    by apply made_of_not_missing in Hmade.
Qed.

Lemma process_part_Ok h next part track h' next' :
  process_part h next part = Ok (track, h', next') →
  notes_of (secondsMap part) ≠ [] ∧
  next' = next + length (notes_of (secondsMap part)) ∧
  words_of_track track = seq next (length (notes_of (secondsMap part))) ∧
  (∀ r, r < next → h' r = h r) ∧
  Forall2 (fun r p => decoded_as convert (h' r) p)
          (seq next (length (notes_of (secondsMap part))))
          (notes_of (secondsMap part)) ∧
  (∀ s i a b, s ∈ sectionList track →
     wordList s !! i = Some a → wordList s !! S i = Some b →
     end_ (time (h' a)) = start (time (h' b))) ∧
  (∀ s k ev el, s ∈ sectionList track →
     last (wordList s) = Some (next + k) →
     notes_of (secondsMap part) !! k = Some (ev, el) →
     end_ (time (h' (next + k))) = (offsetSeconds ev + durationSeconds ev)%Q).
Proof.
  unfold _process_part. intros Hrun.
  destruct (_extract_words _ _ _ h next (secondsMap part))
    as [[[words h1] next1]|e] eqn:Hext; [|done].
  simpl in Hrun.
  apply extract_loop_Ok in Hext as (Hw & -> & Hold & Hall). simpl in Hw. subst words.
  set (notes := notes_of (secondsMap part)) in *.
  assert (notes ≠ []) as Hne by (intros Hn; by rewrite Hn in Hrun).
  destruct (seq next (length notes)) as [|w0 rest] eqn:Hseq;
    [by destruct notes|].
  destruct (_group_words_to_sections h1 (w0 :: rest))
    as [[sections h2]|e] eqn:Hgrp; [|done].
  simpl in Hrun. injection Hrun as <- <- <-.
  rewrite <- Hseq in *. clear Hseq.
  apply group_words_to_sections_OK in Hgrp as Hseg; [|apply NoDup_seq].
  split; [done|]. split; [done|].
  split; [apply (seg_concat _ _ _ _ Hseg)|]. split.
  { intros r Hr. rewrite (seg_outside _ _ _ _ Hseg); [by apply Hold|].
    rewrite list_elem_of_In, in_seq. lia. }
  split.
  { eapply Forall2_impl; [exact Hall|]. intros r p (text & Hly & _ & Hw).
    exists text. split; [done|].
    rewrite (seg_frame _ _ _ _ Hseg r) at 1. by rewrite Hw. }
  split.
  { intros s i a b Hs Ha Hb.
    rewrite (seg_normal _ _ _ _ Hseg s a b Hs (ex_intro _ i (conj Ha Hb))).
    symmetry. apply only_ends_differ_start, (seg_frame _ _ _ _ Hseg). }
  intros s k ev el Hs Hlast Hk.
  rewrite (seg_last _ _ _ _ Hseg s _ Hs Hlast).
  destruct (Forall2_lookup_r _ _ _ _ _ Hall Hk) as (r & Hr & (text & _ & _ & Hw)).
  apply lookup_seq in Hr as [-> _]. by rewrite Hw.
Qed.

Lemma process_part_Err h next part e :
  process_part h next part = Err e →
  (∃ pre ev el post,
     notes_of (secondsMap part) = pre ++ (ev, el) :: post ∧
     Forall (fun p => ¬ lyric_missing (snd p)) pre ∧ lyric_missing el ∧
     e = ValueError_lyric (offset el) (frequency el)) ∨
  (notes_of (secondsMap part) = [] ∧ e = ValueError_no_words) ∨
  (Forall (fun p => ¬ lyric_missing (snd p)) (notes_of (secondsMap part)) ∧
   ∃ j i ev1 el1 ev2 el2,
     notes_of (secondsMap part) !! j = Some (ev1, el1) ∧
     notes_of (secondsMap part) !! S j = Some (ev2, el2) ∧
     (TIME_TOLERANCE < offsetSeconds ev1 + durationSeconds ev1 - offsetSeconds ev2)%Q ∧
     e = Raised (ValueError_overlap i (offsetSeconds ev1 + durationSeconds ev1)
                                      (offsetSeconds ev2))).
Proof.
  unfold _process_part. intros Hrun.
  destruct (_extract_words _ _ _ h next (secondsMap part))
    as [[[words h1] next1]|e'] eqn:Hext.
  - simpl in Hrun.
    apply extract_loop_Ok in Hext as (Hw & -> & Hold & Hall). simpl in Hw. subst words.
    set (notes := notes_of (secondsMap part)) in *.
    destruct (seq next (length notes)) as [|w0 rest] eqn:Hseq.
    { right. left. simpl in Hrun. injection Hrun as <-.
      split; [|done]. by destruct notes. }
    right. right.
    destruct (_group_words_to_sections h1 (w0 :: rest))
      as [[sections h2]|e0] eqn:Hgrp; simpl in Hrun; [done|].
    injection Hrun as <-.
    assert (NoDup (w0 :: rest)) as Hnd by (rewrite <- Hseq; apply NoDup_seq).
    apply (group_loop_Raise rest h1 [] [w0]) in Hgrp
      as (k & i & a & b & Ha & Hb & Hlt & -> & _);
      [|done|exact Hnd|by intros ? ? []%adjacent_single].
    change ([w0] ++ rest) with (w0 :: rest) in Ha, Hb. rewrite <- Hseq in Ha, Hb, Hall.
    split.
    { apply Forall_lookup. intros j p Hp.
      destruct (Forall2_lookup_r _ _ _ _ _ Hall Hp) as (r & _ & Hmade).
      by apply made_of_not_missing in Hmade. }
    apply lookup_seq in Ha as [-> Hka]. apply lookup_seq in Hb as [-> Hkb].
    destruct (lookup_lt_is_Some_2 notes (k + i) Hka) as [[ev1 el1] H1].
    destruct (lookup_lt_is_Some_2 notes (S (k + i)) Hkb) as [[ev2 el2] H2].
    destruct (Forall2_lookup_r _ _ _ _ _ Hall H1) as (r1 & Hr1 & (t1 & _ & _ & Hw1)).
    destruct (Forall2_lookup_r _ _ _ _ _ Hall H2) as (r2 & Hr2 & (t2 & _ & _ & Hw2)).
    apply lookup_seq in Hr1 as [-> _]. apply lookup_seq in Hr2 as [-> _].
    rewrite Hw1, Hw2 in *. simpl in *.
    exists (k + i), i, ev1, el1, ev2, el2. done.
  - simpl in Hrun. injection Hrun as <-. left.
    by apply extract_loop_Err in Hext.
Qed.

(** The segmenter returns on distinct words only when no two consecutive
    words overlap by more than the tolerance. *)
Lemma group_words_OK_no_overlap h words secs h' i a b :
  NoDup words → _group_words_to_sections h words = OK (secs, h') →
  words !! i = Some a → words !! S i = Some b →
  (en h a - st h b <= TIME_TOLERANCE)%Q.
Proof.
  intros Hnd Hrun Ha Hb.
  apply group_words_to_sections_OK in Hrun as Hseg; [|done].
  rewrite <- (seg_concat _ _ _ _ Hseg) in Ha, Hb.
  destruct (ListFacts.adjacent_concat _ _ _ _ (seg_nonempty _ _ _ _ Hseg) Ha Hb)
    as [(l & k & Hl & Hk1 & Hk2)|(j & p & q & Hp & Hq & Hlast & Hhd)].
  - apply list_elem_of_fmap in Hl as (s & -> & Hs).
    apply (seg_no_overlap _ _ _ _ Hseg s a b Hs (ex_intro _ k (conj Hk1 Hk2))).
  - rewrite list_lookup_fmap in Hp, Hq.
    destruct (secs !! j) as [sp|] eqn:Hsp; [|done].
    destruct (secs !! S j) as [sq|] eqn:Hsq; [|done].
    simpl in Hp, Hq. injection Hp as <-. injection Hq as <-.
    pose proof (seg_boundary _ _ _ _ Hseg j sp sq a b Hsp Hsq Hlast Hhd) as Hgap.
    unfold TIME_TOLERANCE in *. lra.
Qed.


(** X6. [_process_part] fails in three ways and no other: the first note
    without lyric, a part without any note, or, all notes having a lyric,
    two consecutive notes of the part of which the first ends more than the
    tolerance after the second begins. *)
Theorem process_part_failures h next part e :
  process_part h next part = Err e →
  (∃ pre ev el post,
     notes_of (secondsMap part) = pre ++ (ev, el) :: post ∧
     Forall (fun p => ¬ lyric_missing (snd p)) pre ∧ lyric_missing el ∧
     e = ValueError_lyric (offset el) (frequency el)) ∨
  (notes_of (secondsMap part) = [] ∧ e = ValueError_no_words) ∨
  (Forall (fun p => ¬ lyric_missing (snd p)) (notes_of (secondsMap part)) ∧
   ∃ j i ev1 el1 ev2 el2,
     notes_of (secondsMap part) !! j = Some (ev1, el1) ∧
     notes_of (secondsMap part) !! S j = Some (ev2, el2) ∧
     (TIME_TOLERANCE < offsetSeconds ev1 + durationSeconds ev1 - offsetSeconds ev2)%Q ∧
     e = Raised (ValueError_overlap i (offsetSeconds ev1 + durationSeconds ev1)
                                      (offsetSeconds ev2))).
Proof. apply process_part_Err. Qed.

Lemma process_part_Ok_iff h next part :
  (∃ track h' next', process_part h next part = Ok (track, h', next')) ↔ singable part.
Proof.
  split.
  - intros (track & h' & next' & Hrun). unfold _process_part in Hrun.
    destruct (_extract_words _ _ _ h next (secondsMap part))
      as [[[words h1] next1]|e] eqn:Hext; [|done].
    simpl in Hrun.
    apply extract_loop_Ok in Hext as (Hw & -> & Hold & Hall). simpl in Hw. subst words.
    unfold singable.
    set (notes := notes_of (secondsMap part)) in *.
    assert (notes ≠ []) as Hne by (intros Hn; by rewrite Hn in Hrun).
    split; [done|]. split.
    { apply Forall_lookup. intros j p Hp.
      destruct (Forall2_lookup_r _ _ _ _ _ Hall Hp) as (r & _ & Hmade).
      by apply made_of_not_missing in Hmade. }
    intros j ev1 el1 ev2 el2 H1 H2.
    destruct (seq next (length notes)) as [|w0 rest] eqn:Hseq;
      [by destruct notes|].
    destruct (_group_words_to_sections h1 (w0 :: rest))
      as [[sections h2]|e] eqn:Hgrp; [|done].
    rewrite <- Hseq in *.
    destruct (Forall2_lookup_r _ _ _ _ _ Hall H1) as (r1 & Hr1 & (t1 & _ & _ & Hw1)).
    destruct (Forall2_lookup_r _ _ _ _ _ Hall H2) as (r2 & Hr2 & (t2 & _ & _ & Hw2)).
    pose proof (group_words_OK_no_overlap _ _ _ _ _ _ _ (NoDup_seq _ _) Hgrp Hr1 Hr2)
      as Hno.
    by rewrite Hw1, Hw2 in Hno.
  - intros (Hne & Hly & Hno).
    destruct (process_part h next part) as [[[track h'] next']|e] eqn:Hrun;
      [by eexists _, _, _|].
    exfalso. apply process_part_Err in Hrun
      as [(pre & ev & el & post & Hn & _ & Hmiss & _)
         |[[Hn _]|(_ & j & i & ev1 & el1 & ev2 & el2 & H1 & H2 & Hlt & _)]].
    + rewrite Hn in Hly. apply Forall_app in Hly as [_ Hly].
      by apply Forall_cons in Hly as [Hel _].
    + done.
    + pose proof (Hno j ev1 el1 ev2 el2 H1 H2). lra.
Qed.

(** X7. [_process_part] returns a track exactly for a part that has a note,
    whose notes all have a lyric, and in which no note ends more than the
    tolerance after the next one begins; whatever objects exist already. *)
Theorem process_part_accepts h next part :
  (∃ track h' next', process_part h next part = Ok (track, h', next')) ↔
  notes_of (secondsMap part) ≠ [] ∧
  Forall (fun p => ¬ lyric_missing (snd p)) (notes_of (secondsMap part)) ∧
  (∀ j ev1 el1 ev2 el2,
     notes_of (secondsMap part) !! j = Some (ev1, el1) →
     notes_of (secondsMap part) !! S j = Some (ev2, el2) →
     (offsetSeconds ev1 + durationSeconds ev1 - offsetSeconds ev2 <= TIME_TOLERANCE)%Q).
Proof. apply process_part_Ok_iff. Qed.

Lemma decode_parts_Ok parts : ∀ h next acc tracks h' next',
  decode_parts get_pinyin unicode_lower unicode_sub_digits h next acc parts
    = Ok (tracks, h', next') →
  ∃ new,
    tracks = acc ++ new ∧
    Forall2 (fun track part =>
               length (words_of_track track) = length (notes_of (secondsMap part)) ∧
               notes_of (secondsMap part) ≠ [])
            new parts ∧
    words_of_tracks new = seq next (length (notes_of_parts parts)) ∧
    next' = next + length (notes_of_parts parts) ∧
    (∀ r, r < next → h' r = h r) ∧
    Forall2 (fun r p => decoded_as convert (h' r) p)
            (seq next (length (notes_of_parts parts))) (notes_of_parts parts) ∧
    Forall (fun track =>
              ∀ s i a b, s ∈ sectionList track →
                wordList s !! i = Some a → wordList s !! S i = Some b →
                end_ (time (h' a)) = start (time (h' b)))
           new.
Proof.
  induction parts as [|part parts IH]; intros h next acc tracks h' next' Hrun.
  - simpl in Hrun. injection Hrun as <- <- <-. exists [].
    rewrite app_nil_r. unfold notes_of_parts. simpl. rewrite Nat.add_0_r.
    repeat split; try done; constructor.
  - simpl in Hrun.
    destruct (_process_part _ _ _ h next part) as [[[track h1] next1]|e] eqn:Hpart;
      [|done].
    apply process_part_Ok in Hpart as (Hne & -> & Hwords & Hold1 & Hall1 & Hnorm1 & _).
    apply IH in Hrun as (new & -> & Hlen & Hws & -> & Hold & Hall & Hnorm).
    exists (track :: new).
    assert (notes_of_parts (part :: parts)
            = notes_of (secondsMap part) ++ notes_of_parts parts) as -> by done.
    set (n1 := length (notes_of (secondsMap part))) in *.
    rewrite length_app. fold n1. rewrite seq_app.
    assert (∀ r, r ∈ words_of_track track → r < next + n1) as Hin.
    { intros r. rewrite Hwords, list_elem_of_In, in_seq. lia. }
    split; [by rewrite <- app_assoc|]. split.
    { constructor; [|done]. split; [|done]. by rewrite Hwords, length_seq. }
    split.
    { unfold words_of_tracks in *. simpl. by rewrite Hwords, Hws. }
    split; [lia|]. split.
    { intros r Hr. rewrite Hold by lia. by apply Hold1. }
    split.
    { apply Forall2_app; [|done].
      apply Forall2_same_length_lookup_2; [by eapply Forall2_length|].
      intros i r p Hr Hp.
      pose proof (Forall2_lookup_lr _ _ _ _ _ _ Hall1 Hr Hp) as (text & Hly & Hw).
      apply lookup_seq in Hr as [-> Hi].
      exists text. split; [done|]. rewrite Hold by lia. done. }
    constructor; [|done].
    intros s i a b Hs Ha Hb.
    assert (a ∈ words_of_track track ∧ b ∈ words_of_track track) as [Hain Hbin].
    { split; apply ListFacts.elem_of_concat; exists (wordList s);
        (split; [by apply list_elem_of_fmap_2|]); by eapply list_elem_of_lookup_2. }
    rewrite !Hold by (by apply Hin). by eapply Hnorm1.
Qed.

Lemma decode_parts_Err parts : ∀ h next acc e,
  decode_parts get_pinyin unicode_lower unicode_sub_digits h next acc parts = Err e →
  ∃ pre part post tracks hp nextp cause,
    parts = pre ++ part :: post ∧
    decode_parts get_pinyin unicode_lower unicode_sub_digits h next acc pre
      = Ok (tracks, hp, nextp) ∧
    process_part hp nextp part = Err cause ∧
    e = RuntimeError_part (part_id part) cause.
Proof.
  induction parts as [|part parts IH]; intros h next acc e Hrun; [done|].
  simpl in Hrun.
  destruct (_process_part _ _ _ h next part) as [[[track h1] next1]|e'] eqn:Hpart.
  - apply IH in Hrun as (pre & p & post & tracks & hp & nextp & cause & -> & Hpre & Hp & ->).
    exists (part :: pre), p, post, tracks, hp, nextp, cause.
    split; [done|]. split; [|done]. simpl. by rewrite Hpart.
  - injection Hrun as <-. by exists [], part, parts, acc, h, next, e'.
Qed.

(** X8. The loop of [decode_score] gives the song one track per part, in the
    order of the parts.  The words of the song are new, pairwise distinct
    objects, one per [Note] event, in the order of the parts and of their
    events; each carries the pitch, start and converted lyric of its note
    and no wave; in every section a word ends where the next begins; and no
    object that existed before is touched. *)
Theorem decode_score_makes_one_word_per_note h next parts tracks h' next' :
  decode_parts get_pinyin unicode_lower unicode_sub_digits h next [] parts
    = Ok (tracks, h', next') →
  Forall2 (fun track part =>
             length (words_of_track track) = length (notes_of (secondsMap part)) ∧
             notes_of (secondsMap part) ≠ [])
          tracks parts ∧
  words_of_tracks tracks = seq next (length (notes_of_parts parts)) ∧
  NoDup (words_of_tracks tracks) ∧
  (∀ r, r < next → h' r = h r) ∧
  Forall2 (fun r p => decoded_as convert (h' r) p)
          (words_of_tracks tracks) (notes_of_parts parts) ∧
  (∀ track s i a b, track ∈ tracks → s ∈ sectionList track →
     wordList s !! i = Some a → wordList s !! S i = Some b →
     end_ (time (h' a)) = start (time (h' b))).
Proof.
  intros (new & -> & Hlen & Hws & _ & Hold & Hall & Hnorm)%decode_parts_Ok.
  simpl. split; [done|]. split; [done|]. split; [rewrite Hws; apply NoDup_seq|].
  split; [done|]. split; [by rewrite Hws|].
  intros track s i a b Htrack. revert s i a b.
  by apply (proj1 (Forall_forall _ _) Hnorm).
Qed.

Lemma decode_parts_Ok_singable parts : ∀ h next acc tracks h' next',
  decode_parts get_pinyin unicode_lower unicode_sub_digits h next acc parts
    = Ok (tracks, h', next') →
  Forall singable parts.
Proof.
  induction parts as [|part parts IH]; intros h next acc tracks h' next' Hrun; [done|].
  simpl in Hrun.
  destruct (_process_part _ _ _ h next part) as [[[track h1] next1]|e] eqn:Hpart;
    [|done].
  constructor; [|by eapply IH].
  apply (process_part_Ok_iff h next). by eexists _, _, _.
Qed.

Lemma decode_parts_total parts : ∀ h next acc,
  Forall singable parts →
  ∃ tracks h' next',
    decode_parts get_pinyin unicode_lower unicode_sub_digits h next acc parts
      = Ok (tracks, h', next').
Proof.
  induction parts as [|part parts IH]; intros h next acc Hall; [by eexists _, _, _|].
  apply Forall_cons in Hall as [Hpart Hall]. simpl.
  apply (process_part_Ok_iff h next) in Hpart as (track & h1 & next1 & ->).
  by apply IH.
Qed.

(** X9. The loop of [decode_score] returns exactly when every part has a note,
    a lyric on every note, and no two consecutive notes that overlap by more
    than the tolerance. *)
Theorem decode_score_accepts h next parts :
  (∃ tracks h' next',
     decode_parts get_pinyin unicode_lower unicode_sub_digits h next [] parts
       = Ok (tracks, h', next')) ↔
  Forall singable parts.
Proof.
  split.
  - intros (tracks & h' & next' & Hrun). by eapply decode_parts_Ok_singable.
  - apply decode_parts_total.
Qed.

(** X10. The loop of [decode_score] raises nothing but a [RuntimeError] that
    names a part: the first part, in order, that the decoder does not take.
    The error keeps the cause, which is the first note without lyric, or
    that the part has no note, or an overlap of two consecutive notes. *)
Theorem decode_score_failure_names_the_part h next parts e :
  decode_parts get_pinyin unicode_lower unicode_sub_digits h next [] parts = Err e →
  ∃ pre part post cause,
    parts = pre ++ part :: post ∧
    Forall singable pre ∧ ¬ singable part ∧
    e = RuntimeError_part (part_id part) cause ∧
    ((∃ before ev el after,
        notes_of (secondsMap part) = before ++ (ev, el) :: after ∧
        Forall (fun p => ¬ lyric_missing (snd p)) before ∧ lyric_missing el ∧
        cause = ValueError_lyric (offset el) (frequency el)) ∨
     (notes_of (secondsMap part) = [] ∧ cause = ValueError_no_words) ∨
     (∃ j i ev1 el1 ev2 el2,
        notes_of (secondsMap part) !! j = Some (ev1, el1) ∧
        notes_of (secondsMap part) !! S j = Some (ev2, el2) ∧
        (TIME_TOLERANCE
         < offsetSeconds ev1 + durationSeconds ev1 - offsetSeconds ev2)%Q ∧
        cause = Raised (ValueError_overlap i (offsetSeconds ev1 + durationSeconds ev1)
                                             (offsetSeconds ev2)))).
Proof.
  intros (pre & part & post & tracks & hp & nextp & cause & -> & Hpre & Hpart & ->)
    %decode_parts_Err.
  exists pre, part, post, cause. split; [done|].
  split; [by eapply decode_parts_Ok_singable|]. split.
  { intros (track & h' & next' & Hok)%(process_part_Ok_iff hp nextp).
    by rewrite Hok in Hpart. }
  split; [done|].
  apply process_part_Err in Hpart as [Hly|[Hnone|(_ & Hover)]]; auto.
Qed.

End Extraction.



Lemma process_part_failures_witness :
  _process_part (fun s => s) (fun s => s) (fun s => s) empty_heap 0 overlapping_part
    = Err (Raised (ValueError_overlap 0 1 (1 # 2))) ∧
  ∃ j i ev1 el1 ev2 el2,
    notes_of (secondsMap overlapping_part) !! j = Some (ev1, el1) ∧
    notes_of (secondsMap overlapping_part) !! S j = Some (ev2, el2) ∧
    (TIME_TOLERANCE < offsetSeconds ev1 + durationSeconds ev1 - offsetSeconds ev2)%Q ∧
    Raised (ValueError_overlap 0 1 (1 # 2))
    = Raised (ValueError_overlap i (offsetSeconds ev1 + durationSeconds ev1)
                                   (offsetSeconds ev2)).
Proof.
  assert (_process_part (fun s => s) (fun s => s) (fun s => s) empty_heap 0
            overlapping_part = Err (Raised (ValueError_overlap 0 1 (1 # 2)))) as Hrun
    by (vm_compute; reflexivity).
  split; [exact Hrun|].
  destruct (process_part_failures (fun s => s) (fun s => s) (fun s => s)
              empty_heap 0 overlapping_part _ Hrun)
    as [(pre & ev & el & post & _ & _ & _ & He)|[[_ He]|[_ Hover]]];
    [discriminate He|discriminate He|exact Hover].
Defined.

Lemma decode_score_makes_one_word_per_note_witness :
  ∃ tracks h',
    decode_parts (fun s => s) (fun s => s) (fun s => s) empty_heap 0 []
      [two_note_part; two_note_part] = Ok (tracks, h', 4) ∧
    words_of_tracks tracks = [0; 1; 2; 3] ∧ NoDup (words_of_tracks tracks).
Proof.
  eexists _, _. split; [vm_compute; reflexivity|].
  edestruct (decode_score_makes_one_word_per_note (fun s => s) (fun s => s) (fun s => s)
               empty_heap 0 [two_note_part; two_note_part])
    as (_ & Hws & Hnd & _); [vm_compute; reflexivity|].
  split; [exact Hws|exact Hnd].
Defined.

Lemma decode_score_failure_names_the_part_witness :
  decode_parts (fun s => s) (fun s => s) (fun s => s) empty_heap 0 []
    [two_note_part; silent_part; unsung_part]
  = Err (RuntimeError_part "P3" ValueError_no_words) ∧
  ∃ pre part post,
    [two_note_part; silent_part; unsung_part] = pre ++ part :: post ∧
    Forall singable pre ∧ ¬ singable part.
Proof.
  assert (decode_parts (fun s => s) (fun s => s) (fun s => s) empty_heap 0 []
            [two_note_part; silent_part; unsung_part]
          = Err (RuntimeError_part "P3" ValueError_no_words)) as Hrun
    by (vm_compute; reflexivity).
  split; [exact Hrun|].
  destruct (decode_score_failure_names_the_part (fun s => s) (fun s => s) (fun s => s)
              empty_heap 0 [two_note_part; silent_part; unsung_part] _ Hrun)
    as (pre & part & post & cause & Hparts & Hpre & Hpart & _).
  by exists pre, part, post.
Defined.

End ExtractionProps.

(** ** The stages over a whole song *)

Module SongProps.
Import FlorenceCoder SongStages SpeakGenerateor Vocabulary2 Samples Samples2.

Lemma foldl_concat {A B : Type} (f : A → B → A) (ls : list (list B)) : ∀ a,
  foldl f a (concat ls) = foldl (fun a l => foldl f a l) a ls.
Proof.
  induction ls as [|l ls IH]; intros a; [done|].
  simpl. by rewrite foldl_app, IH.
Qed.

Lemma foldl_fmap' {A B C : Type} (f : A → B → A) (g : C → B) (l : list C) : ∀ a,
  foldl f a (map g l) = foldl (fun a c => f a (g c)) a l.
Proof. induction l as [|c l IH]; intros a; [done|]. simpl. apply IH. Qed.

Section Coder.

Context {Envelope Aperiodicity : Type}.
Variable pw : World Envelope Aperiodicity.
Variable astype : dtype → Q → Q.
Variable context : Context.
Variable frame_period : Q.

Abbreviation process_word := (_process_word pw astype context frame_period).
Abbreviation process_song_ := (process_song pw astype context frame_period).

Lemma process_word_frame word :
  pitch (process_word word) = pitch word ∧ time (process_word word) = time word ∧
  lrc (process_word word) = lrc word ∧ oriWave (process_word word) = oriWave word.
Proof.
  unfold _process_word. destruct (oriWave word) as [audio|] eqn:Hori; [|done].
  destruct (length audio =? 0); [done|].
  destruct (pitch word) as [p|] eqn:Hp; [|done].
  destruct (Qle_bool p 0); [done|].
  by destruct (_shift_pitch _ _ _ _ _ _).
Qed.

Lemma process_word_idem word : process_word (process_word word) = process_word word.
Proof.
  unfold _process_word at 2 3.
  destruct (oriWave word) as [audio|] eqn:Hori;
    [|by unfold _process_word; rewrite Hori].
  destruct (length audio =? 0) eqn:Hlen;
    [by unfold _process_word; rewrite Hori, Hlen|].
  destruct (pitch word) as [p|] eqn:Hp;
    [|by unfold _process_word; rewrite Hori, Hlen, Hp].
  destruct (Qle_bool p 0) eqn:Hle;
    [by unfold _process_word; rewrite Hori, Hlen, Hp, Hle|].
  destruct (_shift_pitch _ _ _ _ _ _) as [y|e] eqn:Hshift;
    unfold _process_word; simpl; by rewrite Hori, Hlen, Hp, Hle, Hshift.
Qed.

Lemma process_words_lookup words : ∀ h r,
  process_words pw astype context frame_period h words r
  = if decide (r ∈ words) then process_word (h r) else h r.
Proof.
  unfold process_words.
  induction words as [|w words IH]; intros h r.
  - cbn [foldl]. by rewrite decide_False by apply not_elem_of_nil.
  - cbn [foldl]. rewrite IH. destruct (decide (r = w)) as [->|Hne].
    + rewrite fn_lookup_insert, (decide_True _ _ (list_elem_of_here w words)).
      destruct (decide (w ∈ words)); [apply process_word_idem|done].
    + rewrite fn_lookup_insert_ne by done.
      destruct (decide (r ∈ words)) as [Hin|Hnin].
      * by rewrite decide_True by (by right).
      * rewrite decide_False; [done|]. by intros [?|?]%elem_of_cons.
Qed.

Lemma process_sections_words h sections :
  SongStages.process_sections pw astype context frame_period h sections
  = process_words pw astype context frame_period h (concat (map wordList sections)).
Proof.
  unfold SongStages.process_sections, process_words.
  by rewrite foldl_concat, foldl_fmap'.
Qed.

Lemma process_song_words h song :
  process_song_ h song = process_words pw astype context frame_period h (words_of_song song).
Proof.
  unfold process_song, words_of_song, words_of_tracks.
  generalize (trackList song). intros tracks. revert h.
  induction tracks as [|t tracks IH]; intros h; [done|].
  cbn [foldl map concat]. rewrite IH, process_sections_words.
  unfold process_words, words_of_track. by rewrite foldl_app.
Qed.

(** X11. Calling [_process_word] again on a word changes nothing, and the call
    writes [pitchedWave] only: pitch, time, lyric and [oriWave] stay. *)
Theorem process_word_twice word :
  let word' := _process_word pw astype context frame_period word in
  _process_word pw astype context frame_period word' = word' ∧
  pitch word' = pitch word ∧ time word' = time word ∧
  lrc word' = lrc word ∧ oriWave word' = oriWave word.
Proof. cbv zeta. split; [apply process_word_idem|apply process_word_frame]. Qed.

(** X12. After [process_song] every word of the song is as one call of
    [_process_word] leaves it, also a word that the song lists more than
    once, and every other object is as before.  So a word of the song that
    has a non-empty [oriWave] and a positive pitch has a [pitchedWave] of
    the length of its [oriWave]. *)
Theorem process_song_shifts_every_word h song r :
  (r ∈ words_of_song song → process_song_ h song r = process_word (h r)) ∧
  (r ∉ words_of_song song → process_song_ h song r = h r) ∧
  oriWave (process_song_ h song r) = oriWave (h r) ∧
  (r ∈ words_of_song song →
   ∀ audio p, oriWave (h r) = Some audio → audio ≠ [] →
              pitch (h r) = Some p → (0 < p)%Q →
              ∃ y, pitchedWave (process_song_ h song r) = Some y ∧
                   length y = length audio).
Proof.
  rewrite process_song_words, process_words_lookup.
  split; [intros Hin; by rewrite decide_True|].
  split; [intros Hnin; by rewrite decide_False|].
  split; [destruct (decide _); [apply process_word_frame|done]|].
  intros Hin audio p Hori Hne Hp Hpos. rewrite decide_True by done.
  rewrite (CoderProps.process_word_shifts _ _ _ _ _ _ _ Hori Hne Hp Hpos).
  destruct (_shift_pitch _ _ _ _ _ _) as [y|e] eqn:Hshift; [|by eexists].
  exists y. split; [done|]. by eapply CoderProps.shift_pitch_length.
Qed.

End Coder.

Section Speech.

Variable tts_engine : TTSEngine.

Abbreviation speak := (generate_single_word_speech tts_engine).
Abbreviation process_section := (_process_section tts_engine).

Lemma process_section_app l1 : ∀ h l2,
  process_section h (l1 ++ l2)
  = (do h' <- process_section h l1; process_section h' l2)%res.
Proof.
  induction l1 as [|w l1 IH]; intros h l2; [done|].
  simpl. destruct (speak (lrc (h w))) as [wave|e]; [simpl|done]. apply IH.
Qed.

Lemma speech_sections_words sections : ∀ h,
  SpeakGenerateor.process_sections tts_engine h sections
  = process_section h (concat (map wordList sections)).
Proof.
  induction sections as [|s sections IH]; intros h; [done|].
  simpl. rewrite process_section_app.
  destruct (process_section h (wordList s)) as [h'|e]; [simpl|done]. apply IH.
Qed.

Lemma generate_song_speech_words h song :
  generate_song_speech tts_engine h song = process_section h (words_of_song song).
Proof.
  unfold generate_song_speech, words_of_song, words_of_tracks.
  generalize (trackList song). intros tracks. revert h.
  induction tracks as [|t tracks IH]; intros h; [done|].
  simpl. rewrite process_section_app, speech_sections_words.
  destruct (process_section h _) as [h'|e]; [simpl|done]. apply IH.
Qed.

Lemma process_section_Ok words : ∀ h h',
  process_section h words = Ok h' →
  ∀ r, (r ∈ words → spoken tts_engine (h r) (h' r)) ∧ (r ∉ words → h' r = h r).
Proof.
  induction words as [|w words IH]; intros h h' Hrun r.
  - injection Hrun as <-. split; [by intros ?%elem_of_nil|done].
  - simpl in Hrun. destruct (speak (lrc (h w))) as [wave|e] eqn:Hspeak; [|done].
    simpl in Hrun. destruct (IH _ _ Hrun r) as [Hin Hnin].
    destruct (decide (r = w)) as [->|Hne].
    + rewrite fn_lookup_insert in Hin, Hnin.
      split; [|by intros []; left]. intros _.
      destruct (decide (w ∈ words)) as [Hw|Hw].
      * destruct (Hin Hw) as (wave' & Hs & ->). exists wave'. by split.
      * rewrite (Hnin Hw). by exists wave.
    + rewrite fn_lookup_insert_ne in Hin, Hnin by done. split.
      * intros [?|?]%elem_of_cons; [done|by apply Hin].
      * intros Hn. apply Hnin. intros ?. apply Hn. by right.
Qed.

Lemma process_section_Err words : ∀ h e,
  process_section h words = Err e →
  ∃ pre r post, words = pre ++ r :: post ∧ speak (lrc (h r)) = Err e ∧
                Forall (fun r' => ∃ wave, speak (lrc (h r')) = Ok wave) pre.
Proof.
  induction words as [|w words IH]; intros h e Hrun; [done|].
  simpl in Hrun. destruct (speak (lrc (h w))) as [wave|e'] eqn:Hspeak.
  - simpl in Hrun. apply IH in Hrun as (pre & r & post & -> & Hr & Hpre).
    assert (∀ r', lrc ((<[w := set_oriWave (h w) wave]> h) r') = lrc (h r')) as Hlrc.
    { intros r'. destruct (decide (r' = w)) as [->|?];
        [by rewrite fn_lookup_insert|by rewrite fn_lookup_insert_ne]. }
    exists (w :: pre), r, post. split; [done|]. split; [by rewrite <- Hlrc|].
    constructor; [by exists wave|].
    eapply Forall_impl; [exact Hpre|]. intros r' [wave' Hw]. exists wave'.
    by rewrite <- Hlrc.
  - injection Hrun as <-. by exists [], w, words.
Qed.

(** X13. When [generate_song_speech] returns, every word of the song has as
    [oriWave] the wave that the engine gives for its lyric, and is otherwise
    as before; every object outside the song is as before. *)
Theorem generate_song_speech_fills_every_word h song h' :
  generate_song_speech tts_engine h song = Ok h' →
  ∀ r, (r ∈ words_of_song song →
        ∃ wave, speak (lrc (h r)) = Ok wave ∧ oriWave (h' r) = Some wave ∧
                pitch (h' r) = pitch (h r) ∧ time (h' r) = time (h r) ∧
                lrc (h' r) = lrc (h r) ∧ pitchedWave (h' r) = pitchedWave (h r)) ∧
       (r ∉ words_of_song song → h' r = h r).
Proof.
  rewrite generate_song_speech_words. intros Hrun r.
  destruct (process_section_Ok _ _ _ Hrun r) as [Hin Hnin].
  split; [|done]. intros (wave & Hs & ->)%Hin. by exists wave.
Qed.

(** X14. [generate_song_speech] raises exactly when the engine raises on the
    lyric of some word of the song, and then it raises what the engine
    raised on the first such word, in the order of tracks, sections and
    words. *)
Theorem generate_song_speech_raises_iff h song :
  ((∃ e, generate_song_speech tts_engine h song = Err e) ↔
   ∃ r e, r ∈ words_of_song song ∧ speak (lrc (h r)) = Err e) ∧
  (∀ e, generate_song_speech tts_engine h song = Err e →
     ∃ pre r post, words_of_song song = pre ++ r :: post ∧
                   speak (lrc (h r)) = Err e ∧
                   Forall (fun r' => ∃ wave, speak (lrc (h r')) = Ok wave) pre).
Proof.
  rewrite generate_song_speech_words.
  split; [|intros e; apply process_section_Err]. split.
  - intros [e (pre & r & post & Hw & Hr & _)%process_section_Err].
    exists r, e. split; [|done]. rewrite Hw. apply elem_of_app. right. by left.
  - intros (r & e & Hin & Hr).
    destruct (process_section h (words_of_song song)) as [h'|e'] eqn:Hrun;
      [|by exists e'].
    exfalso. destruct (process_section_Ok _ _ _ Hrun r) as [Hok _].
    destruct (Hok Hin) as (wave & Hs & _). by rewrite Hs in Hr.
Qed.

End Speech.

Lemma generate_song_speech_fills_every_word_witness :
  ∃ h', generate_song_speech la_engine demo_heap demo_song = Ok h' ∧
        oriWave (h' 2) = Some [1 # 2; 1 # 4]%Q ∧ h' 3 = demo_heap 3.
Proof.
  destruct (generate_song_speech la_engine demo_heap demo_song) as [h'|e] eqn:Hrun;
    [|vm_compute in Hrun; discriminate Hrun].
  exists h'. split; [reflexivity|].
  destruct (generate_song_speech_fills_every_word la_engine demo_heap demo_song h'
              Hrun 2) as [Hin _].
  destruct (generate_song_speech_fills_every_word la_engine demo_heap demo_song h'
              Hrun 3) as [_ Hout].
  split.
  - destruct Hin as (wave & Hs & Ho & _).
    + apply (bool_decide_unpack _). vm_compute. exact I.
    + rewrite Ho. vm_compute in Hs. injection Hs as <-. reflexivity.
  - apply Hout. apply (bool_decide_unpack _). vm_compute. exact I.
Defined.

End SongProps.

(** ** Choosing the speech engine *)

Module FactoryProps.
Import PyStr SpeakGenerateor Samples2.

Lemma prefix_refl s : String.prefix s s = true.
Proof.
  induction s as [|c s IH]; [done|]. simpl. by destruct (ascii_dec c c).
Qed.

Lemma contains_refl s : contains s s = true.
Proof.
  destruct s as [|c s]; [done|].
  change (String.prefix (String c s) (String c s) || contains (String c s) s = true).
  by rewrite prefix_refl.
Qed.

Lemma find_first {A : Type} (p : A → bool) (l : list A) x :
  List.find p l = Some x →
  ∃ pre post, l = pre ++ x :: post ∧ Forall (fun c => p c = false) pre ∧ p x = true.
Proof.
  induction l as [|a l IH]; [done|]. simpl. destruct (p a) eqn:Ha.
  - intros [= ->]. by exists [], l.
  - intros (pre & post & -> & Hpre & Hx)%IH. exists (a :: pre), post.
    split; [done|]. split; [by constructor|done].
Qed.

Section Factory.

Variable usable_list : list EngineClass.
Variable unicode_lower : string → string.

Abbreviation matches_ := (matches unicode_lower).
Abbreviation create_engine_ := (create_engine usable_list unicode_lower).

Lemma create_engine_find engine_name context :
  (Forall (fun cls => matches_ engine_name cls = false) usable_list ∧
   create_engine_ engine_name context
   = Err (ValueError_engine engine_name (map __name__ usable_list))) ∨
  (∃ pre cls post,
     usable_list = pre ++ cls :: post ∧
     Forall (fun c => matches_ engine_name c = false) pre ∧
     matches_ engine_name cls = true ∧
     create_engine_ engine_name context = instantiate cls context).
Proof.
  unfold create_engine, get_available_engines.
  destruct (List.find (matches_ engine_name) usable_list) as [cls|] eqn:Hf.
  - right. apply find_first in Hf as (pre & post & -> & Hpre & Hcls).
    by exists pre, cls, post.
  - left. split; [|done]. apply Forall_forall. intros cls Hin.
    apply (find_none _ _ Hf). by apply list_elem_of_In.
Qed.

(** X15. [create_engine] instantiates the first class of [usable_list] whose
    lowered name contains the lowered request, and what the constructor
    raises is raised; when no class matches it raises the [ValueError] with
    the request and the names of all the classes. *)
Theorem create_engine_takes_first_match engine_name context :
  (Forall (fun cls => matches unicode_lower engine_name cls = false) usable_list ∧
   create_engine usable_list unicode_lower engine_name context
   = Err (ValueError_engine engine_name (map __name__ usable_list))) ∨
  (∃ pre cls post,
     usable_list = pre ++ cls :: post ∧
     Forall (fun c => matches unicode_lower engine_name c = false) pre ∧
     matches unicode_lower engine_name cls = true ∧
     create_engine usable_list unicode_lower engine_name context
     = instantiate cls context).
Proof. apply create_engine_find. Qed.

(** X16. Without an engine type, [FlorenceSpeakGenerateor.__init__] builds the
    first registered class, whatever the names are: the name that
    [auto_select_engine] returns is found again by [create_engine] at the
    first class.  With no class registered it raises the [Exception] of
    [auto_select_engine], not the [ValueError] of [create_engine]. *)
Theorem init_builds_first_registered_class context :
  __init__ usable_list unicode_lower context EmptyString
  = match usable_list with
    | [] => Err Exception_no_engine
    | cls :: _ => instantiate cls context
    end.
Proof.
  unfold __init__, auto_select_engine, create_engine.
  destruct usable_list as [|cls l]; [done|]. simpl.
  unfold matches. by rewrite contains_refl.
Qed.

(** X17. A request in ASCII that is a part of the ASCII name of a registered
    class, in any case of the letters, never gets the [ValueError]: a class
    is instantiated, that class or one registered before it. *)
Theorem create_engine_finds_by_keyword engine_name context cls :
  cls ∈ usable_list →
  isascii engine_name = true → isascii (__name__ cls) = true →
  contains (string_map lower_char engine_name) (string_map lower_char (__name__ cls))
    = true →
  ∃ pre cls' post,
    usable_list = pre ++ cls' :: post ∧ matches_ engine_name cls' = true ∧
    create_engine_ engine_name context = instantiate cls' context.
Proof.
  intros Hin Ha Hb Hc.
  destruct (create_engine_find engine_name context)
    as [[Hall _]|(pre & c & post & Hl & _ & Hm & Hrun)].
  - exfalso. pose proof (proj1 (Forall_forall _ _) Hall _ Hin) as Hno.
    unfold matches, lower in Hno. by rewrite Ha, Hb, Hc in Hno.
  - by exists pre, c, post.
Qed.

End Factory.

Lemma create_engine_finds_by_keyword_witness :
  create_engine demo_classes (fun s => s) "ESPEAK" (mkContext 22050 true) = Ok la_engine.
Proof.
  destruct (create_engine_finds_by_keyword demo_classes (fun s => s) "ESPEAK"
              (mkContext 22050 true)
              (mkEngineClass "EspeakGenerator" (fun _ => Ok la_engine)))
    as (pre & cls & post & _ & _ & _);
    [apply list_elem_of_lookup; by exists 1|reflexivity|reflexivity|reflexivity|].
  reflexivity.
Defined.

End FactoryProps.

(** ** From WAV data to samples *)

Module HuiHuiProps.
Import FlorenceCoder FlorenceWaveConnecter HuiHui Vocabulary2.

Lemma pair_ind {A : Type} (P : list A → Prop) :
  P [] → (∀ a, P [a]) → (∀ a b l, P l → P (a :: b :: l)) → ∀ l, P l.
Proof.
  intros Hnil Hone Hstep l.
  assert (P l ∧ ∀ a, P (a :: l)) as [H _]; [|done].
  induction l as [|b l [IH1 IH2]]; [by split|].
  split; [apply IH2|]. intros a. by apply Hstep.
Qed.

Lemma byte_value_range b : (0 <= byte_value b < 256)%Z.
Proof. unfold byte_value. pose proof (Byte.to_N_bounded b). lia. Qed.

Lemma byte_value_of v : (0 <= v < 256)%Z → byte_value (byte_of v) = v.
Proof.
  intros Hv. unfold byte_value, byte_of.
  destruct (Byte.of_N (Z.to_N v)) as [b|] eqn:Hb.
  - apply Byte.to_of_N in Hb. lia.
  - apply Byte.of_N_None_iff in Hb. lia.
Qed.

Lemma frombuffer_int16_Ok frames : ∀ ints,
  frombuffer_int16 frames = Ok ints →
  length frames = 2 * length ints ∧ Forall (fun v => (-32768 <= v < 32768)%Z) ints.
Proof.
  induction frames as [| |lo hi frames IH] using pair_ind; intros ints Hrun.
  - injection Hrun as <-. by split.
  - done.
  - simpl in Hrun. destruct (frombuffer_int16 frames) as [tl|] eqn:Htl; [|done].
    injection Hrun as <-. destruct (IH tl eq_refl) as [Hlen Hall].
    split; [simpl; lia|]. constructor; [|done].
    pose proof (byte_value_range lo). pose proof (byte_value_range hi).
    destruct (Z.ltb_spec (byte_value lo + 256 * byte_value hi) 32768); lia.
Qed.

Lemma frombuffer_int16_returns frames :
  (∃ ints, frombuffer_int16 frames = Ok ints) ↔ Nat.Even (length frames).
Proof.
  induction frames as [| |lo hi frames IH] using pair_ind.
  - split; [intros _; by exists 0|by eexists].
  - split; [by intros [? ?]|]. intros [k Hk]. simpl in Hk. lia.
  - simpl. split.
    + intros [ints Hrun]. destruct (frombuffer_int16 frames) as [tl|]; [|done].
      destruct (proj1 IH (ex_intro _ tl eq_refl)) as [k Hk]. exists (S k). lia.
    + intros [k Hk]. destruct (proj2 IH) as [tl ->]; [exists (k - 1); lia|].
      by eexists.
Qed.

Lemma frombuffer_int16_Err frames e :
  frombuffer_int16 frames = Err e → e = ValueError_buffer_size.
Proof.
  induction frames as [| |lo hi frames IH] using pair_ind; [done|by intros [= <-]|].
  simpl. destruct (frombuffer_int16 frames); [done|]. intros [= <-]. by apply IH.
Qed.

Lemma stereo_to_mono_Ok audio : ∀ mono,
  stereo_to_mono audio = Ok mono →
  length audio = 2 * length mono ∧ (Forall unit_range audio → Forall unit_range mono).
Proof.
  induction audio as [| |l r audio IH] using pair_ind; intros mono Hrun.
  - injection Hrun as <-. by split.
  - done.
  - simpl in Hrun. destruct (stereo_to_mono audio) as [tl|] eqn:Htl; [|done].
    injection Hrun as <-. destruct (IH tl eq_refl) as [Hlen Hall].
    split; [simpl; lia|].
    intros Hr. apply Forall_cons in Hr as [[Hl1 Hl2] Hr].
    apply Forall_cons in Hr as [[Hr1 Hr2] Hr].
    constructor; [|by apply Hall].
    split; [apply Qle_shift_div_l|apply Qlt_shift_div_r]; lra.
Qed.

Lemma stereo_to_mono_returns audio :
  (∃ mono, stereo_to_mono audio = Ok mono) ↔ Nat.Even (length audio).
Proof.
  induction audio as [| |l r audio IH] using pair_ind.
  - split; [intros _; by exists 0|by eexists].
  - split; [by intros [? ?]|]. intros [k Hk]. simpl in Hk. lia.
  - simpl. split.
    + intros [mono Hrun]. destruct (stereo_to_mono audio) as [tl|]; [|done].
      destruct (proj1 IH (ex_intro _ tl eq_refl)) as [k Hk]. exists (S k). lia.
    + intros [k Hk]. destruct (proj2 IH) as [tl ->]; [exists (k - 1); lia|].
      by eexists.
Qed.

Lemma stereo_to_mono_Err audio e :
  stereo_to_mono audio = Err e → e = ValueError_buffer_size.
Proof.
  induction audio as [| |l r audio IH] using pair_ind; [done|by intros [= <-]|].
  simpl. destruct (stereo_to_mono audio); [done|]. intros [= <-]. by apply IH.
Qed.

Lemma int16_unit_range v :
  (-32768 <= v < 32768)%Z → unit_range (inject_Z v / 32768).
Proof.
  intros [Hlo Hhi]. rewrite Zle_Qle in Hlo. rewrite Zlt_Qlt in Hhi.
  change (inject_Z (-32768)) with (-32768)%Q in Hlo.
  change (inject_Z 32768) with 32768%Q in Hhi.
  split; [apply Qle_shift_div_l|apply Qlt_shift_div_r]; lra.
Qed.

Lemma uint8_unit_range v :
  (0 <= v < 256)%Z → unit_range ((inject_Z v - 128) / 128).
Proof.
  intros [Hlo Hhi]. rewrite Zle_Qle in Hlo. rewrite Zlt_Qlt in Hhi.
  change (inject_Z 0) with 0%Q in Hlo. change (inject_Z 256) with 256%Q in Hhi.
  split; [apply Qle_shift_div_l|apply Qlt_shift_div_r]; lra.
Qed.

Lemma int16_le_value v :
  (-32768 <= v < 32768)%Z →
  (let u := (v mod 256 + 256 * ((v / 256) mod 256))%Z in
   if (u <? 32768)%Z then u else (u - 65536)%Z) = v.
Proof.
  intros Hv. cbv zeta.
  pose proof (Z.div_mod v 256 ltac:(lia)) as Hdm.
  pose proof (Z.mod_pos_bound v 256 ltac:(lia)) as Hm.
  assert (-128 <= v / 256 < 128)%Z as Hq.
  { split; [apply Z.div_le_lower_bound; lia|apply Z.div_lt_upper_bound; lia]. }
  destruct (Z.lt_ge_cases (v / 256) 0) as [Hneg|Hpos].
  - assert ((v / 256) mod 256 = v / 256 + 256)%Z as ->.
    { symmetry. apply (Z.mod_unique _ _ (-1)); lia. }
    destruct (Z.ltb_spec (v mod 256 + 256 * (v / 256 + 256)) 32768); lia.
  - rewrite (Z.mod_small (v / 256)) by lia.
    destruct (Z.ltb_spec (v mod 256 + 256 * (v / 256)) 32768); lia.
Qed.

Lemma frombuffer_int16_pcm16 samples :
  Forall (fun v => (-32768 <= v < 32768)%Z) samples →
  frombuffer_int16 (pcm16 samples) = Ok samples.
Proof.
  induction 1 as [|v samples Hv _ IH]; [done|].
  unfold pcm16. cbn [map concat int16_le app].
  change (concat (map int16_le samples)) with (pcm16 samples).
  cbn [frombuffer_int16]. rewrite IH. cbn [res_bind].
  rewrite !byte_value_of by (apply Z.mod_pos_bound; lia).
  f_equal. f_equal. by apply int16_le_value.
Qed.

Lemma interp_segment_between x0 x1 f0 f1 x :
  (x0 <= x)%Q → (x < x1)%Q →
  between_samples [f0; f1] ((f1 - f0) / (x1 - x0) * (x - x0) + f0)%Q.
Proof.
  intros Hlo Hhi.
  set (d := (x1 - x0)%Q). assert (0 < d)%Q as Hd by (unfold d; lra).
  set (q := ((f1 - f0) / d)%Q).
  assert (q * d == f1 - f0)%Q as Hq by (unfold q; field; lra).
  assert (0 <= x - x0)%Q as Ht0 by lra.
  assert (x - x0 <= d)%Q as Ht1 by (unfold d; lra).
  destruct (Qlt_le_dec f1 f0) as [Hdown|Hup].
  - assert (q <= 0)%Q as Hq0.
    { unfold q. apply Qle_shift_div_r; [done|]. lra. }
    exists f1, f0. split; [by right; left|]. split; [by left|]. split; nra.
  - assert (0 <= q)%Q as Hq0.
    { unfold q. apply Qle_shift_div_l; [done|]. lra. }
    exists f0, f1. split; [by left|]. split; [by right; left|]. split; nra.
Qed.

Lemma between_samples_weaken l1 l2 v :
  l1 ⊆ l2 → between_samples l1 v → between_samples l2 v.
Proof.
  intros Hsub (lo & hi & Hlo & Hhi & H1 & H2).
  exists lo, hi. split; [by apply Hsub|]. split; [by apply Hsub|done].
Qed.

Lemma interp_from_between xp : ∀ fp x,
  length xp = length fp → fp ≠ [] →
  (∀ i a b, xp !! i = Some a → xp !! S i = Some b → (a < b)%Q) →
  (∀ x0, head xp = Some x0 → (x0 <= x)%Q) →
  between_samples fp (interp_from x xp fp).
Proof.
  induction xp as [|x0 xp IH]; intros fp x Hlen Hne Hinc Hx.
  { by destruct fp. }
  destruct fp as [|f0 fp]; [done|].
  destruct xp as [|x1 xp]; destruct fp as [|f1 fp]; try done.
  { exists f0, f0. split; [by left|]. split; [by left|]. simpl. split; lra. }
  cbn [interp_from]. destruct (Qlt_le_dec x x1) as [Hlt|Hge].
  - eapply between_samples_weaken; [|apply interp_segment_between; [by apply Hx|done]].
    intros v [->|[->|[]%elem_of_nil]%elem_of_cons]%elem_of_cons;
      [by left|by right; left].
  - eapply between_samples_weaken; [|apply (IH (f1 :: fp) x)].
    + intros v Hv. by right.
    + simpl in *. lia.
    + done.
    + intros i a b Ha Hb. by apply (Hinc (S i) a b).
    + by intros ? [= <-].
Qed.

Lemma np_arange_increasing n i a b :
  np_arange n !! i = Some a → np_arange n !! S i = Some b → (a < b)%Q.
Proof.
  unfold np_arange. rewrite !list_lookup_fmap. intros Ha Hb.
  destruct (seq 0 n !! i) as [x|] eqn:Hx; [|done].
  destruct (seq 0 n !! S i) as [y|] eqn:Hy; [|done].
  apply lookup_seq in Hx as [-> _]. apply lookup_seq in Hy as [-> _].
  simpl in Ha, Hb. injection Ha as <-. injection Hb as <-.
  rewrite <- Zlt_Qlt. lia.
Qed.

Lemma np_interp_between x audio :
  audio ≠ [] →
  ∃ out, np_interp x (np_arange (length audio)) audio = Ok out ∧
         length out = length x ∧
         Forall (between_samples audio) out.
Proof.
  intros Hne. destruct audio as [|a0 audio]; [done|].
  unfold np_interp.
  assert (np_arange (length (a0 :: audio))
          = inject_Z 0 :: map (fun i : nat => inject_Z (Z.of_nat i)) (seq 1 (length audio)))
    as Harange by done.
  rewrite Harange. cbv beta iota. rewrite <- Harange.
  eexists. split; [reflexivity|]. split; [by rewrite length_map|].
  apply Forall_fmap, Forall_forall. intros v _. unfold compose. cbv beta.
  destruct (Qlt_le_dec v (inject_Z 0)) as [Hlt|Hge].
  - exists a0, a0. split; [by left|]. split; [by left|]. split; lra.
  - apply interp_from_between.
    + unfold np_arange. by rewrite length_map, length_seq.
    + done.
    + apply np_arange_increasing.
    + rewrite Harange. by intros ? [= <-].
Qed.

Lemma resample_new_length len original_rate target_rate :
  (0 <= len)%Z → (0 < original_rate)%Z → (0 <= target_rate)%Z →
  int_of (inject_Z (len * target_rate) / inject_Z original_rate)
  = (len * target_rate / original_rate)%Z ∧
  (0 <= len * target_rate / original_rate)%Z.
Proof.
  intros Hlen Ho Ht.
  assert (0 <= inject_Z (len * target_rate) / inject_Z original_rate)%Q as Hnn.
  { apply Qle_shift_div_l; [by rewrite <- (Zlt_Qlt 0)|].
    rewrite Qmult_0_l. rewrite <- (Zle_Qle 0). lia. }
  destruct (ConnecterProps.int_of_nonneg _ Hnn) as [-> _].
  rewrite <- Zdiv_Qdiv. split; [done|]. apply Z.div_pos; lia.
Qed.

Section Engine.

Variable astype : dtype → Q → Q.
Variable context : Context.

Abbreviation wav_bytes_to_numpy := (_wav_bytes_to_numpy astype context).
Abbreviation resample_audio := (_resample_audio astype).

Lemma wav_same_rate_Ok wav_file audio :
  getframerate wav_file = sample_rate context →
  wav_bytes_to_numpy wav_file = Ok audio →
  (getsampwidth wav_file = 1%Z ∨ getsampwidth wav_file = 2%Z) ∧
  length (readframes wav_file)
  = Z.to_nat (getsampwidth wav_file) * samples_per_frame (getnchannels wav_file)
    * length audio ∧
  Forall unit_range audio.
Proof.
  intros Hrate. unfold _wav_bytes_to_numpy, samples_per_frame.
  destruct (Z.eqb_spec (getsampwidth wav_file) 2) as [->|Hn2].
  - destruct (frombuffer_int16 (readframes wav_file)) as [ints|] eqn:Hints; [|done].
    apply frombuffer_int16_Ok in Hints as [Hlen Hall]. cbn [res_bind].
    assert (Forall unit_range (map (fun v => inject_Z v / 32768)%Q ints)) as Hrange.
    { apply Forall_fmap. eapply Forall_impl; [exact Hall|]. apply int16_unit_range. }
    destruct (getnchannels wav_file =? 2)%Z.
    + destruct (stereo_to_mono _) as [mono|] eqn:Hmono; [|done].
      apply stereo_to_mono_Ok in Hmono as [Hlen2 Hmono]. cbn [res_bind].
      rewrite length_map in Hlen2.
      rewrite (proj2 (Z.eqb_eq _ _) Hrate). intros [= <-].
      split; [by right|]. split; [lia|by apply Hmono].
    + cbn [res_bind]. rewrite (proj2 (Z.eqb_eq _ _) Hrate). intros [= <-].
      rewrite length_map. split; [by right|]. split; [lia|done].
  - destruct (Z.eqb_spec (getsampwidth wav_file) 1) as [->|Hn1]; [|done].
    cbn [res_bind].
    assert (Forall unit_range
              (map (fun v => (inject_Z v - 128) / 128)%Q
                 (frombuffer_uint8 (readframes wav_file)))) as Hrange.
    { apply Forall_fmap, Forall_fmap, Forall_forall. intros b _.
      apply uint8_unit_range, byte_value_range. }
    destruct (getnchannels wav_file =? 2)%Z.
    + destruct (stereo_to_mono _) as [mono|] eqn:Hmono; [|done].
      apply stereo_to_mono_Ok in Hmono as [Hlen2 Hmono]. cbn [res_bind].
      unfold frombuffer_uint8 in Hlen2. rewrite !length_map in Hlen2.
      rewrite (proj2 (Z.eqb_eq _ _) Hrate). intros [= <-].
      split; [by left|]. split; [lia|by apply Hmono].
    + cbn [res_bind]. rewrite (proj2 (Z.eqb_eq _ _) Hrate). intros [= <-].
      unfold frombuffer_uint8. rewrite !length_map. split; [by left|]. split; [lia|done].
Qed.

(** X18. A WAV file at the rate of the context: when [_wav_bytes_to_numpy]
    returns, the sample width is 1 or 2 bytes, the result has one sample for
    each frame (two interleaved samples make one when the file is stereo),
    and every sample lies in [-1, 1). *)
Theorem wav_samples_in_unit_range wav_file audio :
  getframerate wav_file = sample_rate context →
  wav_bytes_to_numpy wav_file = Ok audio →
  (getsampwidth wav_file = 1%Z ∨ getsampwidth wav_file = 2%Z) ∧
  length (readframes wav_file)
  = Z.to_nat (getsampwidth wav_file) * samples_per_frame (getnchannels wav_file)
    * length audio ∧
  Forall unit_range audio.
Proof. apply wav_same_rate_Ok. Qed.

(** X19. A WAV file at the rate of the context is decoded exactly when its
    sample width is 1 or 2 bytes and its frames are a whole number of
    samples, of pairs of samples when the file is stereo.  Otherwise the
    error is the [ValueError] of the sample width when the width is not 1
    or 2, and that of the array size when it is. *)
Theorem wav_decoding_returns_iff wav_file :
  getframerate wav_file = sample_rate context →
  ((∃ audio, wav_bytes_to_numpy wav_file = Ok audio) ↔
   (getsampwidth wav_file = 1%Z ∨ getsampwidth wav_file = 2%Z) ∧
   ∃ k, length (readframes wav_file)
        = Z.to_nat (getsampwidth wav_file)
          * samples_per_frame (getnchannels wav_file) * k) ∧
  (∀ e, wav_bytes_to_numpy wav_file = Err e →
        if decide (getsampwidth wav_file = 1%Z ∨ getsampwidth wav_file = 2%Z)
        then e = ValueError_buffer_size
        else e = ValueError_sample_width (getsampwidth wav_file)).
Proof.
  intros Hrate. split; [split|].
  - intros [audio Hrun]. apply wav_same_rate_Ok in Hrun as (Hw & Hlen & _); [|done].
    split; [done|]. by exists (length audio).
  - intros [Hw [k Hk]]. unfold _wav_bytes_to_numpy, samples_per_frame in *.
    rewrite (proj2 (Z.eqb_eq _ _) Hrate).
    destruct Hw as [Hw|Hw]; rewrite Hw in *; cbn [Z.eqb Pos.eqb].
    + cbn [res_bind]. destruct (getnchannels wav_file =? 2)%Z; [|by eexists].
      destruct (proj2 (stereo_to_mono_returns
                  (map (fun v => (inject_Z v - 128) / 128)%Q
                     (frombuffer_uint8 (readframes wav_file))))) as [mono ->];
        [|by eexists].
      unfold frombuffer_uint8. rewrite !length_map. exists k. lia.
    + destruct (proj2 (frombuffer_int16_returns (readframes wav_file))) as [ints Hints].
      { exists ((if (getnchannels wav_file =? 2)%Z then 2 else 1) * k). lia. }
      rewrite Hints. cbn [res_bind].
      apply frombuffer_int16_Ok in Hints as [Hlen _].
      destruct (getnchannels wav_file =? 2)%Z; [|by eexists].
      destruct (proj2 (stereo_to_mono_returns
                  (map (fun v => inject_Z v / 32768)%Q ints))) as [mono ->];
        [|by eexists].
      rewrite length_map. exists k. lia.
  - intros e. unfold _wav_bytes_to_numpy.
    rewrite (proj2 (Z.eqb_eq _ _) Hrate).
    destruct (Z.eqb_spec (getsampwidth wav_file) 2) as [Hw2|Hn2].
    + rewrite decide_True by (by right).
      destruct (frombuffer_int16 _) as [ints|e'] eqn:Hints; cbn [res_bind].
      * destruct (getnchannels wav_file =? 2)%Z; [|done].
        destruct (stereo_to_mono _) as [mono|e'] eqn:Hmono; [done|].
        cbn [res_bind]. intros [= <-]. by eapply stereo_to_mono_Err.
      * intros [= <-]. by eapply frombuffer_int16_Err.
    + destruct (Z.eqb_spec (getsampwidth wav_file) 1) as [Hw1|Hn1].
      * rewrite decide_True by (by left). cbn [res_bind].
        destruct (getnchannels wav_file =? 2)%Z; [|done].
        destruct (stereo_to_mono _) as [mono|e'] eqn:Hmono; [done|].
        cbn [res_bind]. intros [= <-]. by eapply stereo_to_mono_Err.
      * rewrite decide_False by (by intros [?|?]). cbn [res_bind]. by intros [= <-].
Qed.

(** X20. Round trip: the frames that hold signed 16-bit samples, low byte
    first, in a file of one channel at the rate of the context, come back
    as those samples divided by 32768, in order. *)
Theorem pcm16_frames_come_back n_channels samples :
  n_channels ≠ 2%Z →
  Forall (fun v => (-32768 <= v < 32768)%Z) samples →
  wav_bytes_to_numpy (mkWavFile n_channels 2 (sample_rate context) (pcm16 samples))
  = Ok (map (fun v => inject_Z v / 32768)%Q samples).
Proof.
  intros Hch Hrange. unfold _wav_bytes_to_numpy. cbn [getsampwidth getnchannels
    getframerate readframes Z.eqb Pos.eqb].
  rewrite (frombuffer_int16_pcm16 _ Hrange). cbn [res_bind].
  destruct (Z.eqb_spec n_channels 2) as [|_]; [done|]. cbn [res_bind].
  by rewrite Z.eqb_refl.
Qed.

(** X21. Resampling between two different rates, the original one positive and
    the target not negative, a wave that is not empty: [_resample_audio]
    returns [len * target_rate / original_rate] samples, rounded down, and
    every sample is the [float32] rounding of a value that lies between two
    samples of the input, so that interpolation never overshoots. *)
Theorem resample_keeps_duration_and_range audio original_rate target_rate :
  original_rate ≠ target_rate → (0 < original_rate)%Z → (0 <= target_rate)%Z →
  audio ≠ [] →
  ∃ out,
    resample_audio audio original_rate target_rate = Ok out ∧
    Z.of_nat (length out)
    = (Z.of_nat (length audio) * target_rate / original_rate)%Z ∧
    Forall (fun y => ∃ v, y = astype float32 v ∧ between_samples audio v) out.
Proof.
  intros Hne Ho Ht Haudio. unfold _resample_audio.
  destruct (Z.eqb_spec original_rate target_rate) as [|_]; [done|].
  destruct (Z.eqb_spec original_rate 0) as [|_]; [lia|].
  destruct (resample_new_length (Z.of_nat (length audio)) original_rate target_rate)
    as [-> Hnn]; [lia|done|done|].
  destruct (ConnecterProps.np_linspace_OK 0 (inject_Z (Z.of_nat (length audio) - 1)) _ Hnn)
    as (new_indices & -> & Hlen & _).
  cbn [lift res_bind].
  destruct (np_interp_between new_indices audio Haudio) as (out & -> & Hlen' & Hall).
  cbn [res_bind]. eexists. split; [reflexivity|].
  split; [rewrite length_map, Hlen', Hlen; lia|].
  apply Forall_fmap. eapply Forall_impl; [exact Hall|].
  intros v Hv. by exists v.
Qed.

(** X22. The edges of [_resample_audio]: equal rates return the wave as it is,
    also an empty one; an original rate of 0 raises [ZeroDivisionError];
    and an empty wave between two different rates raises the [ValueError]
    of [np.interp] instead of returning an empty wave. *)
Theorem resample_edge_cases audio :
  (∀ rate, _resample_audio astype audio rate rate = Ok audio) ∧
  (∀ target_rate, target_rate ≠ 0%Z →
     _resample_audio astype audio 0 target_rate = Err ZeroDivisionError) ∧
  (∀ original_rate target_rate,
     original_rate ≠ target_rate → original_rate ≠ 0%Z →
     _resample_audio astype [] original_rate target_rate = Err ValueError_interp_empty).
Proof.
  unfold _resample_audio. split; [|split].
  - intros rate. by rewrite Z.eqb_refl.
  - intros target_rate Hne.
    by destruct (Z.eqb_spec 0 target_rate) as [|_]; [lia|].
  - intros original_rate target_rate Hne Ho.
    destruct (Z.eqb_spec original_rate target_rate) as [|_]; [done|].
    destruct (Z.eqb_spec original_rate 0) as [|_]; [done|].
    cbv zeta. change (Z.of_nat (length (@nil Q))) with 0%Z.
    change (int_of (inject_Z (0 * target_rate) / inject_Z original_rate)) with 0%Z.
    done.
Qed.

End Engine.

End HuiHuiProps.

(** ** The canvas of a section and of a song *)

Module AssemblyProps.
Import FlorenceWaveConnecter SongStages Vocabulary Vocabulary2 Samples ConnecterProps.

Lemma linspace_gain a b num l :
  (a = 0%Q ∧ b = 1%Q) ∨ (a = 1%Q ∧ b = 0%Q) →
  np_linspace a b num = OK l → Forall (fun f => (0 <= f)%Q ∧ (f <= 1)%Q) l.
Proof.
  intros Hab. unfold np_linspace.
  destruct (Z.ltb_spec num 0) as [|Hnum]; [done|]. intros [= <-].
  assert ((0 <= b)%Q ∧ (b <= 1)%Q) as Hb by (destruct Hab as [[-> ->]|[-> ->]]; lra).
  assert (Forall (fun f => (0 <= f)%Q ∧ (f <= 1)%Q)
            (if (0 <? num - 1)%Z
             then map (fun i : nat => (inject_Z (Z.of_nat i) * ((b - a) / inject_Z (num - 1)) + a)%Q)
                    (seq 0 (Z.to_nat num))
             else map (fun i : nat => (inject_Z (Z.of_nat i) * (b - a) + a)%Q)
                    (seq 0 (Z.to_nat num)))) as Hy.
  { destruct (Z.ltb_spec 0 (num - 1)) as [Hdiv|Hdiv].
    - apply Forall_fmap, Forall_forall. intros i Hi. unfold compose.
      apply list_elem_of_In, in_seq in Hi.
      set (d := inject_Z (num - 1)).
      set (x := inject_Z (Z.of_nat i)).
      assert (0 < d)%Q as Hd by (unfold d; rewrite <- (Zlt_Qlt 0); lia).
      assert (0 <= x)%Q as Hx0 by (unfold x; rewrite <- (Zle_Qle 0); lia).
      assert (x <= d)%Q as Hx1 by (unfold x, d; rewrite <- Zle_Qle; lia).
      set (q := ((b - a) / d)%Q).
      assert (q * d == b - a)%Q as Hq by (unfold q; field; lra).
      destruct Hab as [[-> ->]|[-> ->]].
      + assert (0 <= q)%Q by (unfold q; apply Qle_shift_div_l; [done|lra]).
        split; nra.
      + assert (q <= 0)%Q by (unfold q; apply Qle_shift_div_r; [done|lra]).
        split; nra.
    - assert (Z.to_nat num = 0 ∨ Z.to_nat num = 1) as Hcases by lia.
      destruct Hcases as [-> | ->]; cbn [map seq]; [by apply Forall_nil|].
      apply Forall_cons. split; [|by apply Forall_nil].
      change (inject_Z (Z.of_nat 0)) with 0%Q.
      destruct Hab as [[-> ->]|[-> ->]]; split; lra. }
  destruct (1 <? num)%Z; [|done]. by apply Forall_insert.
Qed.

Lemma zip_with_attenuated (wave gains : list Q) :
  length gains = length wave →
  Forall (fun f => (0 <= f)%Q ∧ (f <= 1)%Q) gains →
  Forall2 attenuated wave (zip_with Qmult wave gains).
Proof.
  revert gains. induction wave as [|x wave IH]; intros [|f gains] Hlen Hall; try done.
  apply Forall_cons in Hall as [[Hf0 Hf1] Hall]. simpl. constructor.
  - exists f. repeat split; try done.
  - apply IH; [simpl in Hlen; lia|done].
Qed.

Lemma attenuated_refl x : attenuated x x.
Proof. exists 1%Q. repeat split; try lra. Qed.

Section Declick.

Variable context : Context.
Hypothesis sample_rate_nonneg : (0 <= sample_rate context)%Z.

Lemma declick_nil : _apply_declick_envelope context [] = OK [].
Proof.
  apply declick_skipped.
  destruct (fade_samples_bounds context sample_rate_nonneg []) as [H0 H1].
  simpl in H1. lia.
Qed.

Lemma declick_attenuates wave :
  ∃ processed,
    _apply_declick_envelope context wave = OK processed ∧
    length processed = length wave ∧
    Forall2 attenuated wave processed ∧
    (∀ i, Z.to_nat (fade_samples context wave) ≤ i
          < length wave - Z.to_nat (fade_samples context wave) →
          processed !! i = wave !! i).
Proof.
  destruct (fade_samples_bounds context sample_rate_nonneg wave) as [Hnn Hle].
  destruct (decide (fade_samples context wave = 0%Z)) as [Hz|Hnz].
  { exists wave. rewrite declick_skipped by done. split; [done|]. split; [done|].
    split; [|done]. apply Forall_Forall2_diag, Forall_forall. intros x _.
    apply attenuated_refl. }
  destruct (declick_faded context sample_rate_nonneg wave Hnz)
    as (fin & fout & Hin & Hout & Hlin & Hlout & Hrun).
  set (n := Z.to_nat (fade_samples context wave)) in *.
  rewrite Hlin, Hlout in Hrun.
  eexists. split; [exact Hrun|].
  assert (wave = take n wave ++ take (length wave - 2 * n) (drop n wave)
                 ++ drop (length wave - n) wave) as Hsplit.
  { rewrite <- (take_drop n wave) at 1. f_equal.
    rewrite <- (take_drop (length wave - 2 * n) (drop n wave)) at 1. f_equal.
    rewrite drop_drop. f_equal. lia. }
  assert (length (zip_with Qmult (take n wave) fin) = n) as Hz1.
  { rewrite length_zip_with, length_take. lia. }
  split; [|split].
  - rewrite !length_app, !length_zip_with, !length_take, !length_drop. lia.
  - rewrite Hsplit at 1. apply Forall2_app; [|apply Forall2_app].
    + apply zip_with_attenuated; [rewrite length_take; lia|].
      eapply linspace_gain; [|exact Hin]. by left.
    + apply Forall_Forall2_diag, Forall_forall. intros x _. apply attenuated_refl.
    + apply zip_with_attenuated; [rewrite length_drop; lia|].
      eapply linspace_gain; [|exact Hout]. by right.
  - intros i Hi. rewrite lookup_app_r by lia. rewrite Hz1.
    rewrite lookup_app_l by (rewrite length_take, length_drop; lia).
    rewrite lookup_take, lookup_drop.
    destruct (decide (i - n < length wave - 2 * n)); [|lia]. f_equal. lia.
Qed.

End Declick.

Lemma sample_app_zeros canvas n j : sample (canvas ++ replicate n 0%Q) j = sample canvas j.
Proof.
  unfold sample. destruct (decide (j < length canvas)) as [Hj|Hj].
  - by rewrite lookup_app_l.
  - rewrite lookup_app_r by lia. rewrite (lookup_ge_None_2 canvas j) by lia.
    destruct (replicate n 0%Q !! (j - length canvas)) as [x|] eqn:Hx; [|done].
    by apply lookup_replicate in Hx as [-> _].
Qed.

Lemma sample_zeros n j : sample (replicate n 0%Q) j = 0%Q.
Proof.
  unfold sample. destruct (replicate _ _ !! j) as [x|] eqn:Hx; [|done].
  by apply lookup_replicate in Hx as [-> _].
Qed.

Lemma sample_grow_canvas canvas end_idx j :
  sample (grow_canvas canvas end_idx) j = sample canvas j.
Proof.
  unfold grow_canvas. destruct (Z.of_nat (length canvas) <? end_idx)%Z; [|done].
  apply sample_app_zeros.
Qed.

Lemma sample_mixed grown off w j :
  off + length w ≤ length grown →
  (sample (mixed grown off w) j
   == sample grown j + (if decide (off ≤ j) then sample w (j - off) else 0))%Q.
Proof.
  intros Hle. destruct (decide (off ≤ j)) as [Hoff|Hoff].
  - destruct (w !! (j - off)) as [p|] eqn:Hp.
    + destruct (mixed_lookup_inside grown off w (j - off) p Hle Hp) as (g & Hg & Hm).
      replace (off + (j - off)) with j in Hg, Hm by lia.
      unfold sample. rewrite Hm, Hg, Hp. reflexivity.
    + apply lookup_ge_None in Hp.
      unfold sample at 1 2. rewrite mixed_lookup_outside by (done || lia).
      unfold sample. rewrite (lookup_ge_None_2 w) by done. ring.
  - unfold sample. rewrite mixed_lookup_outside by (done || lia). ring.
Qed.

Section Mixing.

Variable context : Context.
Hypothesis sample_rate_nonneg : (0 <= sample_rate context)%Z.

Lemma mix_word_sample base_time canvas word :
  (base_time <= start (time word))%Q →
  ∃ canvas',
    mix_word context base_time canvas word = OK canvas' ∧
    ∀ j, (sample canvas' j == sample canvas j + placed context base_time word j)%Q.
Proof.
  intros Hle. unfold placed.
  destruct (source_wave word) as [[|x source]|] eqn:Hsrc.
  - exists canvas. rewrite mix_word_skipped by auto. split; [done|].
    intros j. rewrite (declick_nil context sample_rate_nonneg).
    destruct (decide _); unfold sample; simpl; ring.
  - destruct (mix_word_placed context sample_rate_nonneg base_time canvas word
                (x :: source) Hsrc ltac:(done) Hle) as (processed & Hrun & Hlen & ->).
    eexists. split; [reflexivity|]. intros j. rewrite Hrun.
    destruct (start_idx_floor context sample_rate_nonneg base_time word Hle) as [Hoff _].
    destruct (grow_canvas_spec canvas
                (start_idx context base_time word + Z.of_nat (length (x :: source))))
      as (Hend & _).
    rewrite sample_mixed by lia. by rewrite sample_grow_canvas.
  - exists canvas. rewrite mix_word_skipped by auto. split; [done|].
    intros j. ring.
Qed.

Lemma mix_words_sample h base_time words : ∀ canvas,
  Forall (fun r => (base_time <= start (time (h r)))%Q) words →
  ∃ canvas',
    mix_words context h base_time canvas words = OK canvas' ∧
    ∀ j, (sample canvas' j
          == sample canvas j + overlap_add context h base_time words j)%Q.
Proof.
  induction words as [|w words IH]; intros canvas Hsorted.
  - exists canvas. split; [done|]. intros j. simpl. ring.
  - apply Forall_cons in Hsorted as [Hw Hsorted].
    destruct (mix_word_sample base_time canvas (h w) Hw) as (c1 & Hc1 & Hs1).
    destruct (IH c1 Hsorted) as (c2 & Hc2 & Hs2).
    exists c2. split.
    + change (mix_words context h base_time canvas (w :: words))
        with (do c <- mix_word context base_time canvas (h w);
              mix_words context h base_time c words)%result.
      by rewrite Hc1.
    + intros j. rewrite (Hs2 j), (Hs1 j).
      change (overlap_add context h base_time (w :: words) j)
        with (placed context base_time (h w) j
              + overlap_add context h base_time words j)%Q.
      ring.
Qed.

(** X23. The envelope only attenuates: [_apply_declick_envelope] returns a wave
    of the same length in which every sample is the input sample times a
    gain between 0 and 1, and the samples between the two fades are the
    input samples themselves. *)
Theorem declick_only_attenuates wave :
  ∃ processed,
    _apply_declick_envelope context wave = OK processed ∧
    length processed = length wave ∧
    Forall2 attenuated wave processed ∧
    (∀ i, Z.to_nat (fade_samples context wave) ≤ i
          < length wave - Z.to_nat (fade_samples context wave) →
          processed !! i = wave !! i).
Proof. by apply declick_attenuates. Qed.

(** X24. The canvas of a section is the sum of its words: every sample of
    [sectionSrc] equals the sum, over the words of the section, of the
    sample of the word's enveloped source wave that falls there, each wave
    placed at the offset of its word; where no wave falls the canvas is 0. *)
Theorem canvas_is_sum_of_sources h section w0 wlast :
  head (wordList section) = Some w0 → last (wordList section) = Some wlast →
  (start (time (h w0)) <= end_ (time (h wlast)))%Q →
  Forall (fun r => (start (time (h w0)) <= start (time (h r)))%Q) (wordList section) →
  ∃ canvas,
    _connect_section context h section = OK (set_sectionSrc section canvas) ∧
    ∀ j, (sample canvas j
          == overlap_add context h (start (time (h w0))) (wordList section) j)%Q.
Proof.
  intros Hhd Hlast Hdur Hsorted. unfold _connect_section. rewrite Hlast.
  destruct (wordList section) as [|w0' words] eqn:Hwords; [done|].
  simpl in Hhd. injection Hhd as ->.
  fold (canvas_product context (start (time (h w0))) (end_ (time (h wlast)))).
  pose proof (canvas_product_nonneg context sample_rate_nonneg _ _ Hdur) as Hnn.
  apply int_of_nonneg in Hnn as [_ Hnn]. unfold np_zeros.
  destruct (Z.ltb_spec (int_of (canvas_product context (start (time (h w0)))
                                  (end_ (time (h wlast))))) 0); [lia|].
  cbn [rbind].
  edestruct (mix_words_sample h (start (time (h w0))) (w0 :: words))
    as (canvas & -> & Hsum); [done|].
  exists canvas. split; [done|]. intros j. rewrite (Hsum j).
  rewrite sample_zeros.
  ring.
Qed.

End Mixing.

Section Song.

Variable context : Context.

Abbreviation connect_section := (_connect_section context).
Abbreviation connect_song_ := (connect_song context).

Lemma connect_section_frame h section section' :
  connect_section h section = OK section' →
  wordList section' = wordList section ∧ sectionStart section' = sectionStart section.
Proof.
  unfold _connect_section.
  destruct (wordList section) as [|w0 words] eqn:Hw; [by intros [= <-]|].
  destruct (last (w0 :: words)); [|by intros [= <-]].
  destruct (np_zeros _) as [canvas|]; [|done]. cbn [rbind].
  destruct (mix_words _ _ _ _ _) as [canvas'|]; [|done]. by intros [= <-].
Qed.

Lemma connect_sections_OK h sections : ∀ sections',
  connect_sections context h sections = OK sections' →
  Forall2 (fun s s' => connect_section h s = OK s') sections sections'.
Proof.
  induction sections as [|s sections IH]; intros sections'.
  - intros [= <-]. constructor.
  - cbn [connect_sections].
    destruct (connect_section h s) as [s'|] eqn:Hs; [|done]. cbn [rbind].
    destruct (connect_sections context h sections) as [rest|]; [|done].
    intros [= <-]. constructor; [done|by apply IH].
Qed.

Lemma connect_sections_Raise h sections : ∀ e,
  connect_sections context h sections = Raise e →
  ∃ s, s ∈ sections ∧ connect_section h s = Raise e.
Proof.
  induction sections as [|s sections IH]; intros e; [done|].
  cbn [connect_sections].
  destruct (connect_section h s) as [s'|e'] eqn:Hs; cbn [rbind].
  - destruct (connect_sections context h sections) as [rest|e'']; [done|].
    intros [= <-]. destruct (IH e'' eq_refl) as (s0 & Hin & Hr).
    exists s0. split; [by right|done].
  - intros [= <-]. exists s. split; [by left|done].
Qed.

Lemma connect_tracks_OK h tracks : ∀ tracks',
  connect_tracks context h tracks = OK tracks' →
  Forall2 (fun t t' =>
             Forall2 (fun s s' => connect_section h s = OK s')
                     (sectionList t) (sectionList t'))
          tracks tracks'.
Proof.
  induction tracks as [|t tracks IH]; intros tracks'.
  - intros [= <-]. constructor.
  - cbn [connect_tracks].
    destruct (connect_sections context h (sectionList t)) as [ss|] eqn:Hs; [|done].
    cbn [rbind]. destruct (connect_tracks context h tracks) as [rest|]; [|done].
    intros [= <-]. constructor; [by apply connect_sections_OK|by apply IH].
Qed.

Lemma connect_tracks_Raise h tracks : ∀ e,
  connect_tracks context h tracks = Raise e →
  ∃ t s, t ∈ tracks ∧ s ∈ sectionList t ∧ connect_section h s = Raise e.
Proof.
  induction tracks as [|t tracks IH]; intros e; [done|].
  cbn [connect_tracks].
  destruct (connect_sections context h (sectionList t)) as [ss|e'] eqn:Hs; cbn [rbind].
  - destruct (connect_tracks context h tracks) as [rest|e'']; [done|].
    intros [= <-]. destruct (IH e'' eq_refl) as (t0 & s0 & Hin & Hs0 & Hr).
    exists t0, s0. split; [by right|done].
  - intros [= <-]. apply connect_sections_Raise in Hs as (s & Hin & Hr).
    exists t, s. split; [by left|done].
Qed.

(** X25. [connect_song] writes [sectionSrc] and nothing else: the returned song
    has the name, the tracks and the sections of the given one in the same
    order, every section with the words and the start it had, and as
    [_connect_section] leaves it on the words as they are; no word is
    touched. *)
Theorem connect_song_writes_only_sectionSrc h song song' :
  connect_song_ h song = OK song' →
  name song' = name song ∧
  words_of_song song' = words_of_song song ∧
  Forall2 (fun t t' =>
             Forall2 (fun s s' =>
                        connect_section h s = OK s' ∧
                        wordList s' = wordList s ∧
                        sectionStart s' = sectionStart s)
                     (sectionList t) (sectionList t'))
          (trackList song) (trackList song').
Proof.
  unfold connect_song.
  destruct (connect_tracks context h (trackList song)) as [tracks|] eqn:Ht; [|done].
  intros [= <-]. cbn [name trackList]. split; [done|].
  apply connect_tracks_OK in Ht.
  assert (Forall2 (fun t t' =>
             Forall2 (fun s s' =>
                        connect_section h s = OK s' ∧
                        wordList s' = wordList s ∧
                        sectionStart s' = sectionStart s)
                     (sectionList t) (sectionList t'))
          (trackList song) tracks) as Hall.
  { eapply Forall2_impl; [exact Ht|]. intros t t' Hs.
    eapply Forall2_impl; [exact Hs|]. intros s s' Hrun.
    split; [done|]. by apply connect_section_frame in Hrun. }
  split; [|done].
  unfold words_of_song, words_of_tracks. cbn [trackList]. f_equal.
  clear Ht. induction Hall as [|t t' ts ts' Hs _ IH]; [done|].
  cbn [map]. f_equal; [|exact IH]. unfold words_of_track. f_equal.
  clear -Hs. induction Hs as [|s s' ss ss' (_ & Hw & _) _ IH]; [done|].
  cbn [map]. by rewrite Hw, IH.
Qed.

(** X26. [connect_song] raises only what [_connect_section] raises on one of
    the sections of the song, and returns when [_connect_section] returns
    on all of them. *)
Theorem connect_song_raises_iff h song :
  ((∃ e, connect_song context h song = Raise e) ↔
   ∃ t s e, t ∈ trackList song ∧ s ∈ sectionList t ∧
            _connect_section context h s = Raise e) ∧
  (∀ e, connect_song context h song = Raise e →
     ∃ t s, t ∈ trackList song ∧ s ∈ sectionList t ∧
            _connect_section context h s = Raise e).
Proof.
  assert (∀ e, connect_song_ h song = Raise e →
            ∃ t s, t ∈ trackList song ∧ s ∈ sectionList t ∧
                   connect_section h s = Raise e) as Hraise.
  { intros e. unfold connect_song.
    destruct (connect_tracks context h (trackList song)) as [tracks|e'] eqn:Ht; [done|].
    intros [= <-]. by apply connect_tracks_Raise. }
  split; [|done]. split.
  - intros [e (t & s & Ht & Hs & Hr)%Hraise]. by exists t, s, e.
  - intros (t & s & e & Ht & Hs & Hr). unfold connect_song.
    destruct (connect_tracks context h (trackList song)) as [tracks|e'] eqn:Hrun;
      [|by exists e'].
    exfalso. apply connect_tracks_OK in Hrun.
    apply list_elem_of_lookup in Ht as [i Hi].
    destruct (Forall2_lookup_l _ _ _ _ _ Hrun Hi) as (t' & _ & Hsec).
    apply list_elem_of_lookup in Hs as [k Hk].
    destruct (Forall2_lookup_l _ _ _ _ _ Hsec Hk) as (s' & _ & Hok).
    by rewrite Hok in Hr.
Qed.

End Song.

Lemma declick_only_attenuates_witness :
  ∃ processed,
    _apply_declick_envelope context_1000 [1; 1; 1; 1; 1; 1; 1; 1; 1; 1; 1; 1]%Q
      = OK processed ∧
    processed !! 5 = Some 1%Q.
Proof.
  destruct (declick_only_attenuates context_1000 ltac:(vm_compute; discriminate)
              [1; 1; 1; 1; 1; 1; 1; 1; 1; 1; 1; 1]%Q)
    as (processed & Hrun & _ & _ & Hmid).
  exists processed. split; [exact Hrun|]. apply (Hmid 5). vm_compute. lia.
Defined.

Lemma canvas_is_sum_of_sources_witness :
  ∃ canvas,
    _connect_section context_1000 phrase_heap phrase_section
      = OK (set_sectionSrc phrase_section canvas) ∧
    (sample canvas 501%nat
     == overlap_add context_1000 phrase_heap 0 [0%nat; 1%nat] 501%nat)%Q.
Proof.
  destruct (canvas_is_sum_of_sources context_1000 ltac:(vm_compute; discriminate) phrase_heap
              phrase_section 0 1)
    as (canvas & Hrun & Hsum); [reflexivity|reflexivity|by vm_compute|..].
  - repeat constructor; by vm_compute.
  - exists canvas. split; [exact Hrun|]. apply (Hsum 501).
Defined.

Lemma connect_song_writes_only_sectionSrc_witness :
  ∃ song',
    connect_song context_1000 demo_heap Samples2.demo_song = OK song' ∧
    name song' = "demo"%string ∧ words_of_song song' = [0; 1; 2].
Proof.
  destruct (connect_song context_1000 demo_heap Samples2.demo_song) as [song'|e] eqn:Hrun;
    [|vm_compute in Hrun; discriminate Hrun].
  exists song'. split; [reflexivity|].
  destruct (connect_song_writes_only_sectionSrc context_1000 demo_heap
              Samples2.demo_song song' Hrun) as (Hname & Hwords & _).
  split; [exact Hname|exact Hwords].
Defined.

End AssemblyProps.

(** ** The edges of a section *)

Module SectionEdges.
Import FlorenceWaveConnecter Vocabulary Samples Samples2.

Lemma int_of_negative x : (x <= -1)%Q → (int_of x < 0)%Z.
Proof.
  destruct x as [n d]. unfold int_of, Qle. cbn [Qnum Qden]. intros H.
  assert (1 <= (- n) ÷ Z.pos d)%Z as Hq by (apply Z.quot_le_lower_bound; lia).
  rewrite <- (Z.opp_involutive n), Z.quot_opp_l by lia. lia.
Qed.

(** X27. The edges of [_connect_section]: a section without words is
    returned as it is, with no canvas; and when the last word ends so long
    before the first begins that the product
    [(end_time - base_time + 0.5) * sample_rate], as the code computes it, is
    -1 or less, the length of the canvas comes out negative and the
    [ValueError] of [np.zeros] is raised. *)
Theorem connect_section_edges context h section :
  (wordList section = [] → _connect_section context h section = OK section) ∧
  (∀ w0 wlast,
     head (wordList section) = Some w0 → last (wordList section) = Some wlast →
     (canvas_product context (start (time (h w0))) (end_ (time (h wlast))) <= -1)%Q →
     _connect_section context h section = Raise ValueError_shape).
Proof.
  unfold _connect_section. split; [by intros ->|].
  intros w0 wlast Hhd Hlast Hneg. rewrite Hlast.
  destruct (wordList section) as [|w0' words]; [done|].
  simpl in Hhd. injection Hhd as ->.
  apply int_of_negative in Hneg. unfold np_zeros.
  fold (canvas_product context (start (time (h w0))) (end_ (time (h wlast)))).
  by destruct (Z.ltb_spec (int_of (canvas_product context (start (time (h w0)))
                                     (end_ (time (h wlast))))) 0); [|lia].
Qed.

Lemma connect_section_edges_witness :
  _connect_section context_1000 backward_heap (mkSection [0] 2 None)
  = Raise ValueError_shape.
Proof.
  apply (proj2 (connect_section_edges context_1000 backward_heap (mkSection [0] 2 None))
           0 0); [reflexivity|reflexivity|by vm_compute].
Defined.

End SectionEdges.

(** ** The orchestrator: failures and the choice of the score *)

Module OrchestrationProps.
Import FlorenceEngine EngineSelect Vocabulary2 Samples Samples2.

Section Engine.

Context {Song : Type}.
Variable track_count : Song → nat.
Variable path_exists : string → bool.

(** X28. Where a failure of [process_score] comes from.  A missing file raises
    [FileNotFoundError] before any stage is called.  Otherwise the error is
    that of the first stage that fails, the stages before it having
    returned and each having been given the result of the one before: an
    error of decoding or of speech synthesis arrives as it was raised, an
    error of pitch retargeting, assembly or export arrives wrapped in the
    exception of its stage.  A module that was never assigned counts as a
    failure of its stage with [AttributeError]. *)
Theorem process_score_failure_origin self score_path t e :
  process_score track_count path_exists self score_path = (t, Raise e) →
  (path_exists score_path = false ∧ e = FileNotFoundError score_path ∧ calls t = []) ∨
  (path_exists score_path = true ∧
   (attempt "decoder" (decoder self) score_path = Raise e ∨
    ∃ s1, attempt "decoder" (decoder self) score_path = OK s1 ∧
    (attempt "speech_generator" (speech_generator self) s1 = Raise e ∨
     ∃ s2, attempt "speech_generator" (speech_generator self) s1 = OK s2 ∧
     ((∃ cause, attempt "coder" (coder self) s2 = Raise cause ∧
                e = StageException StagePitch cause) ∨
      ∃ s3, attempt "coder" (coder self) s2 = OK s3 ∧
      ((∃ cause, attempt "wave_connector" (wave_connector self) s3 = Raise cause ∧
                 e = StageException StageConnect cause) ∨
       ∃ s4, attempt "wave_connector" (wave_connector self) s3 = OK s4 ∧
             ∃ cause, attempt "output_generator" (output_generator self) s4
                      = Raise cause ∧
                      e = StageException StageOutput cause))))).
Proof.
  unfold process_score, _decode_score, _generate_speech, _adjust_pitch,
    _smooth_connect, _generate_output, call_module, attempt.
  destruct (path_exists score_path) eqn:Hex;
    [|cbn; intros [= <- <-]; left; done].
  intros Hrun. right. split; [done|]. revert Hrun.
  destruct (decoder self) as [decode_score|];
    [|cbn; intros [= <- <-]; by left]. cbn.
  destruct (decode_score score_path) as [s1|e1];
    [|cbn; intros [= <- <-]; by left]. cbn.
  intros Hrun. right. exists s1. split; [done|]. revert Hrun.
  destruct (speech_generator self) as [generate_song_speech|];
    [|cbn; intros [= <- <-]; by left]. cbn.
  destruct (generate_song_speech s1) as [s2|e2];
    [|cbn; intros [= <- <-]; by left]. cbn.
  intros Hrun. right. exists s2. split; [done|]. revert Hrun.
  destruct (coder self) as [process_song|];
    [|cbn; intros [= <- <-]; left; by eexists]. cbn.
  destruct (process_song s2) as [s3|e3];
    [|cbn; intros [= <- <-]; left; by eexists]. cbn.
  intros Hrun. right. exists s3. split; [done|]. revert Hrun.
  destruct (wave_connector self) as [connect_song|];
    [|cbn; intros [= <- <-]; left; by eexists]. cbn.
  destruct (connect_song s3) as [s4|e4];
    [|cbn; intros [= <- <-]; left; by eexists]. cbn.
  intros Hrun. right. exists s4. split; [done|]. revert Hrun.
  destruct (output_generator self) as [generate_output|];
    [|cbn; intros [= <- <-]; by eexists]. cbn.
  destruct (generate_output s4) as [out|e5]; [done|].
  cbn. intros [= <- <-]. by eexists.
Qed.

(** X29. [select_and_process] returns [None] only when the user cancelled the
    choice of the file, which cannot happen in debug mode: when processing
    fails it raises instead.  On a cancel nothing is processed, and in debug
    mode the selector is not called. *)
Theorem select_returns_None_only_on_cancel selectScoreFile self :
  (snd (select_and_process track_count path_exists selectScoreFile self) = OK None ↔
   isDebug Song self = false ∧
   (selectScoreFile (input_dir Song self) = None ∨
    selectScoreFile (input_dir Song self) = Some EmptyString)) ∧
  (snd (select_and_process track_count path_exists selectScoreFile self) = OK None →
   fst (select_and_process track_count path_exists selectScoreFile self)
   = [CallSelector (input_dir Song self); PrintCancelled]) ∧
  (isDebug Song self = true →
   fst (select_and_process track_count path_exists selectScoreFile self)
   = PrintSelected debug_score_file
     :: map OfRun (fst (process_score track_count path_exists self debug_score_file))).
Proof.
  unfold select_and_process.
  generalize (process_score track_count path_exists self). intros run.
  destruct (isDebug Song self) eqn:Hdebug.
  - change (match ([], Some debug_score_file) with
            | (t, None) | (t, Some EmptyString) => (t ++ [PrintCancelled], OK None)
            | (t, Some score_file) =>
                let (t', r) := run score_file in
                (t ++ PrintSelected score_file :: map OfRun t',
                 match r with
                 | OK output_path => OK (Some output_path)
                 | Raise e => Raise e
                 end)
            end)
      with (let (t', r) := run debug_score_file in
            ([] ++ PrintSelected debug_score_file :: map OfRun t',
             match r with
             | OK output_path => OK (Some output_path)
             | Raise e => Raise e
             end)).
    destruct (run debug_score_file) as [t' [out|e]]; cbn [fst snd app];
      (split; [split; [done|by intros [? _]]|]); by split.
  - destruct (selectScoreFile (input_dir Song self)) as [[|c score_file]|] eqn:Hsel.
    + cbn [fst snd app]. split; [split; [intros _; split; [done|by right]|done]|].
      by split.
    + destruct (run (String c score_file)) as [t' [out|e]]; cbn [fst snd app];
        (split; [split; [done|by intros [_ [?|?]]]|]); by split.
    + cbn [fst snd app]. split; [split; [intros _; split; [done|by left]|done]|].
      by split.
Qed.

End Engine.

Lemma process_score_failure_origin_witness :
  attempt "coder" (coder plain_engine) 2 = Raise (AttributeError "coder") ∧
  snd (process_score (fun s : nat => s) (fun _ => true) plain_engine "input/score.musicxml")
  = Raise (StageException StagePitch (AttributeError "coder")).
Proof.
  split; [reflexivity|].
  destruct (process_score (fun s : nat => s) (fun _ => true) plain_engine
              "input/score.musicxml") as [t [out|e]] eqn:Hrun;
    [vm_compute in Hrun; discriminate Hrun|].
  destruct (process_score_failure_origin (fun s : nat => s) (fun _ => true)
              plain_engine "input/score.musicxml" t e Hrun)
    as [(Hex & _)|(_ & [Hdec|(s1 & Hs1 & [Hsp|(s2 & Hs2 & Hrest)])])];
    [discriminate Hex|discriminate Hdec| |].
  - injection Hs1 as <-. discriminate Hsp.
  - injection Hs1 as <-. injection Hs2 as <-.
    destruct Hrest as [(cause & Hc & ->)|(s3 & Hc & _)]; [|discriminate Hc].
    injection Hc as <-. reflexivity.
Defined.

End OrchestrationProps.

(** ** Sample files *)

Module HuiHuiScenarios.
Import FlorenceCoder HuiHui HuiHuiProps Vocabulary2 Samples Samples2.

Lemma wav_samples_in_unit_range_witness :
  ∃ audio, _wav_bytes_to_numpy (fun _ q => q) demo_context demo_wav = Ok audio ∧
           length audio = 2 ∧ Forall unit_range audio.
Proof.
  destruct (_wav_bytes_to_numpy (fun _ q => q) demo_context demo_wav)
    as [audio|e] eqn:Hrun; [|vm_compute in Hrun; discriminate Hrun].
  exists audio. split; [reflexivity|].
  destruct (wav_samples_in_unit_range (fun _ q => q) demo_context demo_wav audio
              eq_refl Hrun) as (_ & Hlen & Hrange).
  split; [|exact Hrange]. simpl in Hlen. lia.
Defined.

Lemma wav_decoding_returns_iff_witness :
  ∃ audio, _wav_bytes_to_numpy (fun _ q => q) demo_context demo_wav = Ok audio.
Proof.
  apply (proj2 (proj1 (wav_decoding_returns_iff (fun _ q => q) demo_context demo_wav
                         eq_refl))).
  split; [by right|]. by exists 2.
Defined.

Lemma pcm16_frames_come_back_witness :
  _wav_bytes_to_numpy (fun _ q => q) demo_context
    (mkWavFile 1 2 (sample_rate demo_context) (pcm16 [-32768; 32767]%Z))
  = Ok (map (fun v => inject_Z v / 32768)%Q [-32768; 32767]%Z).
Proof.
  apply (pcm16_frames_come_back (fun _ q => q) demo_context 1 [-32768; 32767]%Z).
  - discriminate.
  - repeat constructor; lia.
Defined.

Lemma resample_keeps_duration_and_range_witness :
  ∃ out, _resample_audio (fun _ q => q) [0; 1]%Q 22050 44100 = Ok out ∧
         length out = 4.
Proof.
  destruct (resample_keeps_duration_and_range (fun _ q => q) [0; 1]%Q 22050 44100)
    as (out & Hrun & Hlen & _); [lia|lia|lia|discriminate|].
  exists out. split; [exact Hrun|].
  change (Z.of_nat (length out) = 4%Z) in Hlen. lia.
Defined.

End HuiHuiScenarios.
